(** * Dot-matrix font editor: glyph codec, array parser, import and conversion

    A shallow embedding of the computational core of the editor:
    - [bytesToBitmap], [parseArrayString], [parseImportedData]
      (services/fontParser.ts),
    - [bitmapToBytes], [alignBitmap], [convertToDynamic], [convertToFixed] and
      the realignment step of handleFinalImport
      (components/ImportFontModal.tsx),
    - [generateChars] (the font generator service).

    Conventions of the embedding.
    - A JavaScript number is modelled by an integer of [Z]: every number the
      modelled code manipulates is integral.  [Number] applied to a literal
      rounds to the nearest double ([round_double]); the statements that
      depend on the numbers read from a text say which magnitudes they cover.
      The 32-bit operators [<<], [>>], [|] and [&] wrap their operands with
      [to_int32] as ECMAScript prescribes.
    - A JavaScript string is the list of its UTF-16 code units.
    - An array is a list.  A JavaScript array has fewer than 2^32 elements:
      [new Array(n)], [Array(n)] and [Array.from({ length: n })] throw a
      RangeError for a number [n] from 2^32 on (and the first two for a
      negative one).  Where the source sizes an array after an existing one
      (alignBitmap, the rows of the space in convertToDynamic) there is
      nothing to check; the statements about a width that is the length of
      an existing row say that it is below 2^32.  Reading past the end gives
      [None] (undefined); the writes of the source are modelled with what
      JavaScript does past the end.
    - A [throw] is the [Err] case of [result]; every throw site of the source
      has its own constructor of [error], and so have the RangeError of an
      invalid array length, the TypeError of an access through undefined and
      the exceptions of the canvas.
    - The canvas is a parameter, [raster]: it tells whether a 2d context is
      obtained and, for a character, either the exception raised by the canvas
      calls or the predicate telling which pixels (x, y) are set once the
      selected render mode (aliased, anti-aliased, dithered) has produced its
      [height] x [width] boolean grid. *)

From Stdlib Require Import ZArith Lia String Ascii.
From stdpp Require Import base list.

Local Open Scope Z_scope.

(** ** Thrown errors and the error monad *)

Inductive error : Type :=
  | RangeError                                  (* invalid array length *)
  | TypeError                                   (* property access on undefined *)
  | NoCanvasContext                             (* getContext gave null *)
  | CanvasException                             (* thrown by a canvas call *)
  | UnsupportedHeight                           (* bytesToBitmap, height > 8 *)
  | InvalidHeight (charHeight : Z)
  | ArrayLengthMismatch (chars widths offsets : nat)
  | WidthsEmpty (chars : nat)
  | OutOfBounds (index : nat) (offset width : Z) (dataLength : nat)
  | InvalidWidth (charWidth : Z)
  | DataEmpty (chars : nat)
  | DataSizeMismatch (expected : Z) (chars : nat) (charWidth : Z) (found : nat).

Inductive result (A : Type) : Type :=
  | Ok (a : A)
  | Err (e : error).
Arguments Ok {A} a.
Arguments Err {A} e.

#[global] Instance result_ret : MRet result := fun A a => Ok a.
#[global] Instance result_bind : MBind result := fun A B f m =>
  match m with
  | Ok a => f a
  | Err e => Err e
  end.

Definition is_ok {A} (r : result A) : bool :=
  match r with Ok _ => true | Err _ => false end.

(** [for (let i = 0; i < n; i++) body], the body possibly throwing. *)
Fixpoint for_from {St : Type} (i : nat) (n : nat)
    (body : nat -> St -> result St) (s : St) : result St :=
  match n with
  | O => Ok s
  | S n' => s' ← body i s; for_from (S i) n' body s'
  end.

Definition for_loop {St : Type} (n : nat) (body : nat -> St -> result St) (s : St)
    : result St :=
  for_from 0 n body s.

(** [Array.from({ length: n }, f)]: a negative length counts as 0, and a
    length of 2^32 or more throws before [f] is called. *)
Fixpoint array_from_aux {A : Type} (f : nat -> result A) (i n : nat)
    : result (list A) :=
  match n with
  | O => Ok []
  | S n' =>
      a ← f i; rest ← array_from_aux f (S i) n'; Ok (a :: rest)
  end.

Definition array_from {A : Type} (n : Z) (f : nat -> result A)
    : result (list A) :=
  if 2 ^ 32 <=? n then Err RangeError
  else array_from_aux f 0 (Z.to_nat n).

(** [new Array(n).fill(v)] and [Array(n).fill(v)]: a length that is negative
    or not below 2^32 throws. *)
Definition new_array_fill {A : Type} (n : Z) (v : A) : result (list A) :=
  if (n <? 0) || (2 ^ 32 <=? n) then Err RangeError
  else Ok (replicate (Z.to_nat n) v).

(** [l.map(f)] with a callback that may throw. *)
Fixpoint array_map {A B : Type} (f : A -> result B) (l : list A) : result (list B) :=
  match l with
  | [] => Ok []
  | a :: rest => b ← f a; bs ← array_map f rest; Ok (b :: bs)
  end.

(** [for (const x of l) body] and [l.forEach(body)] *)
Fixpoint for_each {A St : Type} (l : list A) (body : A -> St -> result St) (s : St)
    : result St :=
  match l with
  | [] => Ok s
  | a :: rest => s' ← body a s; for_each rest body s'
  end.

(** ** 32-bit integer operators *)

Definition to_int32 (z : Z) : Z := (z + 2 ^ 31) mod 2 ^ 32 - 2 ^ 31.

Definition js_shl (a n : Z) : Z := to_int32 (Z.shiftl (to_int32 a) (n mod 32)).
Definition js_sar (a n : Z) : Z := Z.shiftr (to_int32 a) (n mod 32).
Definition js_or (a b : Z) : Z := Z.lor (to_int32 a) (to_int32 b).
Definition js_and (a b : Z) : Z := Z.land (to_int32 a) (to_int32 b).

(** ** Arrays *)

Abbreviation matrix := (list (list bool)).

(** [m[r]?.[c]] read as a condition: a missing row or cell is falsy. *)
Definition cell (m : matrix) (r c : nat) : bool :=
  match m !! r with
  | Some row => match row !! c with Some b => b | None => false end
  | None => false
  end.

(** [row[c] = v]: JavaScript grows the array when [c] is past its end; the
    holes read as falsy. *)
Definition row_set (c : nat) (v : bool) (row : list bool) : list bool :=
  if (c <? length row)%nat then <[c := v]> row
  else row ++ replicate (c - length row) false ++ [v].

(** [m[r][c] = v]: throws when row [r] does not exist. *)
Definition set_cell (r c : nat) (v : bool) (m : matrix) : result matrix :=
  match m !! r with
  | Some row => Ok (<[r := row_set c v row]> m)
  | None => Err TypeError
  end.

(** [m[0]?.length || 0] (and [?? 0]). *)
Definition first_row_length (m : matrix) : nat :=
  match m !! 0%nat with Some row => length row | None => 0%nat end.

(** [Array.prototype.slice(start, end)] with its treatment of negative and
    oversized bounds. *)
Definition clamp_index (len k : Z) : Z :=
  if k <? 0 then Z.max (len + k) 0 else Z.min k len.

Definition js_slice {A : Type} (l : list A) (start stop : Z) : list A :=
  let len := Z.of_nat (length l) in
  let k := clamp_index len start in
  let f := clamp_index len stop in
  take (Z.to_nat (f - k)) (drop (Z.to_nat k) l).

(** The matrix with [h] rows and [w] columns whose cell (r, c) is [f r c]. *)
Definition tabulate (h w : nat) (f : nat -> nat -> bool) : matrix :=
  fmap (fun r => fmap (f r) (seq 0 w)) (seq 0 h).

(** ** ByteCodec *)

(** [bytes[c] || 0]: an absent element and a zero both give the default. *)
Definition or_default (o : option Z) (d : Z) : Z :=
  match o with
  | Some b => if b =? 0 then d else b
  | None => d
  end.

(** The condition [(byte >> n) & 1]. *)
Definition bit_set (byte n : Z) : bool := negb (js_and (js_sar byte n) 1 =? 0).

(** ImportFontModal.tsx, bitmapToBytes. *)
Definition encode_column (bitmap : matrix) (height : Z) (c : nat) : Z :=
  fold_left
    (fun byte r =>
       if cell bitmap r c then js_or byte (js_shl 1 (height - 1 - Z.of_nat r))
       else byte)
    (seq 0 (Z.to_nat height)) 0.

Definition bitmapToBytes (bitmap : matrix) (height : Z) : list Z :=
  let width := first_row_length bitmap in
  fold_left (fun bytes c => bytes ++ [encode_column bitmap height c])
    (seq 0 width) [].

(** fontParser.ts, bytesToBitmap. *)
Definition decode_column (bytes : list Z) (height : Z) (c : nat) (bitmap : matrix)
    : result matrix :=
  let byte := or_default (bytes !! c) 0 in
  for_loop (Z.to_nat height)
    (fun r bitmap =>
       if bit_set byte (height - 1 - Z.of_nat r) then set_cell r c true bitmap
       else Ok bitmap)
    bitmap.

Definition bytesToBitmap (bytes : list Z) (width height : Z) : result matrix :=
  bitmap ← array_from height (fun _ => new_array_fill width false);
  if 8 <? height then Err UnsupportedHeight
  else for_loop (Z.to_nat width) (decode_column bytes height) bitmap.

(** ** Strings *)

Abbreviation jsstring := (list Z).

(** The code units of an ASCII literal. *)
Definition lit (s : string) : jsstring :=
  map (fun a => Z.of_N (N_of_ascii a)) (list_ascii_of_string s).

Definition unit_eqb (a b : Z) : bool := a =? b.

Fixpoint jsstring_eqb (s t : jsstring) : bool :=
  match s, t with
  | [], [] => true
  | a :: s', b :: t' => unit_eqb a b && jsstring_eqb s' t'
  | _, _ => false
  end.

Definition SPACE : jsstring := [32].

(** The line terminators: the code units [.] does not match and before
    which [$] matches under the m flag. *)
Definition is_line_terminator (u : Z) : bool :=
  (u =? 10) || (u =? 13) || (u =? 8232) || (u =? 8233).

(** White space and line terminators, as removed by [String.prototype.trim]. *)
Definition is_white_space (u : Z) : bool :=
  (u =? 9) || (u =? 10) || (u =? 11) || (u =? 12) || (u =? 13) || (u =? 32)
  || (u =? 160) || (u =? 5760) || ((8192 <=? u) && (u <=? 8202))
  || (u =? 8232) || (u =? 8233) || (u =? 8239) || (u =? 8287)
  || (u =? 12288) || (u =? 65279).

(** [s.trim() === ''] *)
Definition trims_to_empty (s : jsstring) : bool := forallb is_white_space s.

(** [s.charCodeAt(i)]; [None] is NaN. *)
Definition charCodeAt (s : jsstring) (i : nat) : option Z := s !! i.

(** [s.codePointAt(0)]; [None] is undefined. *)
Definition codePointAt0 (s : jsstring) : option Z :=
  match s with
  | [] => None
  | hi :: rest =>
      match rest with
      | lo :: _ =>
          if (55296 <=? hi) && (hi <=? 56319) && (56320 <=? lo) && (lo <=? 57343)
          then Some ((hi - 55296) * 1024 + (lo - 56320) + 65536)
          else Some hi
      | [] => Some hi
      end
  end.

(** [s.indexOf(u)] and [s.lastIndexOf(u)] for a one-unit needle; -1 when absent. *)
Fixpoint indexOf_from (i : Z) (u : Z) (s : jsstring) : Z :=
  match s with
  | [] => -1
  | a :: rest => if a =? u then i else indexOf_from (i + 1) u rest
  end.

Definition indexOf (u : Z) (s : jsstring) : Z := indexOf_from 0 u s.

Fixpoint lastIndexOf_from (i : Z) (found : Z) (u : Z) (s : jsstring) : Z :=
  match s with
  | [] => found
  | a :: rest => lastIndexOf_from (i + 1) (if a =? u then i else found) u rest
  end.

Definition lastIndexOf (u : Z) (s : jsstring) : Z := lastIndexOf_from 0 (-1) u s.

(** [s.substring(a, b)]: both bounds clamped to the string, swapped if needed. *)
Definition substring (s : jsstring) (a b : Z) : jsstring :=
  let len := Z.of_nat (length s) in
  let a' := Z.min (Z.max a 0) len in
  let b' := Z.min (Z.max b 0) len in
  let lo := Z.min a' b' in
  let hi := Z.max a' b' in
  take (Z.to_nat (hi - lo)) (drop (Z.to_nat lo) s).

Fixpoint starts_with (p s : jsstring) : bool :=
  match p, s with
  | [], _ => true
  | a :: p', b :: s' => (a =? b) && starts_with p' s'
  | _ :: _, [] => false
  end.

(** ** Global regular-expression scans

    A matcher returns the length of the match of its regular expression
    anchored at the head of the given suffix, if there is one.  Both
    expressions of the parser only have non-empty matches. *)

Definition matcher := jsstring -> option nat.

(** [s.replace(re, '')] with the g flag. *)
Fixpoint replace_all (m : matcher) (skip : nat) (s : jsstring) : jsstring :=
  match s with
  | [] => []
  | u :: rest =>
      match skip with
      | S k => replace_all m k rest
      | O =>
          match m s with
          | Some (S k) => replace_all m k rest
          | _ => u :: replace_all m 0 rest
          end
      end
  end.

(** [s.match(re)] with the g flag; no match (null) is the empty list. *)
Fixpoint match_all (m : matcher) (skip : nat) (s : jsstring) : list jsstring :=
  match s with
  | [] => []
  | u :: rest =>
      match skip with
      | S k => match_all m k rest
      | O =>
          match m s with
          | Some (S k) => take (S k) s :: match_all m k rest
          | _ => match_all m 0 rest
          end
      end
  end.

(** Length of the longest prefix whose units satisfy [p]. *)
Fixpoint span_length (p : Z -> bool) (s : jsstring) : nat :=
  match s with
  | u :: rest => if p u then S (span_length p rest) else O
  | [] => O
  end.

(** Number of units before the first [*/]. *)
Fixpoint find_star_slash (s : jsstring) : option nat :=
  match s with
  | [] => None
  | a :: rest =>
      if starts_with [42; 47] s then Some O
      else S <$> find_star_slash rest
  end.

(** [(\/\/|#).*$] under the m flag: up to the end of the line. *)
Definition line_comment_match (s : jsstring) : option nat :=
  if starts_with [47; 47] s
  then Some (2 + span_length (fun u => negb (is_line_terminator u)) (drop 2 s))%nat
  else if starts_with [35] s
  then Some (1 + span_length (fun u => negb (is_line_terminator u)) (drop 1 s))%nat
  else None.

(** [/\/\*[\s\S]*?\*\/|(\/\/|#).*$/gm] *)
Definition comment_match : matcher := fun s =>
  if starts_with [47; 42] s then
    match find_star_slash (drop 2 s) with
    | Some n => Some (n + 4)%nat
    | None => line_comment_match s
    end
  else line_comment_match s.

Definition is_digit (u : Z) : bool := (48 <=? u) && (u <=? 57).
Definition is_bin_digit (u : Z) : bool := (u =? 48) || (u =? 49).
Definition is_hex_digit (u : Z) : bool :=
  is_digit u || ((97 <=? u) && (u <=? 102)) || ((65 <=? u) && (u <=? 70)).

(** A two-unit prefix followed by at least one unit of class [p]. *)
Definition prefixed_match (prefix : jsstring) (p : Z -> bool) : matcher := fun s =>
  if starts_with prefix s then
    match span_length p (drop (length prefix) s) with
    | O => None
    | n => Some (length prefix + n)%nat
    end
  else None.

(** [-?\d+] *)
Definition decimal_match : matcher := fun s =>
  let sign := if starts_with [45] s then 1%nat else 0%nat in
  match span_length is_digit (drop sign s) with
  | O => None
  | n => Some (sign + n)%nat
  end.

(** ['(\\.|[^'])'], with the backtracking from the first alternative of the
    group to the second. *)
Definition char_literal_match : matcher := fun s =>
  match s with
  | q :: rest =>
      if q =? 39 then
        let escaped :=
          match rest with
          | b :: x :: q2 :: _ =>
              (b =? 92) && negb (is_line_terminator x) && (q2 =? 39)
          | _ => false
          end in
        if escaped then Some 4%nat
        else
          match rest with
          | c :: q2 :: _ =>
              if negb (c =? 39) && (q2 =? 39) then Some 3%nat else None
          | _ => None
          end
      else None
  | [] => None
  end.

Definition or_else (a b : matcher) : matcher := fun s =>
  match a s with Some n => Some n | None => b s end.

(** [/0x[0-9a-fA-F]+|0b[01]+|-?\d+|'(\\.|[^'])'/g] *)
Definition token_match : matcher :=
  or_else (prefixed_match [48; 120] is_hex_digit)
    (or_else (prefixed_match [48; 98] is_bin_digit)
       (or_else decimal_match char_literal_match)).

(** ** ArrayTextParser *)

(** Value of a digit in a base up to 36. *)
Definition digit_value (u : Z) : option Z :=
  if is_digit u then Some (u - 48)
  else if (97 <=? u) && (u <=? 122) then Some (u - 87)
  else if (65 <=? u) && (u <=? 90) then Some (u - 55)
  else None.

(** Value of a non-empty string of digits of the base; [None] otherwise. *)
Fixpoint digits_value_acc (base : Z) (acc : Z) (s : jsstring) : option Z :=
  match s with
  | [] => Some acc
  | u :: rest =>
      match digit_value u with
      | Some d =>
          if d <? base then digits_value_acc base (acc * base + d) rest
          else None
      | None => None
      end
  end.

Definition digits_value (base : Z) (s : jsstring) : option Z :=
  match s with
  | [] => None
  | _ => digits_value_acc base 0 s
  end.

(** The double nearest to the integer [z], ties to the even significand:
    an integer below 2^53 in magnitude is a double; above, the 53 leading
    bits are kept and the rest is rounded.  A result of magnitude 2^1024 or
    more stands for an infinity of JavaScript. *)
Definition round_double (z : Z) : Z :=
  let a := Z.abs z in
  if a <? 2 ^ 53 then z
  else
    let e := Z.log2 a - 52 in
    let q := Z.shiftr a e in
    let r := a - Z.shiftl q e in
    let half := 2 ^ (e - 1) in
    let q' := if (half <? r) || ((r =? half) && Z.odd q) then q + 1 else q in
    Z.sgn z * Z.shiftl q' e.

(** [Number(token)] on integer literals ([0x..], [0b..], signed decimal), the
    only strings the token expression lets through; [None] is NaN. *)
Definition number_of_token (token : jsstring) : option Z :=
  round_double <$>
    (if starts_with [48; 120] token || starts_with [48; 88] token
     then digits_value 16 (drop 2 token)
     else if starts_with [48; 98] token || starts_with [48; 66] token
     then digits_value 2 (drop 2 token)
     else if starts_with [45] token then Z.opp <$> digits_value 10 (drop 1 token)
     else if starts_with [43] token then digits_value 10 (drop 1 token)
     else digits_value 10 token).

(** [parseInt(s, 16)]: leading white space, a sign and a [0x] prefix are
    skipped, then the longest run of hexadecimal digits is read; [None] is
    NaN. *)
Definition parseInt16 (s : jsstring) : option Z :=
  let s := drop (span_length is_white_space s) s in
  let negative := starts_with [45] s in
  let s := if starts_with [45] s || starts_with [43] s then drop 1 s else s in
  let s :=
    if starts_with [48; 120] s || starts_with [48; 88] s then drop 2 s else s in
  let digits := take (span_length is_hex_digit s) s in
  (fun v => round_double (if negative then - v else v)) <$> digits_value 16 digits.

(** The code of a character literal, from the text between its quotes. *)
Definition char_literal_code (charContent : jsstring) : option Z :=
  if starts_with [92] charContent && (1 <? length charContent)%nat then
    match charContent !! 1%nat with
    | Some u =>
        if u =? 110 then Some 10                       (* n *)
        else if u =? 114 then Some 13                  (* r *)
        else if u =? 116 then Some 9                   (* t *)
        else if u =? 39 then Some 39                   (* ' *)
        else if u =? 34 then Some 34                   (* double quote *)
        else if u =? 92 then Some 92                   (* backslash *)
        else if u =? 48 then Some 0                    (* 0 *)
        else if u =? 120 then                          (* x *)
          if (2 <? length charContent)%nat then
            match parseInt16 (drop 2 charContent) with
            | Some hexVal => Some hexVal
            | None => Some 120
            end
          else Some 120
        else charCodeAt charContent 1
    | None => None
    end
  else charCodeAt charContent 0.

Definition ends_with_quote (token : jsstring) : bool :=
  match last token with Some u => u =? 39 | None => false end.

(** The loop body over the matched tokens. *)
Definition push_token (numbers : list Z) (token : jsstring) : list Z :=
  if starts_with [39] token && ends_with_quote token then
    let charContent := substring token 1 (Z.of_nat (length token) - 1) in
    match char_literal_code charContent with
    | Some charCode => numbers ++ [charCode]
    | None => numbers
    end
  else
    match number_of_token token with
    | Some num => numbers ++ [num]
    | None => numbers
    end.

(** The body of the literal: between the first opening and the last closing
    bracket when there are such. *)
Definition literal_body (content : jsstring) : jsstring :=
  let firstBracket := indexOf 123 content in
  let firstSquare := indexOf 91 content in
  let start :=
    if (-1 <? firstBracket) && (-1 <? firstSquare)
    then Z.min firstBracket firstSquare
    else Z.max firstBracket firstSquare in
  let lastBracket := lastIndexOf 125 content in
  let lastSquare := lastIndexOf 93 content in
  let stop := Z.max lastBracket lastSquare in
  if negb (start =? -1) && negb (stop =? -1) && (start <? stop)
  then substring content (start + 1) stop
  else content.

(** fontParser.ts, parseArrayString. *)
Definition parseArrayString (text : jsstring) : list Z :=
  match text with
  | [] => []
  | _ =>
      let content := replace_all comment_match 0 text in
      let content := literal_body content in
      let matches := match_all token_match 0 content in
      fold_left push_token matches []
  end.

Definition example_hex : jsstring := lit "{0x1A, 0x2B, /* x */ 0x3C}".
Definition example_chars : jsstring := lit "buf[] = {'A','\n',10}".
Definition example_hex_escape : jsstring := lit "'\x41'".

(** ** Glyph records *)

(** types.ts, GeneratedChar.  The importer stores the code under [ascii], the
    generator under [codePoint]; the absent property is [None]. *)
Record GeneratedChar : Type := mkChar {
  char : jsstring;
  ascii : option Z;
  codePoint : option Z;
  bitmap : matrix;
  bytes : list Z
}.

(** [{ ...charData, bitmap: b, bytes: y }] *)
Definition with_glyph (charData : GeneratedChar) (b : matrix) (y : list Z)
    : GeneratedChar :=
  {| char := char charData; ascii := ascii charData;
     codePoint := codePoint charData; bitmap := b; bytes := y |}.

(** The options the importer recovers (a partial FontGeneratorOptions). *)
Record ImportedOptions : Type := mkImportedOptions {
  io_width : Z;
  io_height : Z;
  io_characterSet : jsstring;
  io_dynamicWidth : bool;
  io_charSpacing : Z
}.

Record ParsedFontData : Type := mkParsed {
  fontData : list GeneratedChar;
  fontOptions : ImportedOptions
}.

(** fontParser.ts, ImportOptions. *)
Record ImportOptions : Type := mkImport {
  rawData : jsstring;
  rawWidths : jsstring;
  rawOffsets : jsstring;
  characterSet : jsstring;
  charHeight : Z;
  charWidth : Z;
  isDynamic : bool
}.

(** ** FontImportAssembler *)

(** [[...new Set(characterSet.split(''))]]: one string per code unit, the
    first occurrence of each kept, in order. *)
Fixpoint dedup_first (seen : list Z) (s : jsstring) : list jsstring :=
  match s with
  | [] => []
  | u :: rest =>
      if existsb (Z.eqb u) seen then dedup_first seen rest
      else [u] :: dedup_first (u :: seen) rest
  end.

Definition unique_chars (characterSet : jsstring) : list jsstring :=
  dedup_first [] characterSet.

(** Loop state of the dynamic branch. *)
Record dyn_state : Type := mkDyn {
  dyn_chars : list GeneratedChar;
  dyn_maxWidth : Z
}.

(** One iteration of the loop of the dynamic branch.  The guards before the
    loop make [widths[i]] and [offsets[i]] defined; reading an undefined one is
    reported as a TypeError.  The sum [offset + width] is only compared with
    the length of the data array and clamped to it by [slice]: on finite
    doubles the rounding of the sum changes neither. *)
Definition dynamic_step (uniqueChars : list jsstring) (dataBytes widths offsets : list Z)
    (charHeight : Z) (i : nat) (st : dyn_state) : result dyn_state :=
  match uniqueChars !! i, widths !! i, offsets !! i with
  | Some ch, Some width, Some offset =>
      let maxWidth := if dyn_maxWidth st <? width then width else dyn_maxWidth st in
      if Z.of_nat (length dataBytes) <? offset + width
      then Err (OutOfBounds i offset width (length dataBytes))
      else
        let bytes := js_slice dataBytes offset (offset + width) in
        bitmap ← bytesToBitmap bytes width charHeight;
        Ok {| dyn_chars :=
                dyn_chars st ++
                  [{| char := ch; ascii := charCodeAt ch 0; codePoint := None;
                      bitmap := bitmap; bytes := bytes |}];
              dyn_maxWidth := maxWidth |}
  | _, _, _ => Err TypeError
  end.

(** One iteration of the loop of the fixed branch. *)
Definition fixed_step (uniqueChars : list jsstring) (dataBytes : list Z)
    (charWidth charHeight : Z) (i : nat) (generatedChars : list GeneratedChar)
    : result (list GeneratedChar) :=
  match uniqueChars !! i with
  | Some ch =>
      let startIndex := Z.of_nat i * charWidth in
      let bytes := js_slice dataBytes startIndex (startIndex + charWidth) in
      bitmap ← bytesToBitmap bytes charWidth charHeight;
      Ok (generatedChars ++
            [{| char := ch; ascii := charCodeAt ch 0; codePoint := None;
                bitmap := bitmap; bytes := bytes |}])
  | None => Err TypeError
  end.

(** fontParser.ts, parseImportedData. *)
Definition parseImportedData (options : ImportOptions) : result ParsedFontData :=
  let uniqueChars := unique_chars (characterSet options) in
  let nchars := length uniqueChars in
  let charHeight := charHeight options in
  if (charHeight <=? 0) || (8 <? charHeight) then Err (InvalidHeight charHeight)
  else if isDynamic options then
    let dataBytes := parseArrayString (rawData options) in
    let widths := parseArrayString (rawWidths options) in
    let offsets := parseArrayString (rawOffsets options) in
    if (0 <? length widths)%nat
       && (negb (nchars =? length widths)%nat || negb (nchars =? length offsets)%nat)
    then Err (ArrayLengthMismatch nchars (length widths) (length offsets))
    else if (length widths =? 0)%nat && (0 <? nchars)%nat
    then Err (WidthsEmpty nchars)
    else
      st ← for_loop nchars
             (dynamic_step uniqueChars dataBytes widths offsets charHeight)
             {| dyn_chars := []; dyn_maxWidth := 0 |};
      Ok {| fontData := dyn_chars st;
            fontOptions :=
              {| io_width := if 0 <? dyn_maxWidth st then dyn_maxWidth st else 8;
                 io_height := charHeight;
                 io_characterSet := characterSet options;
                 io_dynamicWidth := true;
                 io_charSpacing := 0 |} |}
  else
    let charWidth := charWidth options in
    if charWidth <=? 0 then Err (InvalidWidth charWidth)
    else
      let dataBytes := parseArrayString (rawData options) in
      if (length dataBytes =? 0)%nat && (0 <? nchars)%nat
      then Err (DataEmpty nchars)
      else
        let expectedBytes := Z.of_nat nchars * charWidth in
        if negb (Z.of_nat (length dataBytes) =? expectedBytes) && (0 <? nchars)%nat
        then Err (DataSizeMismatch expectedBytes nchars charWidth (length dataBytes))
        else
          generatedChars ← for_loop nchars
                             (fixed_step uniqueChars dataBytes charWidth charHeight) [];
          Ok {| fontData := generatedChars;
                fontOptions :=
                  {| io_width := charWidth;
                     io_height := charHeight;
                     io_characterSet := characterSet options;
                     io_dynamicWidth := false;
                     io_charSpacing := 0 |} |}.

(** The errors the specification files under ArrayLengthMismatchError: the
    two guards on the lengths of the width and offset tables. *)
Definition is_length_mismatch (e : error) : bool :=
  match e with
  | ArrayLengthMismatch _ _ _ | WidthsEmpty _ => true
  | _ => false
  end.

Definition is_out_of_bounds (e : error) : bool :=
  match e with
  | OutOfBounds _ _ _ _ => true
  | _ => false
  end.

(** ** FormatConverter *)

Inductive direction : Type := Top | Bottom.

(** [row.some(pixel => pixel)] *)
Definition row_has_pixel (row : list bool) : bool := existsb (fun pixel => pixel) row.

(** The scan for [firstRowWithPixel] and [lastRowWithPixel]; -1 when unset. *)
Definition scan_rows (bitmap : matrix) : Z * Z :=
  fold_left
    (fun (st : Z * Z) r =>
       let (firstRowWithPixel, lastRowWithPixel) := st in
       match bitmap !! r with
       | Some row =>
           if row_has_pixel row then
             (if firstRowWithPixel =? -1 then Z.of_nat r else firstRowWithPixel,
              Z.of_nat r)
           else st
       | None => st
       end)
    (seq 0 (length bitmap)) (-1, -1).

(** [for (r = from; r < from + count; r++) newBitmap[dest r] = bitmap[r]]; in
    both uses the destination lies inside [newBitmap]. *)
Definition copy_rows (bitmap : matrix) (from count : nat) (dest : nat -> nat)
    (newBitmap : matrix) : matrix :=
  fold_left
    (fun nb r =>
       match bitmap !! r with
       | Some row => <[dest r := row]> nb
       | None => nb
       end)
    (seq from count) newBitmap.

(** ImportFontModal.tsx, alignBitmap. *)
Definition alignBitmap (bitmap : matrix) (dir : direction) : matrix :=
  let height := length bitmap in
  if (height =? 0)%nat then bitmap
  else
    let width := first_row_length bitmap in
    let (firstRowWithPixel, lastRowWithPixel) := scan_rows bitmap in
    if firstRowWithPixel =? -1 then bitmap
    else
      let newBitmap := replicate height (replicate width false) in
      match dir with
      | Top =>
          let shiftAmount := Z.to_nat firstRowWithPixel in
          if (shiftAmount =? 0)%nat then bitmap
          else copy_rows bitmap shiftAmount (height - shiftAmount)
                 (fun r => (r - shiftAmount)%nat) newBitmap
      | Bottom =>
          let shiftAmount := Z.to_nat (Z.of_nat height - 1 - lastRowWithPixel) in
          if (shiftAmount =? 0)%nat then bitmap
          else copy_rows bitmap 0 (Z.to_nat (lastRowWithPixel + 1))
                 (fun r => (r + shiftAmount)%nat) newBitmap
      end.

(** The body of the scan for [minX] and [maxX] at pixel (x, y). *)
Definition scan_pixel (bitmap : matrix) (y : nat) (st : Z * Z) (x : nat) : Z * Z :=
  let (minX, maxX) := st in
  if cell bitmap y x then
    (if Z.of_nat x <? minX then Z.of_nat x else minX,
     if maxX <? Z.of_nat x then Z.of_nat x else maxX)
  else st.

(** The scan for [minX] and [maxX] over the set pixels of rows [0 .. h),
    row [y] being read up to column [bound y]. *)
Definition scan_columns (bitmap : matrix) (h : nat) (bound : nat -> nat) (minX0 : Z)
    : Z * Z :=
  fold_left
    (fun (st : Z * Z) y => fold_left (scan_pixel bitmap y) (seq 0 (bound y)) st)
    (seq 0 h) (minX0, -1).

Definition row_length (bitmap : matrix) (y : nat) : nat :=
  match bitmap !! y with Some row => length row | None => 0%nat end.

(** The callback of [fontData.map] in convertToDynamic; the running
    [maxWidth] is threaded through.  The rows of the space are built one per
    row of the bitmap it had ([Array.from] over the length of that array). *)
Definition dynamic_of (originalWidth : Z) (maxWidth : Z) (charData : GeneratedChar)
    : result (GeneratedChar * Z) :=
  if jsstring_eqb (char charData) SPACE then
    let spaceWidth := Z.max 1 (originalWidth / 2) in
    newBitmap ← array_map (fun _ => new_array_fill spaceWidth false) (bitmap charData);
    newBytes ← new_array_fill spaceWidth 0;
    Ok (with_glyph charData newBitmap newBytes,
        if maxWidth <? spaceWidth then spaceWidth else maxWidth)
  else
    let height := length (bitmap charData) in
    let (minX, maxX) :=
      scan_columns (bitmap charData) height (row_length (bitmap charData))
        (Z.of_nat (first_row_length (bitmap charData))) in
    if maxX =? -1 then
      Ok (with_glyph charData (replicate height []) [], maxWidth)
    else
      let newWidth := maxX - minX + 1 in
      let newBitmap := fmap (fun row => js_slice row minX (maxX + 1)) (bitmap charData) in
      let newBytes := js_slice (bytes charData) minX (maxX + 1) in
      Ok (with_glyph charData newBitmap newBytes,
          if maxWidth <? newWidth then newWidth else maxWidth).

(** ImportFontModal.tsx, convertToDynamic: [(newData, maxWidth)]. *)
Definition convertToDynamic (fontData : list GeneratedChar) (originalWidth : Z)
    : result (list GeneratedChar * Z) :=
  for_each fontData
    (fun charData (st : list GeneratedChar * Z) =>
       '(g, maxWidth) ← dynamic_of originalWidth (snd st) charData;
       Ok (fst st ++ [g], maxWidth))
    ([], 0).

(** The callback of [fontData.map] in convertToFixed. *)
Definition fixed_of (newWidth : Z) (charData : GeneratedChar)
    : result GeneratedChar :=
  let currentWidth := Z.of_nat (length (bytes charData)) in
  if currentWidth =? newWidth then Ok charData
  else if newWidth <? currentWidth then
    Ok (with_glyph charData
          (fmap (fun row => js_slice row 0 newWidth) (bitmap charData))
          (js_slice (bytes charData) 0 newWidth))
  else
    let paddingCols := newWidth - currentWidth in
    bitmapPadding ← new_array_fill paddingCols false;
    let newBitmap := fmap (fun row => row ++ bitmapPadding) (bitmap charData) in
    bytePadding ← new_array_fill paddingCols 0;
    Ok (with_glyph charData newBitmap (bytes charData ++ bytePadding)).

(** ImportFontModal.tsx, convertToFixed. *)
Definition convertToFixed (fontData : list GeneratedChar) (newWidth : Z)
    : result (list GeneratedChar) :=
  array_map (fixed_of newWidth) fontData.

(** The vertical realignment step of handleFinalImport: align, then encode
    the bytes again.  [height] stands for [tempFontOptions.height || height]. *)
Definition realign (height : Z) (dir : direction) (charData : GeneratedChar)
    : GeneratedChar :=
  let newBitmap := alignBitmap (bitmap charData) dir in
  with_glyph charData newBitmap (bitmapToBytes newBitmap height).

(** ** RasterizationPipeline *)

Inductive FontWeight : Type := Normal | Bold.
Inductive RenderMode : Type := Aliased | AntiAliased | Dithered.
Inductive AutoAlign : Type := AlignTop | AlignBottom | AlignManual.

(** types.ts, FontGeneratorOptions. *)
Record FontGeneratorOptions : Type := mkOptions {
  fontFamily : jsstring;
  fontWeight : FontWeight;
  width : Z;
  height : Z;
  charSpacing : Z;
  fontCharacterSet : jsstring;
  fontSizeAdjustment : Z;
  renderMode : RenderMode;
  renderThreshold : Z;
  autoAlign : AutoAlign;
  xOffset : Z;
  yOffset : Z;
  dynamicWidth : bool
}.

(** The canvas.  [context o] tells whether [getContext('2d')] gave a context
    for the canvas of the generator; [pixels o ch] is the outcome of the
    canvas calls and of the selected render mode for [ch]: the exception
    raised, or the predicate telling which pixels (y, x) of the
    [height] x [width] grid [renderedBitmap] are set. *)
Record rasterizer : Type := mkRasterizer {
  context : FontGeneratorOptions -> bool;
  pixels : FontGeneratorOptions -> jsstring -> result (nat -> nat -> bool)
}.

(** The record pushed for a white-space character other than the space. *)
Definition blank_char (options : FontGeneratorOptions) (ch : jsstring)
    : result GeneratedChar :=
  let totalWidth :=
    if dynamicWidth options then 0 else width options + charSpacing options in
  rows ← new_array_fill (height options) 0;
  bitmap ← array_map (fun _ => new_array_fill totalWidth false) rows;
  bytes ← new_array_fill totalWidth 0;
  Ok {| char := ch; ascii := None; codePoint := codePointAt0 ch;
        bitmap := bitmap; bytes := bytes |}.

(** [finalBitmap] from [renderedBitmap]: trimmed in dynamic mode, followed by
    the spacing columns in fixed mode. *)
Definition final_bitmap (options : FontGeneratorOptions) (ch : jsstring)
    (renderedBitmap : matrix) : result matrix :=
  let glyphRenderWidth := width options in
  if dynamicWidth options then
    if jsstring_eqb ch SPACE then
      let spaceWidth :=
        if glyphRenderWidth / 2 =? 0 then 1 else glyphRenderWidth / 2 in
      array_from (height options) (fun _ => new_array_fill spaceWidth false)
    else
      let (minX, maxX) :=
        scan_columns renderedBitmap (Z.to_nat (height options))
          (fun _ => Z.to_nat glyphRenderWidth) glyphRenderWidth in
      if maxX =? -1 then array_from (height options) (fun _ => Ok [])
      else Ok (fmap (fun row => js_slice row minX (maxX + 1)) renderedBitmap)
  else if 0 <? charSpacing options then
    spacingColumns ← new_array_fill (charSpacing options) false;
    Ok (fmap (fun row => row ++ spacingColumns) renderedBitmap)
  else Ok renderedBitmap.

(** One iteration of the loop over the characters. *)
Definition generate_char (raster : rasterizer) (options : FontGeneratorOptions)
    (ch : jsstring) : result GeneratedChar :=
  if trims_to_empty ch && negb (jsstring_eqb ch SPACE) then blank_char options ch
  else
    set_pixels ← pixels raster options ch;
    let renderedBitmap :=
      tabulate (Z.to_nat (height options)) (Z.to_nat (width options)) set_pixels in
    finalBitmap ← final_bitmap options ch renderedBitmap;
    (* the encoding loop is that of bitmapToBytes, written out in place *)
    let msbTopBytes := bitmapToBytes finalBitmap (height options) in
    Ok {| char := ch; ascii := None; codePoint := codePointAt0 ch;
          bitmap := finalBitmap; bytes := msbTopBytes |}.

(** The font generator, generateChars. *)
Definition generateChars (raster : rasterizer) (options : FontGeneratorOptions)
    (characters : list jsstring) : result (list GeneratedChar) :=
  let glyphRenderWidth := width options in
  if glyphRenderWidth <=? 0 then
    let totalWidth := if dynamicWidth options then 0 else charSpacing options in
    if totalWidth <=? 0 then
      array_map
        (fun ch =>
           emptyBitmap ← array_from (height options) (fun _ => Ok []);
           Ok {| char := ch; ascii := None; codePoint := codePointAt0 ch;
                 bitmap := emptyBitmap; bytes := [] |})
        characters
    else
      finalBitmap ← array_from (height options)
                      (fun _ => new_array_fill totalWidth false);
      finalBytes ← new_array_fill totalWidth 0;
      Ok (fmap (fun ch => {| char := ch; ascii := None; codePoint := codePointAt0 ch;
                            bitmap := finalBitmap; bytes := finalBytes |}) characters)
  else if context raster options then
    for_each characters
      (fun ch generatedChars =>
         g ← generate_char raster options ch; Ok (generatedChars ++ [g]))
      []
  else Err NoCanvasContext.

(** All-false glyph data of a given size. *)
Definition blank_bitmap (h w : Z) : matrix :=
  replicate (Z.to_nat h) (replicate (Z.to_nat w) false).

Definition zero_bytes (w : Z) : list Z := replicate (Z.to_nat w) 0.

(** ** Shapes and derived notions used by the statements *)

(** A matrix with [h] rows of [w] columns each. *)
Definition rectangular (h w : nat) (m : matrix) : Prop :=
  length m = h /\ Forall (fun row => length row = w) m.

Definition all_false (m : matrix) : Prop :=
  Forall (fun row => Forall (fun pixel => pixel = false) row) m.

(** The packed value of column [c]: row 0 weighs [2 ^ (h - 1)]. *)
Fixpoint column_sum (m : matrix) (h : Z) (c : nat) (rows : nat) : Z :=
  match rows with
  | O => 0
  | S r => column_sum m h c r + (if cell m r c then 2 ^ (h - 1 - Z.of_nat r) else 0)
  end.

(** No bit is set at position [h] or above. *)
Definition fits_height (h : Z) (byte : Z) : Prop :=
  forall k, h <= k -> Z.testbit byte k = false.

(** The two invariants of a glyph record of height [h]: as many bytes as
    the bitmap has columns, and no bit at position [h] or above. *)
Definition glyph_ok (h : Z) (g : GeneratedChar) : Prop :=
  length (bytes g) = first_row_length (bitmap g)
  /\ Forall (fits_height h) (bytes g).

(** The same with the whole shape of the bitmap: [h] rows, each as long as
    the byte sequence. *)
Definition glyph_wf (h : Z) (g : GeneratedChar) : Prop :=
  rectangular (Z.to_nat h) (length (bytes g)) (bitmap g)
  /\ Forall (fits_height h) (bytes g).

(** The record and the running maximum convertToDynamic computes for a
    glyph, when it computes them. *)
Definition dynamic_form (originalWidth : Z) (maxWidth : Z) (charData : GeneratedChar)
    : GeneratedChar * Z :=
  if jsstring_eqb (char charData) SPACE then
    let spaceWidth := Z.max 1 (originalWidth / 2) in
    (with_glyph charData
       (replicate (length (bitmap charData)) (replicate (Z.to_nat spaceWidth) false))
       (replicate (Z.to_nat spaceWidth) 0),
     if maxWidth <? spaceWidth then spaceWidth else maxWidth)
  else
    let height := length (bitmap charData) in
    let (minX, maxX) :=
      scan_columns (bitmap charData) height (row_length (bitmap charData))
        (Z.of_nat (first_row_length (bitmap charData))) in
    if maxX =? -1 then
      (with_glyph charData (replicate height []) [], maxWidth)
    else
      let newWidth := maxX - minX + 1 in
      (with_glyph charData
         (fmap (fun row => js_slice row minX (maxX + 1)) (bitmap charData))
         (js_slice (bytes charData) minX (maxX + 1)),
       if maxWidth <? newWidth then newWidth else maxWidth).

(** The record convertToFixed computes for a glyph, when it computes it. *)
Definition fixed_form (newWidth : Z) (charData : GeneratedChar) : GeneratedChar :=
  let currentWidth := Z.of_nat (length (bytes charData)) in
  if currentWidth =? newWidth then charData
  else if newWidth <? currentWidth then
    with_glyph charData
      (fmap (fun row => js_slice row 0 newWidth) (bitmap charData))
      (js_slice (bytes charData) 0 newWidth)
  else
    let paddingCols := Z.to_nat (newWidth - currentWidth) in
    with_glyph charData
      (fmap (fun row => row ++ replicate paddingCols false) (bitmap charData))
      (bytes charData ++ replicate paddingCols 0).

(** The pixel that bytesToBitmap reads off column byte [c] for row [r]. *)
Definition decoded (bytes : list Z) (height : Z) (r c : nat) : bool :=
  bit_set (or_default (bytes !! c) 0) (height - 1 - Z.of_nat r).

(** The state of the encoding loop of column [c] after [j] rows. *)
Definition encode_prefix (bitmap : matrix) (height : Z) (c j : nat) : Z :=
  fold_left
    (fun byte r =>
       if cell bitmap r c then js_or byte (js_shl 1 (height - 1 - Z.of_nat r))
       else byte)
    (seq 0 j) 0.

(** The bounds test of the dynamic import at character [i]. *)
Definition slice_exceeds (dataBytes widths offsets : list Z) (i : nat) : bool :=
  match widths !! i, offsets !! i with
  | Some width, Some offset => Z.of_nat (length dataBytes) <? offset + width
  | _, _ => false
  end.

Definition import_AB_mismatch : ImportOptions :=
  {| rawData := lit "{0x80, 0x40}"; rawWidths := lit "{1}"; rawOffsets := lit "{0}";
     characterSet := lit "AB"; charHeight := 8; charWidth := 0; isDynamic := true |}.

Definition import_out_of_bounds : ImportOptions :=
  {| rawData := lit "{0x80, 0x40}"; rawWidths := lit "{1, 2}";
     rawOffsets := lit "{0, 1}";
     characterSet := lit "AB"; charHeight := 8; charWidth := 0; isDynamic := true |}.

(** The record of an all-false glyph of [w] columns for character [ch], as
    the generator emits it. *)
Definition blank_glyph (ch : jsstring) (h w : Z) : GeneratedChar :=
  {| char := ch; ascii := None; codePoint := codePointAt0 ch;
     bitmap := blank_bitmap h w; bytes := zero_bytes w |}.

(** [ch] is made of white space only and is not the space character. *)
Definition blank_not_space (ch : jsstring) : bool :=
  trims_to_empty ch && negb (jsstring_eqb ch SPACE).

Definition NEWLINE : jsstring := [10].

(** A canvas that works and sets every pixel. *)
Definition solid : rasterizer :=
  {| context := fun _ => true; pixels := fun _ _ => Ok (fun _ _ => true) |}.

Definition options_3x2 (w spacing : Z) (dynamic : bool) : FontGeneratorOptions :=
  {| fontFamily := lit "monospace"; fontWeight := Normal; width := w; height := 2;
     charSpacing := spacing; fontCharacterSet := lit "A"; fontSizeAdjustment := 0;
     renderMode := Aliased; renderThreshold := 128; autoAlign := AlignBottom;
     xOffset := 0; yOffset := 0; dynamicWidth := dynamic |}.

(** Row [r] exists and contains a set pixel. *)
Definition has_pixel_at (bitmap : matrix) (r : nat) : bool :=
  match bitmap !! r with Some row => row_has_pixel row | None => false end.

Definition first_set_row (bitmap : matrix) (f : nat) : Prop :=
  has_pixel_at bitmap f = true /\ forall r, (r < f)%nat -> has_pixel_at bitmap r = false.

Definition last_set_row (bitmap : matrix) (l : nat) : Prop :=
  has_pixel_at bitmap l = true /\ forall r, (l < r)%nat -> has_pixel_at bitmap r = false.

(** The state of the row scan of alignBitmap after [j] rows. *)
Definition scan_rows_prefix (bitmap : matrix) (j : nat) : Z * Z :=
  fold_left
    (fun (st : Z * Z) r =>
       let (firstRowWithPixel, lastRowWithPixel) := st in
       match bitmap !! r with
       | Some row =>
           if row_has_pixel row then
             (if firstRowWithPixel =? -1 then Z.of_nat r else firstRowWithPixel,
              Z.of_nat r)
           else st
       | None => st
       end)
    (seq 0 j) (-1, -1).

Definition glyph_T : matrix :=
  [[false; false; false]; [true; true; true]; [false; true; false]; [false; false; false]].

(** The pixels visited by the column scan, in order. *)
Definition scan_positions (h : nat) (bound : nat -> nat) : list (nat * nat) :=
  mjoin ((fun y => pair y <$> seq 0 (bound y)) <$> seq 0 h).

(** What the column scan knows after visiting [vis], started at [(minX0, -1)]. *)
Definition scan_inv (bitmap : matrix) (minX0 : Z) (vis : list (nat * nat)) (st : Z * Z)
    : Prop :=
  let (minX, maxX) := st in
  (forall y x, (y, x) ∈ vis -> cell bitmap y x = true ->
     minX <= Z.of_nat x <= maxX)
  /\ ((maxX = -1 /\ minX = minX0)
      \/ ((exists y x, (y, x) ∈ vis /\ cell bitmap y x = true /\ maxX = Z.of_nat x)
          /\ (minX = minX0
              \/ exists y x, (y, x) ∈ vis /\ cell bitmap y x = true /\ minX = Z.of_nat x))).

(** The glyphs on which the fixed-dynamic-fixed round trip is the identity:
    blank ones, and those other than the space with a set pixel in column 0. *)
Definition left_aligned (g : GeneratedChar) : Prop :=
  (forall y x, cell (bitmap g) y x = false)
  \/ (char g <> SPACE /\ exists y, cell (bitmap g) y 0%nat = true).

Definition glyph_indented : GeneratedChar :=
  {| char := lit "A"; ascii := Some 65; codePoint := None;
     bitmap := [[false; true]]; bytes := [0; 1] |}.

Definition glyph_L : GeneratedChar :=
  {| char := lit "L"; ascii := Some 76; codePoint := None;
     bitmap := [[true; false; false]; [true; true; false]]; bytes := [3; 1; 0] |}.

(** The fixed-mode example of the specification. *)
Definition import_fixed_AB : ImportOptions :=
  {| rawData := lit "{0x80, 0x40, 0x01, 0x02}"; rawWidths := []; rawOffsets := [];
     characterSet := lit "AB"; charHeight := 8; charWidth := 2; isDynamic := false |}.

(** A one-row font whose only data byte has bits above row 0. *)
Definition import_high_bits : ImportOptions :=
  {| rawData := lit "{0xFF}"; rawWidths := []; rawOffsets := [];
     characterSet := lit "A"; charHeight := 1; charWidth := 1; isDynamic := false |}.

(** A number read from a text that is a finite double. *)
Definition finite_number (v : Z) : Prop := - 2 ^ 1024 < v < 2 ^ 1024.

(** A width table whose first entry is negative and whose second entry
    reaches past the end of the data. *)
Definition import_negative_width : ImportOptions :=
  {| rawData := lit "{0x80}"; rawWidths := lit "{-1, 5}"; rawOffsets := lit "{0, 0}";
     characterSet := lit "AB"; charHeight := 8; charWidth := 0; isDynamic := true |}.


(** ** Undo and redo (App.tsx, useHistory)

    The hook keeps the list of the states that were set and the position of
    the current one; the three callbacks are the transitions of that pair. *)

Module UseHistory.

Record t (T : Type) : Type := mk {
  history : list T;
  index : nat
}.
Arguments mk {T} history index.
Arguments history {T} _.
Arguments index {T} _.

(** [useState([initialState])], [useState(0)] *)
Definition init {T : Type} (initialState : T) : t T :=
  {| history := [initialState]; index := 0 |}.

Definition set {T : Type} (value : T) (h : t T) : t T :=
  let newHistory := js_slice (history h) 0 (Z.of_nat (index h) + 1) ++ [value] in
  {| history := newHistory;
     index := Z.to_nat (Z.of_nat (length newHistory) - 1) |}.

Definition undo {T : Type} (h : t T) : t T :=
  if (0 <? index h)%nat then {| history := history h; index := index h - 1 |}
  else h.

Definition redo {T : Type} (h : t T) : t T :=
  if Z.of_nat (index h) <? Z.of_nat (length (history h)) - 1
  then {| history := history h; index := index h + 1 |}
  else h.

(** [history[index]] *)
Definition state {T : Type} (h : t T) : option T := history h !! index h.

Definition canUndo {T : Type} (h : t T) : bool := (0 <? index h)%nat.

Definition canRedo {T : Type} (h : t T) : bool :=
  Z.of_nat (index h) <? Z.of_nat (length (history h)) - 1.

(** The calls a user of the hook can make. *)
Inductive call (T : Type) : Type :=
  | CallSet (value : T)
  | CallUndo
  | CallRedo.
Arguments CallSet {T} value.
Arguments CallUndo {T}.
Arguments CallRedo {T}.

Definition step {T : Type} (h : t T) (c : call T) : t T :=
  match c with
  | CallSet value => set value h
  | CallUndo => undo h
  | CallRedo => redo h
  end.

Definition run {T : Type} (calls : list (call T)) (h : t T) : t T :=
  fold_left step calls h.

End UseHistory.

(** ** The glyph editor (components/CharEditorModal.tsx) *)

Inductive shift_direction : Type := ShiftUp | ShiftDown | ShiftLeft | ShiftRight.

(** handleWidthChange, the state update it passes to setBitmap; the new
    columns are built for each row anew. *)
Definition handleWidthChange (delta : Z) (prevBitmap : matrix) : result matrix :=
  let currentWidth := Z.of_nat (first_row_length prevBitmap) in
  let newWidth := Z.max 0 (currentWidth + delta) in
  if newWidth =? currentWidth then Ok prevBitmap
  else
    array_map
      (fun row =>
         if 0 <? delta then
           columns ← new_array_fill delta false; Ok (row ++ columns)
         else Ok (js_slice row 0 newWidth))
      prevBitmap.

(** The bitmap handleWidthChange returns, when it returns. *)
Definition width_form (delta : Z) (prevBitmap : matrix) : matrix :=
  let currentWidth := Z.of_nat (first_row_length prevBitmap) in
  let newWidth := Z.max 0 (currentWidth + delta) in
  if newWidth =? currentWidth then prevBitmap
  else
    (fun row =>
       if 0 <? delta then row ++ replicate (Z.to_nat delta) false
       else js_slice row 0 newWidth) <$> prevBitmap.

(** handlePixelToggle: the bitmap is replaced when the pixel exists only. *)
Definition handlePixelToggle (x y : nat) (bitmap : matrix) : matrix :=
  match bitmap !! y with
  | Some row =>
      match row !! x with
      | Some pixel => <[y := <[x := negb pixel]> row]> bitmap
      | None => bitmap
      end
  | None => bitmap
  end.

(** [a.pop()] on the array, the popped element dropped. *)
Definition pop {A : Type} (l : list A) : list A := take (length l - 1) l.

(** handleShift, the state update it passes to setBitmap. *)
Definition handleShift (dir : shift_direction) (prevBitmap : matrix) : matrix :=
  let currentHeight := length prevBitmap in
  if (currentHeight =? 0)%nat then prevBitmap
  else
    let currentWidth := first_row_length prevBitmap in
    let sideways :=
      match dir with ShiftLeft | ShiftRight => true | _ => false end in
    if (currentWidth =? 0)%nat && sideways then prevBitmap
    else
      match dir with
      | ShiftUp => drop 1 prevBitmap ++ [replicate currentWidth false]
      | ShiftDown => replicate currentWidth false :: pop prevBitmap
      | ShiftLeft => (fun row => drop 1 row ++ [false]) <$> prevBitmap
      | ShiftRight => (fun row => pop (false :: row)) <$> prevBitmap
      end.

(** ** Editing the font (App.tsx) *)

(** handleCharUpdate on the font (not the preview): the glyph at [charIndex]
    takes the edited bitmap and the bytes encoded from it; the encoding loop
    is that of bitmapToBytes with [options.height]. *)
Definition handleCharUpdate (height : Z) (fontData : list GeneratedChar)
    (charIndex : nat) (newBitmap : matrix) : list GeneratedChar :=
  imap
    (fun index ch =>
       if (index =? charIndex)%nat
       then with_glyph ch newBitmap (bitmapToBytes newBitmap height)
       else ch)
    fontData.

(** [l.filter((x, index) => keep x index)] *)
Fixpoint filter_from {A : Type} (i : nat) (keep : A -> nat -> bool) (l : list A)
    : list A :=
  match l with
  | [] => []
  | a :: rest =>
      if keep a i then a :: filter_from (S i) keep rest
      else filter_from (S i) keep rest
  end.

(** handleCharDelete *)
Definition handleCharDelete (fontData : list GeneratedChar) (indexToDelete : nat)
    : list GeneratedChar :=
  filter_from 0 (fun _ index => negb (index =? indexToDelete)%nat) fontData.

(** ** The tables of the dynamic-width export (components/CodeOutput.tsx) *)

Record export_tables : Type := mkTables {
  widths : list Z;
  offsets : list Z;
  font_data : list Z;
  currentOffset : Z
}.

(** The [fontData.forEach] of generateCode that fills [widths], [offsets]
    and [font_data]. *)
Definition exportTables (fontData : list GeneratedChar) : export_tables :=
  fold_left
    (fun (st : export_tables) charData =>
       let charWidth := Z.of_nat (length (bytes charData)) in
       {| widths := widths st ++ [charWidth];
          offsets := offsets st ++ [currentOffset st];
          font_data := font_data st ++ bytes charData;
          currentOffset := currentOffset st + charWidth |})
    fontData
    {| widths := []; offsets := []; font_data := []; currentOffset := 0 |}.

(** ** Escaping for display (components/CodeOutput.tsx) *)

(** [s.replace(/u/g, by)] for a one-unit pattern. *)
Definition replace_unit (u : Z) (by_ : jsstring) (s : jsstring) : jsstring :=
  mjoin ((fun c => if c =? u then by_ else [c]) <$> s).

(** escapeHtml *)
Definition escapeHtml (unsafe : jsstring) : jsstring :=
  replace_unit 39 (lit "&#039;")
    (replace_unit 34 (lit "&quot;")
       (replace_unit 62 (lit "&gt;")
          (replace_unit 60 (lit "&lt;")
             (replace_unit 38 (lit "&amp;") unsafe)))).

(** ** From canvas pixels to a bitmap (the font generator service) *)

(** The fields of an ImageData the code reads; [data] holds four bytes per
    pixel, the alpha byte last. *)
Record ImageData : Type := mkImageData {
  image_width : Z;
  image_height : Z;
  image_data : list Z
}.

(** [data[alphaIndex] > threshold]: an absent sample compares false. *)
Definition alpha_above (data : list Z) (width : Z) (threshold : Z) (y x : nat) : bool :=
  let alphaIndex := (Z.of_nat y * width + Z.of_nat x) * 4 + 3 in
  if alphaIndex <? 0 then false
  else
    match data !! Z.to_nat alphaIndex with
    | Some alpha => threshold <? alpha
    | None => false
    end.

(** imageDataToBitmap *)
Definition imageDataToBitmap (imageData : ImageData) (threshold : Z) : result matrix :=
  let width := image_width imageData in
  let height := image_height imageData in
  let data := image_data imageData in
  bitmap ← array_from height (fun _ => new_array_fill width false);
  for_loop (Z.to_nat height)
    (fun y bitmap =>
       for_loop (Z.to_nat width)
         (fun x bitmap =>
            if alpha_above data width threshold y x then set_cell y x true bitmap
            else Ok bitmap)
         bitmap)
    bitmap.

(** The running offsets of the export, started at [start]. *)
Fixpoint offsets_from (start : Z) (fontData : list GeneratedChar) : list Z :=
  match fontData with
  | [] => []
  | g :: rest => start :: offsets_from (start + Z.of_nat (length (bytes g))) rest
  end.

(** The record the importer builds from the character and the bytes of [g]. *)
Definition reimported (h : Z) (g : GeneratedChar) : GeneratedChar :=
  {| char := char g; ascii := charCodeAt (char g) 0; codePoint := None;
     bitmap := tabulate (Z.to_nat h) (length (bytes g)) (decoded (bytes g) h);
     bytes := bytes g |}.

(** The bytes of [g] are the encoding of its bitmap of [h] rows. *)
Definition encoded_glyph (h : Z) (g : GeneratedChar) : Prop :=
  rectangular (Z.to_nat h) (length (bytes g)) (bitmap g)
  /\ bytes g = bitmapToBytes (bitmap g) h.

Definition glyph_A : GeneratedChar :=
  {| char := lit "A"; ascii := Some 65; codePoint := Some 65;
     bitmap := [[true; false]; [true; true]]; bytes := [3; 1] |}.

Definition glyph_B : GeneratedChar :=
  {| char := lit "B"; ascii := Some 66; codePoint := Some 66;
     bitmap := [[true]; [false]]; bytes := [2] |}.

(** The tables of [glyph_A; glyph_B] as a C export writes them. *)
Definition import_exported_AB : ImportOptions :=
  {| rawData := lit "const unsigned char f_data[] = { 0x03, 0x01, 0x02 };";
     rawWidths := lit "const unsigned char f_widths[] = { 2, 1 };";
     rawOffsets := lit "const unsigned int f_offsets[] = { 0, 2 };";
     characterSet := lit "AB"; charHeight := 2; charWidth := 0; isDynamic := true |}.
(** The record the fixed branch of the importer builds for the character
    [ch] at index [i]: the [i]-th run of [w] data bytes and its decoding. *)
Definition fixed_glyph (dataBytes : list Z) (w h : Z) (i : nat) (ch : jsstring)
    : GeneratedChar :=
  let bytes := take (Z.to_nat w) (drop (i * Z.to_nat w) dataBytes) in
  {| char := ch; ascii := charCodeAt ch 0; codePoint := None;
     bitmap := tabulate (Z.to_nat h) (Z.to_nat w) (decoded bytes h);
     bytes := bytes |}.

(** The options a fixed-width import reports. *)
Definition fixed_options (options : ImportOptions) : ImportedOptions :=
  {| io_width := charWidth options; io_height := charHeight options;
     io_characterSet := characterSet options; io_dynamicWidth := false;
     io_charSpacing := 0 |}.
(** ** Character-set edits (the application component) *)

(** [String.fromCharCode(i)]: the code unit [i] modulo 2^16. *)
Definition fromCharCode (i : Z) : Z := i mod 65536.

(** [for (let i = lo; i <= hi; i++) chars.push(String.fromCharCode(i))],
    joined. *)
Definition char_range (lo hi : Z) : jsstring :=
  fromCharCode <$> seqZ lo (hi - lo + 1).

(** [[...new Set((characterSet + extra).split(''))].join('')] *)
Definition append_unique (characterSet extra : jsstring) : jsstring :=
  mjoin (unique_chars (characterSet ++ extra)).

(** handleAppendLatin1: the new character set. *)
Definition handleAppendLatin1 (characterSet : jsstring) : jsstring :=
  append_unique characterSet (char_range 160 255).

(** handleAppendCyrillic: the new character set. *)
Definition handleAppendCyrillic (characterSet : jsstring) : jsstring :=
  append_unique characterSet
    (char_range 1040 1071 ++ char_range 1072 1103
       ++ [fromCharCode 1025; fromCharCode 1105]).

(** The four messages handleAddCustomRange can set. *)
Inductive range_error : Type :=
  | InvalidHexCodes
  | StartAfterEnd
  | RangeTooLarge
  | CodesOutOfRange.

(** handleAddCustomRange: the message set, or the new character set. *)
Definition handleAddCustomRange (rangeStart rangeEnd : jsstring)
    (characterSet : jsstring) : range_error + jsstring :=
  match parseInt16 rangeStart, parseInt16 rangeEnd with
  | Some start, Some end_ =>
      if end_ <? start then inl StartAfterEnd
      else if 1000 <? end_ - start then inl RangeTooLarge
      else if (start <? 0) || (65535 <? end_) then inl CodesOutOfRange
      else inr (append_unique characterSet (char_range start end_))
  | _, _ => inl InvalidHexCodes
  end.

(** ** The last step of the import dialog (components/ImportFontModal.tsx) *)

(** The two choices of the dialog, [conversionMode] and [verticalAlign]. *)
Inductive conversion_mode : Type := KeepFormat | ConvertFormat.
Inductive vertical_align : Type := KeepRows | AlignRows (dir : direction).

(** The options handed to onImport: those the importer recovered and, after a
    conversion, [autoAlign]. *)
Record FinalOptions : Type := mkFinalOptions {
  imported : ImportedOptions;
  final_autoAlign : option AutoAlign
}.

Record FinalFontData : Type := mkFinal {
  final_fontData : list GeneratedChar;
  final_fontOptions : FinalOptions
}.

(** What a call of handleFinalImport does: nothing without parsed data, a
    call of onImport, or a call of setError for the error caught. *)
Inductive import_outcome : Type :=
  | NoImport
  | OnImport (finalData : FinalFontData)
  | SetError (e : error).

(** Step 1 of handleFinalImport, the conversion.  [width || 0] is [width]. *)
Definition convert_format (parsedData : ParsedFontData)
    (conversionMode : conversion_mode) (newFixedWidth : Z)
    : result (list GeneratedChar * FinalOptions) :=
  let options := fontOptions parsedData in
  match conversionMode with
  | ConvertFormat =>
      if io_dynamicWidth options then
        tempFontData ← convertToFixed (fontData parsedData) newFixedWidth;
        Ok (tempFontData,
            {| imported :=
                 {| io_width := newFixedWidth; io_height := io_height options;
                    io_characterSet := io_characterSet options;
                    io_dynamicWidth := false; io_charSpacing := 1 |};
               final_autoAlign := Some AlignBottom |})
      else
        '(newData, maxWidth) ← convertToDynamic (fontData parsedData) (io_width options);
        Ok (newData,
            {| imported :=
                 {| io_width := maxWidth; io_height := io_height options;
                    io_characterSet := io_characterSet options;
                    io_dynamicWidth := true; io_charSpacing := 0 |};
               final_autoAlign := Some AlignBottom |})
  | KeepFormat =>
      Ok (fontData parsedData, {| imported := options; final_autoAlign := None |})
  end.

(** handleFinalImport; [height] is the height field of the dialog, used when
    the parsed options have height 0. *)
Definition handleFinalImport (parsedData : option ParsedFontData)
    (conversionMode : conversion_mode) (verticalAlign : vertical_align)
    (newFixedWidth height : Z) : import_outcome :=
  match parsedData with
  | None => NoImport
  | Some parsedData =>
      match convert_format parsedData conversionMode newFixedWidth with
      | Err e => SetError e
      | Ok (tempFontData, tempFontOptions) =>
          let alignedHeight :=
            if io_height (imported tempFontOptions) =? 0 then height
            else io_height (imported tempFontOptions) in
          let tempFontData :=
            match verticalAlign with
            | KeepRows => tempFontData
            | AlignRows dir => realign alignedHeight dir <$> tempFontData
            end in
          OnImport {| final_fontData := tempFontData;
                      final_fontOptions := tempFontOptions |}
      end
  end.

(** A parsed dynamic-width font of height 2. *)
Definition parsed_AB : ParsedFontData :=
  {| fontData := [glyph_A; glyph_B];
     fontOptions := {| io_width := 2; io_height := 2; io_characterSet := lit "AB";
                       io_dynamicWidth := true; io_charSpacing := 0 |} |}.

(** * Properties *)

(** ** Loops *)

Lemma bind_ok {A B} (m : result A) (f : A -> result B) a :
  m = Ok a -> (m ≫= f) = f a.
Proof. intros ->. reflexivity. Qed.

(** Invariant rule for a counted loop whose body does not throw under the
    invariant. *)
Lemma for_from_inv {St : Type} (P : nat -> St -> Prop) body n : forall i (s : St),
  P i s ->
  (forall j t, (i <= j < i + n)%nat -> P j t ->
     exists t', body j t = Ok t' /\ P (S j) t') ->
  exists s', for_from i n body s = Ok s' /\ P (i + n)%nat s'.
Proof.
  induction n as [|n IH]; intros i s Hs Hstep; simpl.
  - exists s. rewrite Nat.add_0_r. auto.
  - destruct (Hstep i s) as (t & Hb & Ht); [lia | assumption |].
    rewrite (bind_ok _ _ _ Hb).
    destruct (IH (S i) t Ht) as (s' & Hf & Hs').
    + intros j u Hj Hu. apply Hstep; [lia | assumption].
    + exists s'. split; [assumption |].
      replace (i + S n)%nat with (S i + n)%nat by lia. assumption.
Qed.

Lemma for_loop_inv {St : Type} (P : nat -> St -> Prop) body n (s : St) :
  P 0%nat s ->
  (forall j t, (j < n)%nat -> P j t ->
     exists t', body j t = Ok t' /\ P (S j) t') ->
  exists s', for_loop n body s = Ok s' /\ P n s'.
Proof.
  intros H0 Hstep. unfold for_loop.
  destruct (for_from_inv P body n 0%nat s H0) as (s' & Hf & Hs').
  - intros j t Hj. apply Hstep. lia.
  - exists s'. auto.
Qed.

Lemma array_from_aux_ok {A : Type} (f : nat -> result A) (a : A) n : forall i,
  (forall j, f j = Ok a) -> array_from_aux f i n = Ok (replicate n a).
Proof.
  induction n as [|n IH]; intros i Hf; simpl; [reflexivity |].
  rewrite Hf. simpl. rewrite (IH _ Hf). reflexivity.
Qed.

Lemma array_from_ok {A : Type} (f : nat -> result A) (a : A) n :
  n < 2 ^ 32 -> (forall j, f j = Ok a) ->
  array_from n f = Ok (replicate (Z.to_nat n) a).
Proof.
  intros Hn Hf. unfold array_from. destruct (Z.leb_spec (2 ^ 32) n); [lia |].
  apply array_from_aux_ok, Hf.
Qed.

Lemma array_from_nonpos {A : Type} (f : nat -> result A) n :
  n <= 0 -> array_from n f = Ok [].
Proof.
  intros H. unfold array_from. destruct (Z.leb_spec (2 ^ 32) n); [lia |].
  replace (Z.to_nat n) with 0%nat by lia. reflexivity.
Qed.

Lemma array_from_huge {A : Type} (f : nat -> result A) n :
  2 ^ 32 <= n -> array_from n f = Err RangeError.
Proof.
  intros H. unfold array_from. destruct (Z.leb_spec (2 ^ 32) n); [reflexivity | lia].
Qed.

Lemma new_array_fill_ok {A : Type} n (v : A) :
  0 <= n < 2 ^ 32 -> new_array_fill n v = Ok (replicate (Z.to_nat n) v).
Proof.
  intros H. unfold new_array_fill.
  destruct (Z.ltb_spec n 0); [lia |]. destruct (Z.leb_spec (2 ^ 32) n); [lia |].
  reflexivity.
Qed.

Lemma new_array_fill_err {A : Type} n (v : A) :
  n < 0 \/ 2 ^ 32 <= n -> new_array_fill n v = Err RangeError.
Proof.
  intros H. unfold new_array_fill.
  destruct (Z.ltb_spec n 0); [reflexivity |].
  destruct (Z.leb_spec (2 ^ 32) n); [reflexivity | lia].
Qed.

(** [new Array(n).fill(v)] either throws the RangeError or gives [n] copies. *)
Lemma new_array_fill_inv {A : Type} n (v : A) l :
  new_array_fill n v = Ok l -> 0 <= n < 2 ^ 32 /\ l = replicate (Z.to_nat n) v.
Proof.
  unfold new_array_fill. destruct (Z.ltb_spec n 0); [discriminate |].
  destruct (Z.leb_spec (2 ^ 32) n); [discriminate |].
  intros Hl. injection Hl as <-. split; [lia | reflexivity].
Qed.

Lemma array_map_ok {A B : Type} (f : A -> result B) (b : B) (l : list A) :
  (forall a, f a = Ok b) -> array_map f l = Ok (replicate (length l) b).
Proof.
  intros Hf. induction l as [|a l IH]; simpl; [reflexivity |].
  rewrite Hf. simpl. rewrite IH. reflexivity.
Qed.

(** ** Matrices *)

Lemma tabulate_length h w f : length (tabulate h w f) = h.
Proof. unfold tabulate. rewrite length_fmap, length_seq. reflexivity. Qed.

Lemma tabulate_lookup h w f r :
  (r < h)%nat -> tabulate h w f !! r = Some (f r <$> seq 0 w).
Proof.
  intros H. unfold tabulate. rewrite list_lookup_fmap, lookup_seq_lt by assumption.
  reflexivity.
Qed.

Lemma tabulate_lookup_ge h w f r : (h <= r)%nat -> tabulate h w f !! r = None.
Proof. intros H. apply lookup_ge_None. rewrite tabulate_length. assumption. Qed.

Lemma tabulate_rectangular h w f : rectangular h w (tabulate h w f).
Proof.
  split; [apply tabulate_length |].
  unfold tabulate. apply Forall_fmap, Forall_forall. intros r _. simpl.
  rewrite length_fmap, length_seq. reflexivity.
Qed.

Lemma tabulate_cell h w f r c :
  (r < h)%nat -> (c < w)%nat -> cell (tabulate h w f) r c = f r c.
Proof.
  intros Hr Hc. unfold cell. rewrite tabulate_lookup by assumption.
  rewrite list_lookup_fmap, lookup_seq_lt by assumption. reflexivity.
Qed.

Lemma tabulate_ext h w f g :
  (forall r c, (r < h)%nat -> (c < w)%nat -> f r c = g r c) ->
  tabulate h w f = tabulate h w g.
Proof.
  intros H. unfold tabulate. apply list_fmap_ext. intros i r Hi.
  apply lookup_seq in Hi as [-> Hr]. apply list_fmap_ext. intros j c Hj.
  apply lookup_seq in Hj as [-> Hc]. apply H; assumption.
Qed.

Lemma rectangular_tabulate h w m : rectangular h w m -> m = tabulate h w (cell m).
Proof.
  intros [Hlen Hrows]. apply list_eq. intros r.
  destruct (decide (r < h)%nat) as [Hr|Hr].
  - rewrite tabulate_lookup by assumption.
    destruct (lookup_lt_is_Some_2 m r) as [row Hrow]; [lia |].
    rewrite Hrow. f_equal.
    assert (Hw : length row = w).
    { rewrite Forall_forall in Hrows. apply Hrows. eapply list_elem_of_lookup_2, Hrow. }
    apply list_eq. intros c. rewrite list_lookup_fmap.
    destruct (decide (c < w)%nat) as [Hc|Hc].
    + rewrite lookup_seq_lt by assumption. simpl. unfold cell. rewrite Hrow.
      destruct (lookup_lt_is_Some_2 row c) as [b Hb]; [lia |]. rewrite Hb. reflexivity.
    + rewrite lookup_seq_ge by lia. apply lookup_ge_None. lia.
  - rewrite tabulate_lookup_ge by lia. apply lookup_ge_None. lia.
Qed.

Lemma first_row_length_rect h w m :
  rectangular h w m -> (0 < h)%nat -> first_row_length m = w.
Proof.
  intros [Hlen Hrows] Hh. unfold first_row_length.
  destruct m as [|row m]; simpl in *; [lia |].
  inversion Hrows; subst. reflexivity.
Qed.

Lemma set_cell_tabulate h w f r c v :
  (r < h)%nat -> (c < w)%nat ->
  set_cell r c v (tabulate h w f)
  = Ok (tabulate h w (fun r' c' => if (r' =? r)%nat && (c' =? c)%nat then v else f r' c')).
Proof.
  intros Hr Hc. unfold set_cell. rewrite tabulate_lookup by assumption. f_equal.
  apply list_eq. intros r'.
  destruct (decide (r' < h)%nat) as [Hr'|Hr'].
  - rewrite (tabulate_lookup _ _ _ r') by assumption.
    destruct (decide (r' = r)) as [->|Hne].
    + rewrite list_lookup_insert_eq by (rewrite tabulate_length; assumption).
      f_equal. unfold row_set. rewrite length_fmap, length_seq.
      destruct (Nat.ltb_spec c w); [|lia].
      apply list_eq. intros c'. rewrite !list_lookup_fmap.
      destruct (decide (c' = c)) as [->|Hc'].
      * rewrite list_lookup_insert_eq by (rewrite length_fmap, length_seq; assumption).
        rewrite lookup_seq_lt by assumption. simpl. rewrite !Nat.eqb_refl. reflexivity.
      * rewrite list_lookup_insert_ne by congruence. rewrite list_lookup_fmap.
        destruct (seq 0 w !! c') as [x|] eqn:Hx; simpl; [|reflexivity].
        apply lookup_seq in Hx as [-> _]. simpl.
        rewrite Nat.eqb_refl. destruct (Nat.eqb_spec c' c); [congruence | reflexivity].
    + rewrite list_lookup_insert_ne by congruence.
      rewrite tabulate_lookup by assumption. f_equal.
      apply list_fmap_ext. intros j c' Hj.
      destruct (Nat.eqb_spec r' r); [congruence | reflexivity].
  - rewrite tabulate_lookup_ge by lia. apply lookup_ge_None.
    rewrite length_insert, tabulate_length. lia.
Qed.

Lemma replicate_tabulate h w : replicate h (replicate w false) = tabulate h w (fun _ _ => false).
Proof.
  apply list_eq. intros r. destruct (decide (r < h)%nat) as [Hr|Hr].
  - rewrite tabulate_lookup by assumption. rewrite lookup_replicate_2 by assumption.
    f_equal. apply list_eq. intros c. rewrite list_lookup_fmap.
    destruct (decide (c < w)%nat) as [Hc|Hc].
    + rewrite lookup_replicate_2, lookup_seq_lt by assumption. reflexivity.
    + rewrite lookup_seq_ge by lia. apply lookup_ge_None. rewrite length_replicate. lia.
  - rewrite tabulate_lookup_ge by lia. apply lookup_ge_None. rewrite length_replicate. lia.
Qed.

(** ** 32-bit operators *)

Lemma to_int32_range z : - 2 ^ 31 <= to_int32 z < 2 ^ 31.
Proof.
  unfold to_int32. pose proof (Z.mod_pos_bound (z + 2 ^ 31) (2 ^ 32)). lia.
Qed.

Lemma to_int32_small z : - 2 ^ 31 <= z < 2 ^ 31 -> to_int32 z = z.
Proof. intros H. unfold to_int32. rewrite Z.mod_small; lia. Qed.

Lemma js_shl_one n : 0 <= n <= 30 -> js_shl 1 n = 2 ^ n.
Proof.
  intros H. unfold js_shl. rewrite (to_int32_small 1) by lia.
  rewrite Z.mod_small by lia. rewrite Z.shiftl_1_l.
  apply to_int32_small.
  assert (2 ^ n <= 2 ^ 30) by (apply Z.pow_le_mono_r; lia).
  pose proof (Z.pow_pos_nonneg 2 n). lia.
Qed.

Lemma js_or_small a b :
  - 2 ^ 31 <= a < 2 ^ 31 -> - 2 ^ 31 <= b < 2 ^ 31 -> js_or a b = Z.lor a b.
Proof. intros Ha Hb. unfold js_or. rewrite !to_int32_small by assumption. reflexivity. Qed.

Lemma shiftr_int32_range a m : 0 <= m -> - 2 ^ 31 <= a < 2 ^ 31 -> - 2 ^ 31 <= Z.shiftr a m < 2 ^ 31.
Proof.
  intros Hm Ha. rewrite Z.shiftr_div_pow2 by assumption.
  pose proof (Z.pow_pos_nonneg 2 m ltac:(lia) Hm) as Hp.
  split.
  - apply Z.div_le_lower_bound; [lia |]. nia.
  - apply Z.div_lt_upper_bound; [lia |]. nia.
Qed.

(** The decoder's bit test reads bit [n mod 32] of the wrapped byte. *)
Lemma bit_set_testbit byte n : bit_set byte n = Z.testbit (to_int32 byte) (n mod 32).
Proof.
  unfold bit_set, js_and, js_sar.
  pose proof (Z.mod_pos_bound n 32 ltac:(lia)) as Hm.
  rewrite (to_int32_small (Z.shiftr _ _))
    by (apply shiftr_int32_range; [lia | apply to_int32_range]).
  rewrite (to_int32_small 1) by lia.
  set (m := n mod 32) in *. set (X := Z.shiftr (to_int32 byte) m).
  assert (Hbit : Z.testbit (to_int32 byte) m = Z.odd X).
  { unfold X. rewrite <- Z.bit0_odd, Z.shiftr_spec by lia. reflexivity. }
  rewrite Hbit. change 1 with (Z.ones 1). rewrite Z.land_ones by lia.
  change (2 ^ 1) with 2. rewrite Zmod_odd. destruct (Z.odd X); reflexivity.
Qed.

(** ** ByteCodec: the decoder in closed form *)

(** Splits the comparisons of indices left in the goal. *)
Ltac index_cases :=
  repeat match goal with
    | |- context [(?a <? ?b)%nat] => destruct (Nat.ltb_spec a b)
    | |- context [(?a =? ?b)%nat] => destruct (Nat.eqb_spec a b)
    end;
  simpl; try reflexivity; try lia.

Lemma decode_column_tabulate bytes height w f c :
  (c < w)%nat ->
  decode_column bytes height c (tabulate (Z.to_nat height) w f)
  = Ok (tabulate (Z.to_nat height) w
          (fun r' c' => if (c' =? c)%nat && decoded bytes height r' c then true
                        else f r' c')).
Proof.
  intros Hc. unfold decode_column.
  set (h := Z.to_nat height).
  destruct (for_loop_inv
    (fun j bm => bm = tabulate h w
       (fun r' c' => if (c' =? c)%nat && (r' <? j)%nat && decoded bytes height r' c
                     then true else f r' c'))
    (fun r bm => if bit_set (or_default (bytes !! c) 0) (height - 1 - Z.of_nat r)
                 then set_cell r c true bm else Ok bm)
    h (tabulate h w f)) as (bm & Hrun & Hbm).
  - apply tabulate_ext. intros r' c' _ _.
    rewrite andb_false_r. reflexivity.
  - intros j t Hj ->.
    fold (decoded bytes height j c).
    destruct (decoded bytes height j c) eqn:Hd.
    + rewrite set_cell_tabulate by assumption. eexists; split; [reflexivity |].
      apply tabulate_ext. intros r' c' _ _.
      destruct (Nat.eqb_spec r' j) as [->|Hne]; destruct (Nat.eqb_spec c' c) as [->|Hne'];
        simpl; rewrite ?Hd; simpl; index_cases.
    + eexists; split; [reflexivity |].
      apply tabulate_ext. intros r' c' _ _.
      destruct (Nat.eqb_spec c' c) as [->|Hne']; simpl; [|reflexivity].
      destruct (Nat.ltb_spec r' j), (Nat.ltb_spec r' (S j)); try lia; try reflexivity.
      assert (r' = j) as -> by lia. rewrite Hd. reflexivity.
  - rewrite Hrun, Hbm. f_equal. apply tabulate_ext. intros r' c' Hr' _.
    destruct (Nat.ltb_spec r' h); [|lia]. rewrite andb_true_r. reflexivity.
Qed.

Lemma bytesToBitmap_tabulate bytes width height :
  0 <= width < 2 ^ 32 -> height <= 8 ->
  bytesToBitmap bytes width height
  = Ok (tabulate (Z.to_nat height) (Z.to_nat width) (decoded bytes height)).
Proof.
  intros Hw Hh. unfold bytesToBitmap.
  rewrite (array_from_ok _ (replicate (Z.to_nat width) false))
    by (try lia; intros; apply new_array_fill_ok; assumption).
  simpl. destruct (Z.ltb_spec 8 height); [lia |].
  set (h := Z.to_nat height). set (w := Z.to_nat width).
  destruct (for_loop_inv
    (fun j bm => bm = tabulate h w (fun r c => (c <? j)%nat && decoded bytes height r c))
    (decode_column bytes height) w (replicate h (replicate w false)))
    as (bm & Hrun & Hbm).
  - rewrite replicate_tabulate. apply tabulate_ext. intros r c _ _. reflexivity.
  - intros j t Hj ->. unfold h. rewrite decode_column_tabulate by assumption.
    eexists; split; [reflexivity |]. apply tabulate_ext. intros r c _ _.
    destruct (Nat.eqb_spec c j) as [->|Hne]; simpl.
    + destruct (Nat.ltb_spec j (S j)); [|lia]. simpl.
      destruct (decoded bytes height r j); [reflexivity |].
      destruct (Nat.ltb_spec j j); [lia | reflexivity].
    + destruct (Nat.ltb_spec c j), (Nat.ltb_spec c (S j)); try lia; reflexivity.
  - rewrite Hrun, Hbm. f_equal. apply tabulate_ext. intros r c _ Hc.
    destruct (Nat.ltb_spec c w); [reflexivity | lia].
Qed.

Lemma decoded_missing bytes height r c :
  (length bytes <= c)%nat -> decoded bytes height r c = false.
Proof.
  intros H. unfold decoded. rewrite (lookup_ge_None_2 bytes c) by assumption.
  simpl. rewrite bit_set_testbit. apply Z.testbit_0_l.
Qed.

Lemma decoded_pad bytes height k r c :
  decoded (bytes ++ replicate k 0) height r c = decoded bytes height r c.
Proof.
  unfold decoded. f_equal.
  destruct (decide (c < length bytes)%nat) as [Hc|Hc].
  - rewrite lookup_app_l by assumption. reflexivity.
  - rewrite lookup_app_r by lia. rewrite (lookup_ge_None_2 bytes c) by lia.
    destruct (replicate k 0 !! (c - length bytes)%nat) as [z|] eqn:Hz; [|reflexivity].
    apply lookup_replicate in Hz as [-> _]. reflexivity.
Qed.

(** With an invalid width the first row cannot be built. *)
Lemma bytesToBitmap_bad_width bytes width height :
  1 <= height < 2 ^ 32 -> width < 0 \/ 2 ^ 32 <= width ->
  bytesToBitmap bytes width height = Err RangeError.
Proof.
  intros Hh Hw. unfold bytesToBitmap, array_from.
  destruct (Z.leb_spec (2 ^ 32) height); [lia |].
  destruct (Z.to_nat height) as [|n] eqn:E; [lia |]. cbn [array_from_aux].
  rewrite new_array_fill_err by assumption. reflexivity.
Qed.

(** C10, amended.  For heights 1 to 8, for every byte list and every width
    with 0 <= width < 2^32, bytesToBitmap returns a matrix of exactly
    [height] rows and [width] columns (no write falls outside the matrix: a
    write to a missing row would throw and a write past the end of a row
    would lengthen it), a column whose byte is missing is all false, and the
    result is the one obtained when the missing bytes are given as 0.  For a
    width that is negative or not below 2^32 it throws the RangeError of
    [new Array(width)]. *)
Theorem bytesToBitmap_total (bytes : list Z) (width height : Z) :
  1 <= height <= 8 ->
  (0 <= width < 2 ^ 32 ->
   exists m : matrix,
     bytesToBitmap bytes width height = Ok m
     /\ rectangular (Z.to_nat height) (Z.to_nat width) m
     /\ (forall r c, (length bytes <= c)%nat -> cell m r c = false)
     /\ (forall k, bytesToBitmap (bytes ++ replicate k 0) width height = Ok m))
  /\ (width < 0 \/ 2 ^ 32 <= width ->
      bytesToBitmap bytes width height = Err RangeError).
Proof.
  intros Hh. split.
  - intros Hw. eexists. split; [apply bytesToBitmap_tabulate; lia |].
    split; [apply tabulate_rectangular |]. split.
    + intros r c Hc.
      destruct (decide (r < Z.to_nat height)%nat) as [Hr|Hr];
        [destruct (decide (c < Z.to_nat width)%nat) as [Hc'|Hc'] |].
      * rewrite tabulate_cell by assumption. apply decoded_missing. assumption.
      * unfold cell. rewrite tabulate_lookup by assumption.
        rewrite (lookup_ge_None_2 _ c); [reflexivity |].
        rewrite length_fmap, length_seq. lia.
      * unfold cell. rewrite tabulate_lookup_ge by lia. reflexivity.
    + intros k. rewrite bytesToBitmap_tabulate by lia. f_equal.
      apply tabulate_ext. intros r c _ _. apply decoded_pad.
  - intros Hw. apply bytesToBitmap_bad_width; [lia | assumption].
Qed.

Lemma bytesToBitmap_total_witness :
  (exists m : matrix,
     bytesToBitmap [128; 3] 3 2 = Ok m
     /\ rectangular (Z.to_nat 2) (Z.to_nat 3) m
     /\ (forall r c, (length [128; 3] <= c)%nat -> cell m r c = false)
     /\ (forall k, bytesToBitmap ([128; 3] ++ replicate k 0) 3 2 = Ok m))
  /\ bytesToBitmap [128; 3] (-1) 2 = Err RangeError.
Proof.
  split.
  - apply (bytesToBitmap_total [128; 3] 3 2); lia.
  - apply (bytesToBitmap_total [128; 3] (-1) 2); lia.
Defined.

(** C10 as stated fails: a width of 2^32 is not negative, and the decoder
    throws the RangeError of [new Array(width)] instead of returning a
    matrix. *)
Lemma bytesToBitmap_huge_width :
  0 <= 4294967296
  /\ 1 <= 1 <= 8
  /\ bytesToBitmap [] 4294967296 1 = Err RangeError
  /\ ~ exists m : matrix, bytesToBitmap [] 4294967296 1 = Ok m.
Proof.
  assert (E : bytesToBitmap [] 4294967296 1 = Err RangeError) by reflexivity.
  split; [lia |]. split; [lia |]. split; [exact E |].
  intros [m Hm]. rewrite E in Hm. discriminate.
Qed.

(** ** ByteCodec: the encoder *)

Lemma bitmapToBytes_fmap bitmap height :
  bitmapToBytes bitmap height
  = encode_column bitmap height <$> seq 0 (first_row_length bitmap).
Proof.
  unfold bitmapToBytes.
  assert (G : forall l acc,
    fold_left (fun bytes c => bytes ++ [encode_column bitmap height c]) l acc
    = acc ++ (encode_column bitmap height <$> l)).
  { induction l as [|c l IH]; intros acc; simpl.
    - rewrite app_nil_r. reflexivity.
    - rewrite IH, <- app_assoc. reflexivity. }
  rewrite G. reflexivity.
Qed.

Lemma bitmapToBytes_length bitmap height :
  length (bitmapToBytes bitmap height) = first_row_length bitmap.
Proof. rewrite bitmapToBytes_fmap, length_fmap, length_seq. reflexivity. Qed.

Lemma bitmapToBytes_lookup bitmap height c :
  (c < first_row_length bitmap)%nat ->
  bitmapToBytes bitmap height !! c = Some (encode_column bitmap height c).
Proof.
  intros H. rewrite bitmapToBytes_fmap, list_lookup_fmap, lookup_seq_lt by assumption.
  reflexivity.
Qed.

Lemma encode_prefix_succ bitmap height c j :
  encode_prefix bitmap height c (S j)
  = let byte := encode_prefix bitmap height c j in
    if cell bitmap j c then js_or byte (js_shl 1 (height - 1 - Z.of_nat j)) else byte.
Proof.
  unfold encode_prefix. rewrite seq_S, fold_left_app. reflexivity.
Qed.

Lemma encode_prefix_spec bitmap height c j :
  0 <= height <= 31 -> (j <= Z.to_nat height)%nat ->
  let byte := encode_prefix bitmap height c j in
  0 <= byte < 2 ^ height
  /\ byte = column_sum bitmap height c j
  /\ forall k, 0 <= k ->
       Z.testbit byte k
       = (height - Z.of_nat j <=? k) && (k <? height)
         && cell bitmap (Z.to_nat (height - 1 - k)) c.
Proof.
  intros Hh. induction j as [|j IH]; intros Hj.
  - cbv zeta. change (encode_prefix bitmap height c 0) with 0. split; [|split].
    + pose proof (Z.pow_pos_nonneg 2 height ltac:(lia) ltac:(lia)). lia.
    + reflexivity.
    + intros k Hk. rewrite Z.testbit_0_l.
      destruct (Z.leb_spec (height - Z.of_nat 0) k), (Z.ltb_spec k height); try lia; reflexivity.
  - destruct IH as (Hrange & Hsum & Hbits); [lia |].
    cbv zeta. rewrite encode_prefix_succ. cbv zeta.
    set (byte := encode_prefix bitmap height c j) in *.
    set (n := height - 1 - Z.of_nat j).
    assert (Hn : 0 <= n <= 30) by (unfold n; lia).
    assert (Hbn : Z.testbit byte n = false).
    { rewrite Hbits by lia.
      destruct (Z.leb_spec (height - Z.of_nat j) n); [unfold n in *; lia | reflexivity]. }
    assert (Hp : 2 ^ height <= 2 ^ 31) by (apply Z.pow_le_mono_r; lia).
    destruct (cell bitmap j c) eqn:Hcell.
    + rewrite js_shl_one by assumption.
      assert (H2n : 0 < 2 ^ n <= 2 ^ 30).
      { split; [apply Z.pow_pos_nonneg; lia | apply Z.pow_le_mono_r; lia]. }
      rewrite js_or_small by lia.
      assert (Hbits' : forall k, 0 <= k ->
        Z.testbit (Z.lor byte (2 ^ n)) k
        = (height - Z.of_nat (S j) <=? k) && (k <? height)
          && cell bitmap (Z.to_nat (height - 1 - k)) c).
      { intros k Hk. rewrite Z.lor_spec, Hbits, Z.pow2_bits_eqb by lia.
        destruct (Z.eqb_spec n k) as [<-|Hne].
        - rewrite orb_true_r. unfold n.
          replace (Z.to_nat (height - 1 - (height - 1 - Z.of_nat j))) with j by lia.
          rewrite Hcell.
          destruct (Z.leb_spec (height - Z.of_nat (S j)) (height - 1 - Z.of_nat j)),
            (Z.ltb_spec (height - 1 - Z.of_nat j) height); try lia; reflexivity.
        - rewrite orb_false_r. f_equal. f_equal. unfold n in Hne.
          destruct (Z.leb_spec (height - Z.of_nat j) k),
            (Z.leb_spec (height - Z.of_nat (S j)) k); try lia; reflexivity. }
      assert (Hnonneg : 0 <= Z.lor byte (2 ^ n)) by (apply Z.lor_nonneg; lia).
      split; [|split; [|exact Hbits']].
      * split; [assumption |].
        apply (Z.bounded_iff_bits_nonneg height); [lia | assumption |].
        intros l Hl. rewrite Hbits' by lia.
        destruct (Z.ltb_spec l height); [lia |]. rewrite andb_false_r. reflexivity.
      * simpl. rewrite Hcell. fold n. rewrite <- Hsum.
        assert (Hland : Z.land byte (2 ^ n) = 0).
        { apply Z.bits_inj'. intros k Hk. rewrite Z.land_spec, Z.bits_0, Z.pow2_bits_eqb by lia.
          destruct (Z.eqb_spec n k) as [<-|]; [rewrite Hbn; reflexivity | apply andb_false_r]. }
        pose proof (Z.add_lor_land byte (2 ^ n)). lia.
    + split; [assumption |]. split.
      * simpl. rewrite Hcell. lia.
      * intros k Hk. rewrite Hbits by assumption.
        destruct (Z.eq_dec k n) as [->|Hne].
        -- unfold n. replace (Z.to_nat (height - 1 - (height - 1 - Z.of_nat j))) with j by lia.
           rewrite Hcell, !andb_false_r. reflexivity.
        -- f_equal. f_equal. unfold n in Hne.
           destruct (Z.leb_spec (height - Z.of_nat j) k),
             (Z.leb_spec (height - Z.of_nat (S j)) k); try lia; reflexivity.
Qed.

Lemma encode_column_spec bitmap height c :
  0 <= height <= 31 ->
  let byte := encode_column bitmap height c in
  0 <= byte < 2 ^ height
  /\ byte = column_sum bitmap height c (Z.to_nat height)
  /\ forall r, (r < Z.to_nat height)%nat ->
       Z.testbit byte (height - 1 - Z.of_nat r) = cell bitmap r c.
Proof.
  intros Hh.
  destruct (encode_prefix_spec bitmap height c (Z.to_nat height) Hh (Nat.le_refl _))
    as (Hrange & Hsum & Hbits).
  change (encode_prefix bitmap height c (Z.to_nat height))
    with (encode_column bitmap height c) in *.
  split; [assumption |]. split; [assumption |].
  intros r Hr. rewrite Hbits by lia.
  replace (Z.to_nat (height - 1 - (height - 1 - Z.of_nat r))) with r by lia.
  destruct (Z.leb_spec (height - Z.of_nat (Z.to_nat height)) (height - 1 - Z.of_nat r)),
    (Z.ltb_spec (height - 1 - Z.of_nat r) height); try lia; reflexivity.
Qed.

Lemma encode_column_fits bitmap height c :
  0 <= height <= 31 -> fits_height height (encode_column bitmap height c).
Proof.
  intros Hh k Hk.
  destruct (encode_column_spec bitmap height c Hh) as (Hrange & _ & _).
  apply (Z.bounded_iff_bits_nonneg height); lia.
Qed.

Lemma decoded_encoded bitmap height r c :
  0 <= height <= 31 -> (r < Z.to_nat height)%nat ->
  (c < first_row_length bitmap)%nat ->
  decoded (bitmapToBytes bitmap height) height r c = cell bitmap r c.
Proof.
  intros Hh Hr Hc. unfold decoded. rewrite bitmapToBytes_lookup by assumption.
  destruct (encode_column_spec bitmap height c Hh) as (Hrange & _ & Hbits).
  assert (Hp : 2 ^ height <= 2 ^ 31) by (apply Z.pow_le_mono_r; lia).
  assert (Hor : or_default (Some (encode_column bitmap height c)) 0
                = encode_column bitmap height c).
  { simpl. destruct (Z.eqb_spec (encode_column bitmap height c) 0) as [->|]; reflexivity. }
  rewrite Hor, bit_set_testbit, to_int32_small by lia.
  rewrite Z.mod_small by lia. apply Hbits. assumption.
Qed.

(** C1.  For a rectangular bitmap of [height] rows and [width] columns,
    1 <= height <= 8, decoding the encoded column bytes gives the bitmap
    back; there is one byte per column, and the byte of column c is the sum
    over the rows r of bit(r, c) * 2 ^ (height - 1 - r).  The rows are
    JavaScript arrays: [width] is below 2^32. *)
Theorem decode_encode_roundtrip (bitmap : matrix) (width : nat) (height : Z) :
  1 <= height <= 8 ->
  Z.of_nat width < 2 ^ 32 ->
  rectangular (Z.to_nat height) width bitmap ->
  bytesToBitmap (bitmapToBytes bitmap height) (Z.of_nat width) height = Ok bitmap
  /\ length (bitmapToBytes bitmap height) = width
  /\ forall c, (c < width)%nat ->
       bitmapToBytes bitmap height !! c
       = Some (column_sum bitmap height c (Z.to_nat height)).
Proof.
  intros Hh Hwidth Hrect.
  assert (Hw : first_row_length bitmap = width)
    by (eapply first_row_length_rect; [eassumption | lia]).
  split; [|split].
  - rewrite bytesToBitmap_tabulate by lia. f_equal.
    rewrite Nat2Z.id. rewrite (rectangular_tabulate _ _ _ Hrect) at 2.
    apply tabulate_ext. intros r c Hr Hc. apply decoded_encoded; [lia | assumption | lia].
  - rewrite bitmapToBytes_length. assumption.
  - intros c Hc. rewrite bitmapToBytes_lookup by lia. f_equal.
    apply (encode_column_spec bitmap height c). lia.
Qed.

Lemma decode_encode_roundtrip_witness :
  let bitmap := [[true; false; true]; [false; false; true]] in
  bytesToBitmap (bitmapToBytes bitmap 2) (Z.of_nat 3) 2 = Ok bitmap
  /\ length (bitmapToBytes bitmap 2) = 3%nat
  /\ forall c, (c < 3)%nat ->
       bitmapToBytes bitmap 2 !! c = Some (column_sum bitmap 2 c (Z.to_nat 2)).
Proof.
  apply (decode_encode_roundtrip [[true; false; true]; [false; false; true]] 3 2).
  - lia.
  - simpl; lia.
  - split; [reflexivity | repeat constructor].
Defined.

(** ** ArrayTextParser *)

(** C4.  The three example equations of parseArrayString: an array of
    hexadecimal literals with a block comment, a declaration with character
    literals (one of them the backslash-n escape), and the empty text. *)
Theorem parseArrayString_examples :
  parseArrayString example_hex = [26; 43; 60]
  /\ parseArrayString example_chars = [65; 10; 10]
  /\ parseArrayString [] = [].
Proof. repeat split; vm_compute; reflexivity. Qed.

(** A character-literal token has three or four code units, so the text
    between its quotes has one or two. *)
Lemma char_literal_match_length s n :
  char_literal_match s = Some n -> n = 3%nat \/ n = 4%nat.
Proof.
  unfold char_literal_match. intros H.
  repeat match type of H with
    | context [match ?x with _ => _ end] => destruct x
    end; inversion H; auto.
Qed.

(** ** Numbers read from a text *)

(** An integer below 2^53 in magnitude is read exactly. *)
Lemma round_double_exact z : Z.abs z < 2 ^ 53 -> round_double z = z.
Proof.
  intros H. unfold round_double. destruct (Z.ltb_spec (Z.abs z) (2 ^ 53)); [reflexivity | lia].
Qed.

(** Rounding does not bring a magnitude of 2^53 or more below 2^53: it
    changes no comparison with an array length. *)
Lemma round_double_large z : 2 ^ 53 <= Z.abs z -> 2 ^ 53 <= Z.abs (round_double z).
Proof.
  intros H. unfold round_double. destruct (Z.ltb_spec (Z.abs z) (2 ^ 53)); [lia |].
  set (a := Z.abs z) in *. set (e := Z.log2 a - 52).
  assert (Hlog : 53 <= Z.log2 a).
  { change 53 with (Z.log2 (2 ^ 53)). apply Z.log2_le_mono. assumption. }
  assert (He : 1 <= e) by (unfold e; lia).
  assert (Hq : 2 ^ 52 <= Z.shiftr a e).
  { rewrite Z.shiftr_div_pow2 by lia.
    apply Z.div_le_lower_bound; [apply Z.pow_pos_nonneg; lia |].
    rewrite <- Z.pow_add_r by lia. replace (e + 52) with (Z.log2 a) by (unfold e; lia).
    apply Z.log2_spec. lia. }
  set (q := Z.shiftr a e) in *.
  set (q' := if (2 ^ (e - 1) <? a - Z.shiftl q e) || ((a - Z.shiftl q e =? 2 ^ (e - 1)) && Z.odd q)
             then q + 1 else q).
  assert (Hq' : 2 ^ 52 <= q') by (unfold q'; destruct (_ || _); lia).
  rewrite Z.abs_mul, Z.shiftl_mul_pow2 by lia.
  assert (Hs : Z.abs (Z.sgn z) = 1) by (unfold a in *; lia).
  rewrite Hs, Z.mul_1_l.
  assert (Hp : 2 <= 2 ^ e).
  { change 2 with (2 ^ 1) at 1. apply Z.pow_le_mono_r; lia. }
  rewrite Z.abs_eq by nia. change (2 ^ 53) with (2 ^ 52 * 2). nia.
Qed.

(** A literal that is not a double is read as the nearest one: 2^53 + 1 as
    2^53, 2^53 + 3 as 2^53 + 4. *)
Lemma parseArrayString_rounds :
  parseArrayString (lit "{9007199254740993, 0x20000000000003, -9007199254740993}")
  = [9007199254740992; 9007199254740996; -9007199254740992].
Proof. vm_compute. reflexivity. Qed.

(** The escapes the switch lists, each on its own four-unit token. *)
Lemma standard_escapes_resolved :
  Forall (fun '(c, code) => parseArrayString [39; 92; c; 39] = [code])
    [(110, 10); (114, 13); (116, 9); (39, 39); (34, 34); (92, 92); (48, 0)].
Proof. repeat constructor. Qed.

(** An escape the switch does not list yields the code of the escaped unit. *)
Lemma unknown_escape_code u :
  u <> 110 -> u <> 114 -> u <> 116 -> u <> 39 -> u <> 34 -> u <> 92 -> u <> 48 ->
  char_literal_code [92; u] = Some u.
Proof.
  intros. unfold char_literal_code. cbn.
  repeat match goal with
    | |- context [?a =? ?b] => destruct (Z.eqb_spec a b); [try congruence|]
    end; subst; reflexivity.
Qed.

(** C5.  The six-unit text made of a quote, a backslash, x, 4, 1 and a quote
    is not read as the character literal of code 65: the token expression
    allows one unit after the backslash only, so the sole token is the decimal
    41 and the parser returns [41]. *)
Theorem hex_escape_not_tokenized :
  parseArrayString example_hex_escape = [41]
  /\ match_all token_match 0 example_hex_escape = [[52; 49]].
Proof. split; vm_compute; reflexivity. Qed.

(** ** FontImportAssembler *)

(** A loop stops with the error of the first iteration that throws. *)
Lemma for_from_first_err {St : Type} (P : nat -> St -> Prop) body e k n :
  forall i (s : St),
  P i s -> (i <= k < i + n)%nat ->
  (forall j t, (i <= j < k)%nat -> P j t ->
     exists t', body j t = Ok t' /\ P (S j) t') ->
  (forall t, P k t -> body k t = Err e) ->
  for_from i n body s = Err e.
Proof.
  induction n as [|n IH]; intros i s Hs Hk Hstep Hfail; [lia |].
  simpl. destruct (decide (i = k)) as [->|Hne].
  - rewrite (Hfail s Hs). reflexivity.
  - destruct (Hstep i s) as (t & Hb & Ht); [lia | assumption |].
    rewrite (bind_ok _ _ _ Hb). apply IH; [assumption | lia | | assumption].
    intros j u Hj. apply Hstep. lia.
Qed.

(** The least index at which a decidable property holds. *)
Lemma least_index (p : nat -> bool) i :
  p i = true ->
  exists k, (k <= i)%nat /\ p k = true /\ forall j, (j < k)%nat -> p j = false.
Proof.
  assert (G : forall n,
    (exists k, (k < n)%nat /\ p k = true /\ forall j, (j < k)%nat -> p j = false)
    \/ (forall j, (j < n)%nat -> p j = false)).
  { induction n as [|n [(k & Hk & Hpk & Hmin)|Hnone]].
    - right. intros j Hj. lia.
    - left. exists k. split; [lia | auto].
    - destruct (p n) eqn:E.
      + left. exists n. split; [lia | auto].
      + right. intros j Hj. destruct (decide (j = n)) as [->|]; [assumption |].
        apply Hnone. lia. }
  intros Hi. destruct (G (S i)) as [(k & Hk & Hpk & Hmin)|Hnone].
  - exists k. split; [lia | auto].
  - rewrite Hnone in Hi by lia. discriminate.
Qed.

Lemma unique_chars_nonempty s : s <> [] -> unique_chars s <> [].
Proof. destruct s; [congruence |]. discriminate. Qed.

(** The iterations before the first one that fails run to their end. *)
Lemma dynamic_steps_before uniqueChars dataBytes widths offsets h k :
  h <= 8 ->
  (k <= length uniqueChars)%nat ->
  length widths = length uniqueChars -> length offsets = length uniqueChars ->
  (forall j, (j < k)%nat -> slice_exceeds dataBytes widths offsets j = false) ->
  (forall j w, (j < k)%nat -> widths !! j = Some w -> 0 <= w < 2 ^ 32) ->
  forall j t, (0 <= j < k)%nat -> True ->
    exists t', dynamic_step uniqueChars dataBytes widths offsets h j t = Ok t' /\ True.
Proof.
  intros Hh Hk Hw Ho Hin Hpos j t Hj _.
  destruct (lookup_lt_is_Some_2 uniqueChars j) as [ch Hch]; [lia |].
  destruct (lookup_lt_is_Some_2 widths j) as [w Hwj]; [lia |].
  destruct (lookup_lt_is_Some_2 offsets j) as [o Hoj]; [lia |].
  unfold dynamic_step. rewrite Hch, Hwj, Hoj.
  specialize (Hin j ltac:(lia)). unfold slice_exceeds in Hin.
  rewrite Hwj, Hoj in Hin. rewrite Hin.
  rewrite bytesToBitmap_tabulate; [| apply (Hpos j); [lia | assumption] | lia].
  eexists; split; [reflexivity | exact I].
Qed.

(** C6, amended.  In dynamic mode, with a valid height and a non-empty
    character set: when the width table, the offset table and the unique
    characters do not all have the same length (the width table being empty
    included), the import throws a length-mismatch error.  The three lengths
    being equal and the entries of the two tables being finite doubles: if
    offsets[i] + widths[i] exceeds the length of the data array for some i,
    and the widths before i are array lengths (0 <= width < 2^32), the import
    throws the out-of-bounds error of the first such index; if instead a
    width is negative or not below 2^32 at an index up to which no slice
    exceeds the data and the widths before which are array lengths, the
    import throws the RangeError of [new Array(width)], not the out-of-bounds
    error. *)
Theorem dynamic_import_errors (options : ImportOptions) :
  isDynamic options = true ->
  1 <= charHeight options <= 8 ->
  characterSet options <> [] ->
  let uniqueChars := unique_chars (characterSet options) in
  let dataBytes := parseArrayString (rawData options) in
  let widths := parseArrayString (rawWidths options) in
  let offsets := parseArrayString (rawOffsets options) in
  (~ (length widths = length uniqueChars /\ length offsets = length uniqueChars) ->
     exists e, parseImportedData options = Err e /\ is_length_mismatch e = true)
  /\ (length widths = length uniqueChars -> length offsets = length uniqueChars ->
      Forall finite_number widths -> Forall finite_number offsets ->
      (forall i, slice_exceeds dataBytes widths offsets i = true ->
         (forall j w, (j < i)%nat -> widths !! j = Some w -> 0 <= w < 2 ^ 32) ->
         exists k offset width,
           (k <= i)%nat
           /\ offsets !! k = Some offset /\ widths !! k = Some width
           /\ Z.of_nat (length dataBytes) < offset + width
           /\ parseImportedData options
              = Err (OutOfBounds k offset width (length dataBytes)))
      /\ (forall i width,
            widths !! i = Some width -> width < 0 \/ 2 ^ 32 <= width ->
            (forall j, (j <= i)%nat ->
               slice_exceeds dataBytes widths offsets j = false) ->
            (forall j w, (j < i)%nat -> widths !! j = Some w -> 0 <= w < 2 ^ 32) ->
            parseImportedData options = Err RangeError)).
Proof.
  intros Hdyn Hh Hset uniqueChars dataBytes widths offsets.
  pose proof (unique_chars_nonempty _ Hset) as Hne. fold uniqueChars in Hne.
  assert (Hn : (0 < length uniqueChars)%nat) by (destruct uniqueChars; simpl; [congruence | lia]).
  unfold parseImportedData. rewrite Hdyn.
  fold uniqueChars dataBytes widths offsets.
  destruct (Z.leb_spec (charHeight options) 0); [lia |].
  destruct (Z.ltb_spec 8 (charHeight options)); [lia |]. simpl orb. cbv iota.
  split.
  - intros Hmis.
    destruct (length widths) as [|nw] eqn:Hw.
    + simpl. destruct (Nat.ltb_spec 0 (length uniqueChars)); [|lia].
      eexists; split; reflexivity.
    + destruct (Nat.eqb_spec (length uniqueChars) (S nw));
        [destruct (Nat.eqb_spec (length uniqueChars) (length offsets)) |]; simpl.
      * exfalso. apply Hmis. lia.
      * eexists; split; reflexivity.
      * eexists; split; reflexivity.
  - intros Hw Ho _ _.
    rewrite Hw, Ho, !Nat.eqb_refl. simpl andb.
    destruct (Nat.ltb_spec 0 (length uniqueChars)); [|lia].
    destruct (Nat.eqb_spec (length uniqueChars) 0); [lia |]. simpl andb. cbv iota.
    unfold for_loop. split.
    + intros i Hi Hpos.
      destruct (least_index (slice_exceeds dataBytes widths offsets) i Hi)
        as (k & Hki & Hk & Hmin).
      unfold slice_exceeds in Hk.
      destruct (widths !! k) as [width|] eqn:Ewk; [|discriminate].
      destruct (offsets !! k) as [offset|] eqn:Eok; [|discriminate].
      apply Z.ltb_lt in Hk.
      exists k, offset, width. repeat (split; [assumption |]).
      assert (Hkn : (k < length uniqueChars)%nat).
      { apply lookup_lt_Some in Ewk. lia. }
      rewrite (for_from_first_err (fun _ _ => True)
                 (dynamic_step uniqueChars dataBytes widths offsets (charHeight options))
                 (OutOfBounds k offset width (length dataBytes)) k); auto; [lia | |].
      * apply dynamic_steps_before; try assumption; try lia.
        intros j w Hj. apply Hpos. lia.
      * intros t _.
        destruct (lookup_lt_is_Some_2 uniqueChars k) as [ch Hch]; [lia |].
        unfold dynamic_step. rewrite Hch, Ewk, Eok.
        destruct (Z.ltb_spec (Z.of_nat (length dataBytes)) (offset + width));
          [reflexivity | lia].
    + intros i width Ewi Hbad Hin Hpos.
      assert (Hin' : (i < length uniqueChars)%nat).
      { apply lookup_lt_Some in Ewi. lia. }
      rewrite (for_from_first_err (fun _ _ => True)
                 (dynamic_step uniqueChars dataBytes widths offsets (charHeight options))
                 RangeError i); auto; [lia | |].
      * apply dynamic_steps_before; try assumption; try lia.
        intros j Hj. apply Hin. lia.
      * intros t _.
        destruct (lookup_lt_is_Some_2 uniqueChars i) as [ch Hch]; [lia |].
        destruct (lookup_lt_is_Some_2 offsets i) as [o Hoi]; [lia |].
        unfold dynamic_step. rewrite Hch, Ewi, Hoi.
        specialize (Hin i (Nat.le_refl i)). unfold slice_exceeds in Hin.
        rewrite Ewi, Hoi in Hin. rewrite Hin.
        rewrite bytesToBitmap_bad_width by (assumption || lia). reflexivity.
Qed.

Lemma dynamic_import_errors_witness :
  (exists e, parseImportedData import_AB_mismatch = Err e /\ is_length_mismatch e = true)
  /\ (exists k offset width,
        (k <= 1)%nat
        /\ [0; 1] !! k = Some offset /\ [1; 2] !! k = Some width
        /\ 2 < offset + width
        /\ parseImportedData import_out_of_bounds = Err (OutOfBounds k offset width 2)).
Proof.
  split.
  - apply (dynamic_import_errors import_AB_mismatch);
      [reflexivity | simpl; lia | discriminate |].
    vm_compute. intros [H _]. discriminate.
  - destruct (dynamic_import_errors import_out_of_bounds) as (_ & H);
      [reflexivity | simpl; lia | discriminate |].
    assert (Hw : parseArrayString (rawWidths import_out_of_bounds) = [1; 2])
      by (vm_compute; reflexivity).
    assert (Ho : parseArrayString (rawOffsets import_out_of_bounds) = [0; 1])
      by (vm_compute; reflexivity).
    destruct H as [H _]; [reflexivity | reflexivity | | |].
    + rewrite Hw. repeat constructor; unfold finite_number; lia.
    + rewrite Ho. repeat constructor; unfold finite_number; lia.
    + apply (H 1%nat); [reflexivity |].
      intros j w0 Hj Hw0. assert (j = 0%nat) as -> by lia.
      vm_compute in Hw0. injection Hw0 as <-. lia.
Defined.

(** C6 as stated fails: with widths {-1, 5} and offsets {0, 0} over one data
    byte, offsets[1] + widths[1] exceeds the data array, but the import stops
    at index 0 with the RangeError of [new Array(-1)]; no out-of-bounds error
    is thrown. *)
Lemma negative_width_range_error :
  isDynamic import_negative_width = true
  /\ length (parseArrayString (rawWidths import_negative_width))
     = length (unique_chars (characterSet import_negative_width))
  /\ length (parseArrayString (rawOffsets import_negative_width))
     = length (unique_chars (characterSet import_negative_width))
  /\ slice_exceeds (parseArrayString (rawData import_negative_width))
       (parseArrayString (rawWidths import_negative_width))
       (parseArrayString (rawOffsets import_negative_width)) 1 = true
  /\ parseImportedData import_negative_width = Err RangeError
  /\ forall e, parseImportedData import_negative_width = Err e ->
       is_out_of_bounds e = false.
Proof.
  assert (E : parseImportedData import_negative_width = Err RangeError)
    by (vm_compute; reflexivity).
  repeat (split; [vm_compute; reflexivity |]).
  intros e He. rewrite E in He. injection He as <-. reflexivity.
Qed.

(** ** RasterizationPipeline *)

Lemma jsstring_eqb_eq s t : jsstring_eqb s t = true <-> s = t.
Proof.
  revert t. induction s as [|a s IH]; intros [|b t]; simpl; split; intros H;
    try congruence; try reflexivity.
  - apply andb_true_iff in H as [Hab Hst]. apply Z.eqb_eq in Hab.
    apply IH in Hst. congruence.
  - injection H as -> ->. unfold unit_eqb. rewrite Z.eqb_refl. simpl. apply IH. reflexivity.
Qed.

Lemma jsstring_eqb_neq s t : s <> t -> jsstring_eqb s t = false.
Proof.
  intros H. destruct (jsstring_eqb s t) eqn:E; [|reflexivity].
  apply jsstring_eqb_eq in E. contradiction.
Qed.

(** The loop over the characters collects the glyph of each, in order. *)
Lemma for_each_collect {A B : Type} (f : A -> result B) (l : list A) :
  (forall a, a ∈ l -> exists b, f a = Ok b) ->
  forall acc, exists bs,
    for_each l (fun a acc => b ← f a; Ok (acc ++ [b])) acc = Ok (acc ++ bs)
    /\ Forall2 (fun a b => f a = Ok b) l bs.
Proof.
  induction l as [|a l IH]; intros Hf acc; simpl.
  - exists []. rewrite app_nil_r. split; [reflexivity | constructor].
  - destruct (Hf a) as [b Hb]; [left |].
    rewrite Hb. simpl.
    destruct (IH (fun x Hx => Hf x (list_elem_of_further _ _ _ Hx)) (acc ++ [b]))
      as (bs & Hrun & Hall).
    exists (b :: bs). rewrite Hrun, <- app_assoc. split; [reflexivity |].
    constructor; assumption.
Qed.

(** What a completed loop over the characters has collected. *)
Lemma for_each_collect_inv {A B : Type} (f : A -> result B) (l : list A) :
  forall acc res,
    for_each l (fun a acc => b ← f a; Ok (acc ++ [b])) acc = Ok res ->
    exists bs, res = acc ++ bs /\ Forall2 (fun a b => f a = Ok b) l bs.
Proof.
  induction l as [|a l IH]; intros acc res Hrun; simpl in Hrun.
  - injection Hrun as <-. exists []. rewrite app_nil_r. split; [reflexivity | constructor].
  - destruct (f a) as [b|e] eqn:Hb; simpl in Hrun; [|discriminate].
    destruct (IH _ _ Hrun) as (bs & -> & Hall).
    exists (b :: bs). rewrite <- app_assoc. split; [reflexivity |].
    constructor; assumption.
Qed.

Lemma blank_char_ok options ch :
  0 <= height options < 2 ^ 32 ->
  dynamicWidth options = true \/ 0 <= width options + charSpacing options < 2 ^ 32 ->
  blank_char options ch
  = Ok (blank_glyph ch (height options)
          (if dynamicWidth options then 0 else width options + charSpacing options)).
Proof.
  intros Hh Hw. unfold blank_char.
  set (tw := if dynamicWidth options then 0 else width options + charSpacing options).
  assert (Htw : 0 <= tw < 2 ^ 32)
    by (unfold tw; destruct (dynamicWidth options), Hw; lia || discriminate).
  rewrite (new_array_fill_ok (height options)) by assumption. simpl.
  rewrite (array_map_ok _ (replicate (Z.to_nat tw) false))
    by (intros; apply new_array_fill_ok; assumption).
  simpl. rewrite new_array_fill_ok by assumption. simpl.
  rewrite length_replicate. reflexivity.
Qed.


(** What the loop over the characters returns when every iteration returns. *)
Lemma generateChars_collect raster options characters :
  0 < width options -> context raster options = true ->
  (forall ch, ch ∈ characters -> exists g, generate_char raster options ch = Ok g) ->
  exists glyphs,
    generateChars raster options characters = Ok glyphs
    /\ Forall2 (fun ch g => generate_char raster options ch = Ok g) characters glyphs.
Proof.
  intros Hw Hctx Hall. unfold generateChars.
  destruct (Z.leb_spec (width options) 0); [lia |]. rewrite Hctx.
  destruct (for_each_collect (generate_char raster options) characters Hall)
    with (acc := @nil GeneratedChar) as (glyphs & Hrun & Hgl).
  exists glyphs. split; assumption.
Qed.

(** The same read backwards: the glyphs of a run that returned. *)
Lemma generateChars_collect_inv raster options characters glyphs :
  0 < width options ->
  generateChars raster options characters = Ok glyphs ->
  Forall2 (fun ch g => generate_char raster options ch = Ok g) characters glyphs.
Proof.
  intros Hw Hrun. unfold generateChars in Hrun.
  destruct (Z.leb_spec (width options) 0); [lia |].
  destruct (context raster options); [|discriminate].
  destruct (for_each_collect_inv _ _ _ _ Hrun) as (bs & -> & Hall). exact Hall.
Qed.

Lemma array_map_fmap {A B : Type} (f : A -> result B) (g : A -> B) (l : list A) :
  (forall a, f a = Ok (g a)) -> array_map f l = Ok (g <$> l).
Proof.
  intros Hf. induction l as [|a l IH]; [reflexivity |].
  cbn [array_map]. rewrite Hf. cbn [mbind result_bind]. rewrite IH. reflexivity.
Qed.

(** With a non-positive width every character gets the same blank glyph. *)
Lemma generateChars_degenerate raster options characters :
  width options <= 0 ->
  height options < 2 ^ 32 ->
  dynamicWidth options = true \/ charSpacing options < 2 ^ 32 ->
  generateChars raster options characters
  = Ok ((fun ch => blank_glyph ch (height options)
                     (if dynamicWidth options then 0 else charSpacing options))
        <$> characters).
Proof.
  intros Hw Hh Hs. unfold generateChars.
  destruct (Z.leb_spec (width options) 0); [|lia].
  set (tw := if dynamicWidth options then 0 else charSpacing options).
  assert (Htw : tw < 2 ^ 32)
    by (unfold tw; destruct (dynamicWidth options), Hs; lia || discriminate).
  destruct (Z.leb_spec tw 0) as [Hneg|Hpos].
  - apply array_map_fmap. intros ch.
    rewrite (array_from_ok _ []) by (assumption || reflexivity).
    cbn [mbind result_bind]. unfold blank_glyph, blank_bitmap, zero_bytes.
    replace (Z.to_nat tw) with 0%nat by lia. reflexivity.
  - rewrite (array_from_ok _ (replicate (Z.to_nat tw) false))
      by (assumption || (intros; apply new_array_fill_ok; lia)).
    simpl. rewrite new_array_fill_ok by lia. reflexivity.
Qed.

(** In fixed mode a spacing of 2^32 or more cannot be the length of the
    blank rows. *)
Lemma generateChars_huge_spacing raster options characters :
  width options <= 0 -> dynamicWidth options = false ->
  2 ^ 32 <= charSpacing options ->
  generateChars raster options characters = Err RangeError.
Proof.
  intros Hw Hfixed Hs. unfold generateChars.
  destruct (Z.leb_spec (width options) 0); [|lia]. rewrite Hfixed.
  destruct (Z.leb_spec (charSpacing options) 0); [lia |].
  unfold array_from. destruct (Z.leb_spec (2 ^ 32) (height options)); [reflexivity |].
  destruct (Z.to_nat (height options)) as [|n].
  - cbn [array_from_aux mbind result_bind].
    rewrite new_array_fill_err by lia. reflexivity.
  - cbn [array_from_aux].
    rewrite (new_array_fill_err (charSpacing options) false) by lia. reflexivity.
Qed.

(** C7, amended.  If the render width is <= 0 and the height is below 2^32,
    generateChars returns for every character the all-false glyph of width 0
    (dynamic mode) or of the spacing (fixed mode, 0 <= spacing < 2^32), with
    all-zero bytes; the canvas plays no part.  In fixed mode with a spacing of
    2^32 or more it throws a RangeError instead.  If the render width is
    positive, a context is obtained and the iterations of the other characters
    return, every character made of white space only, other than the space,
    gets the all-false glyph of width 0 (dynamic mode) or width + spacing
    (fixed mode, 0 <= width + spacing < 2^32), for heights from 0 and below
    2^32; the canvas is not asked for its pixels. *)
Theorem blank_glyph_short_circuit (raster : rasterizer) (options : FontGeneratorOptions)
    (characters : list jsstring) :
  (width options <= 0 ->
   height options < 2 ^ 32 ->
   dynamicWidth options = true \/ 0 <= charSpacing options < 2 ^ 32 ->
   generateChars raster options characters
   = Ok ((fun ch => blank_glyph ch (height options)
                      (if dynamicWidth options then 0 else charSpacing options))
         <$> characters))
  /\ (width options <= 0 -> dynamicWidth options = false ->
      2 ^ 32 <= charSpacing options ->
      generateChars raster options characters = Err RangeError)
  /\ (0 < width options -> 0 <= height options < 2 ^ 32 ->
      dynamicWidth options = true
      \/ 0 <= width options + charSpacing options < 2 ^ 32 ->
      (forall ch, blank_not_space ch = true ->
         generate_char raster options ch
         = Ok (blank_glyph ch (height options)
                 (if dynamicWidth options then 0
                  else width options + charSpacing options)))
      /\ (context raster options = true ->
          (forall ch, ch ∈ characters -> blank_not_space ch = false ->
             exists g, generate_char raster options ch = Ok g) ->
          exists glyphs,
            generateChars raster options characters = Ok glyphs
            /\ length glyphs = length characters
            /\ forall i ch, characters !! i = Some ch -> blank_not_space ch = true ->
                 glyphs !! i
                 = Some (blank_glyph ch (height options)
                           (if dynamicWidth options then 0
                            else width options + charSpacing options)))).
Proof.
  split; [|split].
  - intros Hw Hh Hs. apply generateChars_degenerate; [assumption | assumption |].
    destruct Hs; [left; assumption | right; lia].
  - apply generateChars_huge_spacing.
  - intros Hw Hh Hs.
    assert (Hblank : forall ch, blank_not_space ch = true ->
      generate_char raster options ch
      = Ok (blank_glyph ch (height options)
              (if dynamicWidth options then 0
               else width options + charSpacing options))).
    { intros ch Hch. unfold generate_char. unfold blank_not_space in Hch.
      rewrite Hch. apply blank_char_ok; assumption. }
    split; [exact Hblank |].
    intros Hctx Hothers.
    destruct (generateChars_collect raster options characters Hw Hctx)
      as (glyphs & Hrun & Hall).
    { intros ch Hin. destruct (blank_not_space ch) eqn:Hb.
      - eexists. apply Hblank. assumption.
      - apply Hothers; assumption. }
    exists glyphs. split; [assumption |].
    split; [symmetry; eapply Forall2_length, Hall |].
    intros i ch Hi Hb.
    destruct (Forall2_lookup_l _ _ _ _ _ Hall Hi) as (g & Hg & Hgen).
    rewrite Hg. f_equal. rewrite (Hblank ch Hb) in Hgen. congruence.
Qed.

Lemma blank_glyph_short_circuit_witness :
  generateChars solid (options_3x2 0 1 false) [lit "A"; NEWLINE]
  = Ok [blank_glyph (lit "A") 2 1; blank_glyph NEWLINE 2 1]
  /\ generateChars solid (options_3x2 0 4294967296 false) [lit "A"; NEWLINE]
     = Err RangeError
  /\ exists glyphs,
       generateChars solid (options_3x2 3 1 false) [lit "A"; NEWLINE] = Ok glyphs
       /\ length glyphs = 2%nat
       /\ forall i ch, [lit "A"; NEWLINE] !! i = Some ch -> blank_not_space ch = true ->
            glyphs !! i = Some (blank_glyph ch 2 4).
Proof.
  split; [|split].
  - apply (proj1 (blank_glyph_short_circuit solid (options_3x2 0 1 false)
                    [lit "A"; NEWLINE]));
      [simpl; lia | simpl; lia | right; simpl; lia].
  - apply (proj1 (proj2 (blank_glyph_short_circuit solid
                           (options_3x2 0 4294967296 false) [lit "A"; NEWLINE])));
      [simpl; lia | reflexivity | simpl; lia].
  - destruct (proj2 (proj2 (blank_glyph_short_circuit solid (options_3x2 3 1 false)
                              [lit "A"; NEWLINE]))) as [_ Hrun];
      [simpl; lia | simpl; lia | right; simpl; lia |].
    apply Hrun; [reflexivity |].
    intros ch Hin Hb. apply elem_of_cons in Hin as [->|Hin].
    + eexists. vm_compute. reflexivity.
    + apply list_elem_of_singleton in Hin as ->. discriminate.
Defined.

(** C7 as stated fails: with a render width of 0 in fixed mode, a spacing of
    2^32 gives no glyph of that width; the generator throws a RangeError. *)
Lemma huge_spacing_range_error :
  width (options_3x2 0 4294967296 false) <= 0
  /\ dynamicWidth (options_3x2 0 4294967296 false) = false
  /\ generateChars solid (options_3x2 0 4294967296 false) [lit "A"] = Err RangeError
  /\ ~ exists glyphs,
         generateChars solid (options_3x2 0 4294967296 false) [lit "A"] = Ok glyphs.
Proof.
  assert (E : generateChars solid (options_3x2 0 4294967296 false) [lit "A"]
              = Err RangeError) by reflexivity.
  split; [simpl; lia |]. split; [reflexivity |]. split; [exact E |].
  intros [glyphs H]. rewrite E in H. discriminate.
Qed.
(** ** The space character *)

Lemma array_from_aux_const {A : Type} (f : nat -> result A) (r : result A) n :
  (forall j, f j = r) -> forall i m,
  array_from_aux f i n = Ok m ->
  (n = 0%nat /\ m = []) \/ exists a, r = Ok a /\ m = replicate n a.
Proof.
  intros Hf. induction n as [|n IH]; intros i m Hrun.
  - left. injection Hrun as <-. auto.
  - right. cbn [array_from_aux] in Hrun. rewrite Hf in Hrun.
    destruct r as [a|e]; [|discriminate]. cbn [mbind result_bind] in Hrun.
    destruct (array_from_aux f (S i) n) as [rest|e] eqn:Hrest; [|discriminate].
    injection Hrun as <-. exists a. split; [reflexivity |].
    destruct (IH _ _ Hrest) as [[-> ->] | (a' & Ha & ->)]; [reflexivity |].
    injection Ha as <-. reflexivity.
Qed.

(** The rows [Array.from({ length: n }, () => new Array(w).fill(v))] builds,
    when it returns. *)
Lemma array_from_fill_inv {A : Type} n w (v : A) m :
  array_from n (fun _ => new_array_fill w v) = Ok m ->
  m = replicate (Z.to_nat n) (replicate (Z.to_nat w) v).
Proof.
  unfold array_from. destruct (2 ^ 32 <=? n); [discriminate |]. intros Hrun.
  destruct (array_from_aux_const _ (new_array_fill w v) (Z.to_nat n)
              (fun _ => eq_refl) _ _ Hrun) as [[-> ->] | (a & Ha & ->)];
    [reflexivity |].
  apply new_array_fill_inv in Ha as [_ ->]. reflexivity.
Qed.



(** ** convertToDynamic, glyph by glyph *)



(** The glyphs of a conversion that returned. *)
Lemma convertToDynamic_inv fontData originalWidth newData maxWidth :
  convertToDynamic fontData originalWidth = Ok (newData, maxWidth) ->
  Forall2 (fun charData g =>
             exists m m', dynamic_of originalWidth m charData = Ok (g, m'))
    fontData newData.
Proof.
  unfold convertToDynamic.
  assert (G : forall l acc res mw,
    for_each l
      (fun charData (st : list GeneratedChar * Z) =>
         '(g, maxWidth) ← dynamic_of originalWidth (snd st) charData;
         Ok (fst st ++ [g], maxWidth)) acc = Ok (res, mw) ->
    exists gs, res = fst acc ++ gs
      /\ Forall2 (fun charData g =>
                    exists m m', dynamic_of originalWidth m charData = Ok (g, m'))
           l gs).
  { induction l as [|c l IH]; intros acc res mw Hrun; cbn [for_each] in Hrun.
    - injection Hrun as ->. exists []. rewrite app_nil_r. split; [reflexivity | constructor].
    - destruct (dynamic_of originalWidth (snd acc) c) as [[g m']|e] eqn:Hc;
        [|discriminate].
      cbn [mbind result_bind] in Hrun.
      destruct (IH _ _ _ Hrun) as (gs & -> & Hall). cbn [fst].
      exists (g :: gs). rewrite <- app_assoc. split; [reflexivity |].
      constructor; [eauto | assumption]. }
  intros Hrun. destruct (G _ _ _ _ Hrun) as (gs & -> & Hall). exact Hall.
Qed.

(** The conversion returns when every glyph is converted. *)
Lemma convertToDynamic_ok fontData originalWidth :
  (forall charData, charData ∈ fontData ->
     forall m, exists r, dynamic_of originalWidth m charData = Ok r) ->
  exists newData maxWidth,
    convertToDynamic fontData originalWidth = Ok (newData, maxWidth).
Proof.
  unfold convertToDynamic. generalize (@nil GeneratedChar, 0).
  induction fontData as [|c l IH]; intros acc Hall; cbn [for_each].
  - destruct acc as [gs m]. eauto.
  - destruct (Hall c ltac:(left) (snd acc)) as [[g m'] Hc]. rewrite Hc.
    cbn [mbind result_bind]. apply IH. intros d Hd. apply Hall. right. assumption.
Qed.





(** ** FormatConverter: vertical alignment *)

Lemma scan_rows_prefix_succ bitmap j :
  scan_rows_prefix bitmap (S j)
  = let (a, b) := scan_rows_prefix bitmap j in
    if has_pixel_at bitmap j
    then (if a =? -1 then Z.of_nat j else a, Z.of_nat j) else (a, b).
Proof.
  unfold scan_rows_prefix. rewrite seq_S, fold_left_app. simpl.
  destruct (fold_left _ (seq 0 j) (-1, -1)) as [a b].
  unfold has_pixel_at. destruct (bitmap !! j) as [row|]; [|reflexivity].
  destruct (row_has_pixel row); reflexivity.
Qed.

Lemma scan_rows_prefix_spec bitmap j :
  (scan_rows_prefix bitmap j = (-1, -1)
   /\ forall r, (r < j)%nat -> has_pixel_at bitmap r = false)
  \/ exists f l : nat,
       scan_rows_prefix bitmap j = (Z.of_nat f, Z.of_nat l)
       /\ (f <= l < j)%nat
       /\ has_pixel_at bitmap f = true /\ has_pixel_at bitmap l = true
       /\ (forall r, (r < f)%nat -> has_pixel_at bitmap r = false)
       /\ (forall r, (l < r < j)%nat -> has_pixel_at bitmap r = false).
Proof.
  induction j as [|j IH].
  - left. split; [reflexivity | intros; lia].
  - rewrite scan_rows_prefix_succ.
    destruct IH as [[-> Hnone] | (f & l & -> & Hfl & Hf & Hl & Hbefore & Hafter)];
      destruct (has_pixel_at bitmap j) eqn:Hj; simpl.
    + right. exists j, j. repeat split; auto; try lia; intros; lia.
    + left. split; [reflexivity |]. intros r Hr.
      destruct (decide (r = j)) as [->|]; [assumption | apply Hnone; lia].
    + right. exists f, j.
      destruct (Z.eqb_spec (Z.of_nat f) (-1)); [lia |].
      repeat split; auto; try lia; intros; lia.
    + right. exists f, l. repeat split; auto; try lia.
      intros r Hr. destruct (decide (r = j)) as [->|]; [assumption | apply Hafter; lia].
Qed.

Lemma has_pixel_at_lt bitmap r : has_pixel_at bitmap r = true -> (r < length bitmap)%nat.
Proof.
  unfold has_pixel_at. destruct (bitmap !! r) eqn:E; [|discriminate].
  intros _. eapply lookup_lt_Some, E.
Qed.

Lemma scan_rows_spec bitmap :
  (scan_rows bitmap = (-1, -1) /\ forall r, has_pixel_at bitmap r = false)
  \/ exists f l : nat,
       scan_rows bitmap = (Z.of_nat f, Z.of_nat l)
       /\ (f <= l < length bitmap)%nat
       /\ first_set_row bitmap f /\ last_set_row bitmap l.
Proof.
  change (scan_rows bitmap) with (scan_rows_prefix bitmap (length bitmap)).
  destruct (scan_rows_prefix_spec bitmap (length bitmap))
    as [[-> Hnone] | (f & l & -> & Hfl & Hf & Hl & Hbefore & Hafter)].
  - left. split; [reflexivity |]. intros r.
    destruct (decide (r < length bitmap)%nat); [auto |].
    unfold has_pixel_at. rewrite lookup_ge_None_2 by lia. reflexivity.
  - right. exists f, l. split; [reflexivity |]. split; [lia |].
    split; [split; assumption |]. split; [assumption |].
    intros r Hr. destruct (decide (r < length bitmap)%nat); [apply Hafter; lia |].
    unfold has_pixel_at. rewrite lookup_ge_None_2 by lia. reflexivity.
Qed.

Lemma first_set_row_unique bitmap f f' :
  first_set_row bitmap f -> first_set_row bitmap f' -> f = f'.
Proof.
  intros [Hf Hlt] [Hf' Hlt'].
  destruct (Nat.lt_trichotomy f f') as [H|[H|H]]; [|assumption|].
  - rewrite (Hlt' f H) in Hf. discriminate.
  - rewrite (Hlt f' H) in Hf'. discriminate.
Qed.

Lemma last_set_row_unique bitmap l l' :
  last_set_row bitmap l -> last_set_row bitmap l' -> l = l'.
Proof.
  intros [Hl Hgt] [Hl' Hgt'].
  destruct (Nat.lt_trichotomy l l') as [H|[H|H]]; [|assumption|].
  - rewrite (Hgt l' H) in Hl'. discriminate.
  - rewrite (Hgt' l H) in Hl. discriminate.
Qed.

(** Copying rows [s ..] upwards by [s] places. *)
Lemma copy_rows_up (bitmap : matrix) (blank : list bool) s j :
  (s + j <= length bitmap)%nat ->
  copy_rows bitmap s j (fun r => (r - s)%nat) (replicate (length bitmap) blank)
  = take j (drop s bitmap) ++ replicate (length bitmap - j) blank.
Proof.
  unfold copy_rows. induction j as [|j IH]; intros Hj.
  - simpl. rewrite Nat.sub_0_r. reflexivity.
  - rewrite seq_S, fold_left_app, IH by lia. simpl.
    destruct (lookup_lt_is_Some_2 bitmap (s + j)) as [row Hrow]; [lia |].
    rewrite Hrow.
    assert (Hlen : length (take j (drop s bitmap)) = j)
      by (rewrite length_take, length_drop; lia).
    replace (s + j - s)%nat with (length (take j (drop s bitmap)) + 0)%nat by lia.
    rewrite insert_app_r.
    replace (length bitmap - j)%nat with (S (length bitmap - S j)) by lia.
    simpl. rewrite (take_S_r _ _ row) by (rewrite lookup_drop; assumption).
    rewrite <- app_assoc. reflexivity.
Qed.

(** Copying rows [0 .. j) downwards by [s] places. *)
Lemma copy_rows_down (bitmap : matrix) (blank : list bool) s j :
  (s + j <= length bitmap)%nat ->
  copy_rows bitmap 0 j (fun r => (r + s)%nat) (replicate (length bitmap) blank)
  = replicate s blank ++ take j bitmap ++ replicate (length bitmap - s - j) blank.
Proof.
  unfold copy_rows. induction j as [|j IH]; intros Hj.
  - simpl. rewrite Nat.sub_0_r, <- replicate_add. f_equal. lia.
  - rewrite seq_S, fold_left_app, IH by lia. simpl.
    destruct (lookup_lt_is_Some_2 bitmap j) as [row Hrow]; [lia |].
    rewrite Hrow.
    replace (j + s)%nat with (length (replicate s blank) + (length (take j bitmap) + 0))%nat
      by (rewrite length_replicate, length_take; lia).
    rewrite insert_app_r, insert_app_r.
    replace (length bitmap - s - j)%nat
      with (S (length bitmap - s - S j)) by lia.
    simpl. rewrite (take_S_r _ _ row) by assumption.
    rewrite <- app_assoc. reflexivity.
Qed.

Lemma alignBitmap_blank bitmap dir :
  (forall r, has_pixel_at bitmap r = false) -> alignBitmap bitmap dir = bitmap.
Proof.
  intros Hnone. unfold alignBitmap.
  destruct (length bitmap =? 0)%nat; [reflexivity |].
  destruct (scan_rows_spec bitmap) as [[-> _] | (f & l & _ & _ & [Hf _] & _)].
  - reflexivity.
  - rewrite Hnone in Hf. discriminate.
Qed.

Lemma alignBitmap_top bitmap f :
  first_set_row bitmap f ->
  alignBitmap bitmap Top
  = drop f bitmap ++ replicate f (replicate (first_row_length bitmap) false).
Proof.
  intros Hf. unfold alignBitmap.
  pose proof (has_pixel_at_lt _ _ (proj1 Hf)) as Hlt.
  destruct (Nat.eqb_spec (length bitmap) 0); [lia |].
  destruct (scan_rows_spec bitmap) as [[_ Hnone] | (f' & l & -> & Hfl & Hf' & _)].
  - destruct Hf as [Hf _]. rewrite Hnone in Hf. discriminate.
  - rewrite <- (first_set_row_unique _ _ _ Hf Hf').
    destruct (Z.eqb_spec (Z.of_nat f) (-1)); [lia |].
    rewrite Nat2Z.id. destruct (Nat.eqb_spec f 0) as [->|Hne].
    + simpl. rewrite app_nil_r. reflexivity.
    + rewrite copy_rows_up by lia.
      rewrite take_ge by (rewrite length_drop; lia).
      f_equal. f_equal. lia.
Qed.

Lemma alignBitmap_bottom bitmap l :
  last_set_row bitmap l ->
  alignBitmap bitmap Bottom
  = replicate (length bitmap - 1 - l) (replicate (first_row_length bitmap) false)
    ++ take (S l) bitmap.
Proof.
  intros Hl. unfold alignBitmap.
  pose proof (has_pixel_at_lt _ _ (proj1 Hl)) as Hlt.
  destruct (Nat.eqb_spec (length bitmap) 0); [lia |].
  destruct (scan_rows_spec bitmap) as [[_ Hnone] | (f & l' & -> & Hfl & _ & Hl')].
  - destruct Hl as [Hl _]. rewrite Hnone in Hl. discriminate.
  - rewrite <- (last_set_row_unique _ _ _ Hl Hl').
    destruct (Z.eqb_spec (Z.of_nat f) (-1)); [lia |].
    replace (Z.to_nat (Z.of_nat (length bitmap) - 1 - Z.of_nat l))
      with (length bitmap - 1 - l)%nat by lia.
    replace (Z.to_nat (Z.of_nat l + 1)) with (S l) by lia.
    destruct (Nat.eqb_spec (length bitmap - 1 - l) 0) as [E|Hne].
    + rewrite E. simpl. rewrite take_ge by lia. reflexivity.
    + rewrite copy_rows_down by lia.
      replace (length bitmap - (length bitmap - 1 - l) - S l)%nat with 0%nat by lia.
      simpl. rewrite app_nil_r. reflexivity.
Qed.

(** The three possible shapes of the result. *)
Lemma alignBitmap_cases bitmap dir :
  alignBitmap bitmap dir = bitmap
  \/ (exists f, (f <= length bitmap)%nat /\
        alignBitmap bitmap dir
        = drop f bitmap ++ replicate f (replicate (first_row_length bitmap) false))
  \/ (exists l, (l < length bitmap)%nat /\
        alignBitmap bitmap dir
        = replicate (length bitmap - 1 - l) (replicate (first_row_length bitmap) false)
          ++ take (S l) bitmap).
Proof.
  destruct (scan_rows_spec bitmap) as [[_ Hnone] | (f & l & _ & Hfl & Hf & Hl)].
  - left. apply alignBitmap_blank. assumption.
  - destruct dir.
    + right. left. exists f. split; [lia | apply alignBitmap_top; assumption].
    + right. right. exists l. split; [lia | apply alignBitmap_bottom; assumption].
Qed.

Lemma alignBitmap_length bitmap dir : length (alignBitmap bitmap dir) = length bitmap.
Proof.
  destruct (alignBitmap_cases bitmap dir) as [->|[(f & Hf & ->)|(l & Hl & ->)]].
  - reflexivity.
  - rewrite length_app, length_drop, length_replicate. lia.
  - rewrite length_app, length_take, length_replicate. lia.
Qed.

Lemma alignBitmap_columns bitmap dir w :
  Forall (fun row => length row = w) bitmap ->
  Forall (fun row => length row = w) (alignBitmap bitmap dir).
Proof.
  intros Hrows.
  assert (Hblank : forall n, (0 < length bitmap)%nat ->
            Forall (fun row => length row = w)
              (replicate n (replicate (first_row_length bitmap) false))).
  { intros n Hn. apply Forall_replicate. rewrite length_replicate.
    unfold first_row_length. destruct bitmap as [|row rest]; simpl in *; [lia |].
    inversion Hrows; assumption. }
  destruct (alignBitmap_cases bitmap dir) as [->|[(f & Hf & ->)|(l & Hl & ->)]].
  - assumption.
  - apply Forall_app. split; [apply Forall_drop; assumption |].
    destruct f; [constructor | apply Hblank; lia].
  - apply Forall_app. split; [apply Hblank; lia | apply Forall_take; assumption].
Qed.

(** C9.  The row scan of alignBitmap finds the first and the last row with a
    set pixel, or none.  alignBitmap keeps the number of rows and the common
    row length; it returns the bitmap unchanged when no pixel is set, when the
    first set row is row 0 (top), and when the last set row is the final row
    (bottom); otherwise, for top, the rows from the first set row on move to
    the top and all-false rows fill the bottom, and for bottom, the rows up to
    the last set row move to the bottom and all-false rows fill the top. *)
Theorem alignBitmap_spec (bitmap : matrix) :
  ((scan_rows bitmap = (-1, -1) /\ forall r, has_pixel_at bitmap r = false)
   \/ exists f l : nat,
        scan_rows bitmap = (Z.of_nat f, Z.of_nat l)
        /\ first_set_row bitmap f /\ last_set_row bitmap l)
  /\ (forall dir, length (alignBitmap bitmap dir) = length bitmap)
  /\ (forall dir w, Forall (fun row => length row = w) bitmap ->
        Forall (fun row => length row = w) (alignBitmap bitmap dir))
  /\ (forall dir, (forall r, has_pixel_at bitmap r = false) ->
        alignBitmap bitmap dir = bitmap)
  /\ (first_set_row bitmap 0 -> alignBitmap bitmap Top = bitmap)
  /\ (last_set_row bitmap (length bitmap - 1) -> alignBitmap bitmap Bottom = bitmap)
  /\ (forall f, first_set_row bitmap f ->
        alignBitmap bitmap Top
        = drop f bitmap ++ replicate f (replicate (first_row_length bitmap) false))
  /\ (forall l, last_set_row bitmap l ->
        alignBitmap bitmap Bottom
        = replicate (length bitmap - 1 - l) (replicate (first_row_length bitmap) false)
          ++ take (S l) bitmap).
Proof.
  split.
  { destruct (scan_rows_spec bitmap) as [H | (f & l & Hscan & _ & Hf & Hl)];
      [left; assumption | right; eauto]. }
  split; [intros; apply alignBitmap_length |].
  split; [intros; apply alignBitmap_columns; assumption |].
  split; [intros; apply alignBitmap_blank; assumption |].
  split; [|split; [|split; [apply alignBitmap_top | apply alignBitmap_bottom]]].
  - intros Hf. rewrite (alignBitmap_top _ _ Hf). simpl. apply app_nil_r.
  - intros Hl. pose proof (has_pixel_at_lt _ _ (proj1 Hl)).
    rewrite (alignBitmap_bottom _ _ Hl).
    replace (length bitmap - 1 - (length bitmap - 1))%nat with 0%nat by lia.
    simpl. destruct bitmap; [reflexivity |]. simpl. f_equal. apply take_ge. simpl in *. lia.
Qed.

Lemma alignBitmap_spec_witness :
  alignBitmap glyph_T Top
  = [[true; true; true]; [false; true; false]; [false; false; false]; [false; false; false]]
  /\ alignBitmap glyph_T Bottom
     = [[false; false; false]; [false; false; false]; [true; true; true]; [false; true; false]]
  /\ Forall (fun row => length row = 3%nat) (alignBitmap glyph_T Bottom)
  /\ alignBitmap (blank_bitmap 2 2) Top = blank_bitmap 2 2.
Proof.
  destruct (alignBitmap_spec glyph_T) as (_ & _ & Hcols & _ & _ & _ & Htop & Hbottom).
  split; [|split; [|split]].
  - apply (Htop 1%nat). split; [reflexivity |].
    intros r Hr. assert (r = 0%nat) as -> by lia. reflexivity.
  - apply (Hbottom 2%nat). split; [reflexivity |].
    intros r Hr. unfold has_pixel_at.
    destruct r as [|[|[|[|r]]]]; try lia; reflexivity.
  - apply Hcols. repeat constructor.
  - apply (proj1 (proj2 (proj2 (proj2 (alignBitmap_spec (blank_bitmap 2 2)))))).
    intros r. destruct r as [|[|r]]; reflexivity.
Defined.

(** ** FormatConverter: the column scan *)

Lemma scan_pixel_inv bitmap minX0 vis st y x :
  scan_inv bitmap minX0 vis st ->
  scan_inv bitmap minX0 (vis ++ [(y, x)]) (scan_pixel bitmap y st x).
Proof.
  destruct st as [minX maxX]. unfold scan_inv, scan_pixel.
  intros (Hbound & Hwit).
  destruct (cell bitmap y x) eqn:Hcell.
  - split.
    + intros y' x' Hin Hc. apply elem_of_app in Hin as [Hin|Hin].
      * specialize (Hbound y' x' Hin Hc).
        destruct (Z.ltb_spec (Z.of_nat x) minX), (Z.ltb_spec maxX (Z.of_nat x)); lia.
      * apply list_elem_of_singleton in Hin. injection Hin as -> ->.
        destruct (Z.ltb_spec (Z.of_nat x) minX), (Z.ltb_spec maxX (Z.of_nat x)); lia.
    + right. split.
      * destruct (Z.ltb_spec maxX (Z.of_nat x)).
        -- exists y, x. split; [apply elem_of_app; right; left | auto].
        -- destruct Hwit as [[-> _] | [(y' & x' & Hin & Hc & ->) _]]; [lia |].
           exists y', x'. split; [apply elem_of_app; left; assumption | auto].
      * destruct (Z.ltb_spec (Z.of_nat x) minX).
        -- right. exists y, x. split; [apply elem_of_app; right; left | auto].
        -- destruct Hwit as [[_ ->] | [_ [->|(y' & x' & Hin & Hc & ->)]]]; auto.
           right. exists y', x'. split; [apply elem_of_app; left; assumption | auto].
  - split.
    + intros y' x' Hin Hc. apply elem_of_app in Hin as [Hin|Hin];
        [exact (Hbound _ _ Hin Hc) |].
      apply list_elem_of_singleton in Hin. injection Hin as -> ->. congruence.
    + destruct Hwit as [?|[(y' & x' & Hin & Hc & ->) Hmin]]; [left; assumption |].
      right. split.
      * exists y', x'. split; [apply elem_of_app; left; assumption | auto].
      * destruct Hmin as [->|(y'' & x'' & Hin' & Hc' & ->)]; [left; reflexivity |].
        right. exists y'', x''. split; [apply elem_of_app; left; assumption | auto].
Qed.

Lemma scan_row_inv bitmap minX0 y xs : forall vis st,
  scan_inv bitmap minX0 vis st ->
  scan_inv bitmap minX0 (vis ++ (pair y <$> xs)) (fold_left (scan_pixel bitmap y) xs st).
Proof.
  induction xs as [|x xs IH]; intros vis st Hinv; simpl.
  - rewrite app_nil_r. assumption.
  - rewrite cons_middle, app_assoc. apply IH, scan_pixel_inv, Hinv.
Qed.

Lemma scan_rows_inv bitmap minX0 bound ys : forall vis st,
  scan_inv bitmap minX0 vis st ->
  scan_inv bitmap minX0
    (vis ++ mjoin ((fun y => pair y <$> seq 0 (bound y)) <$> ys))
    (fold_left (fun st y => fold_left (scan_pixel bitmap y) (seq 0 (bound y)) st) ys st).
Proof.
  induction ys as [|y ys IH]; intros vis st Hinv; simpl.
  - rewrite app_nil_r. assumption.
  - rewrite app_assoc. apply IH, scan_row_inv, Hinv.
Qed.

Lemma scan_columns_inv bitmap h bound minX0 :
  scan_inv bitmap minX0 (scan_positions h bound) (scan_columns bitmap h bound minX0).
Proof.
  apply (scan_rows_inv bitmap minX0 bound (seq 0 h) [] (minX0, -1)).
  split; [intros y x Hin; inversion Hin | left; auto].
Qed.

Lemma elem_of_scan_positions h bound y x :
  (y, x) ∈ scan_positions h bound <-> (y < h)%nat /\ (x < bound y)%nat.
Proof.
  unfold scan_positions. rewrite list_elem_of_join. split.
  - intros (l & Hin & Hl). apply list_elem_of_fmap in Hl as (y' & -> & Hy').
    apply list_elem_of_fmap in Hin as (x' & Heq & Hx'). injection Heq as -> ->.
    apply elem_of_seq in Hy', Hx'. lia.
  - intros [Hy Hx]. exists (pair y <$> seq 0 (bound y)). split.
    + apply list_elem_of_fmap. exists x. split; [reflexivity | apply elem_of_seq; lia].
    + apply list_elem_of_fmap. exists y. split; [reflexivity | apply elem_of_seq; lia].
Qed.

Lemma cell_true_inv (m : matrix) y x :
  cell m y x = true -> (y < length m)%nat /\ (x < row_length m y)%nat.
Proof.
  unfold cell, row_length. destruct (m !! y) as [row|] eqn:Hrow; [|discriminate].
  destruct (row !! x) eqn:Hx; [|discriminate]. intros _.
  split; [eapply lookup_lt_Some, Hrow | eapply lookup_lt_Some, Hx].
Qed.

(** The scan over a whole matrix, as convertToDynamic runs it. *)
Lemma scan_columns_spec (m : matrix) (minX0 : Z) :
  let (minX, maxX) := scan_columns m (length m) (row_length m) minX0 in
  (forall y x, cell m y x = true -> minX <= Z.of_nat x <= maxX)
  /\ ((maxX = -1 /\ minX = minX0 /\ forall y x, cell m y x = false)
      \/ ((exists y x, cell m y x = true /\ maxX = Z.of_nat x)
          /\ (minX = minX0 \/ exists y x, cell m y x = true /\ minX = Z.of_nat x))).
Proof.
  pose proof (scan_columns_inv m (length m) (row_length m) minX0) as Hinv.
  destruct (scan_columns m (length m) (row_length m) minX0) as [minX maxX].
  destruct Hinv as (Hbound & Hwit).
  assert (Hall : forall y x, cell m y x = true -> minX <= Z.of_nat x <= maxX).
  { intros y x Hc. apply (Hbound y x); [|assumption].
    apply elem_of_scan_positions, cell_true_inv, Hc. }
  split; [assumption |].
  destruct Hwit as [[-> ->] | [(y & x & _ & Hc & ->) Hmin]].
  - left. split; [reflexivity |]. split; [reflexivity |].
    intros y x. destruct (cell m y x) eqn:Hc; [|reflexivity].
    specialize (Hall y x Hc). lia.
  - right. split; [eauto |].
    destruct Hmin as [->|(y' & x' & _ & Hc' & ->)]; [left; reflexivity | right; eauto].
Qed.

(** ** FormatConverter: fixed and dynamic widths *)

Lemma clamp_index_range len k : 0 <= len -> 0 <= clamp_index len k <= len.
Proof. intros H. unfold clamp_index. destruct (Z.ltb_spec k 0); lia. Qed.

(** The length of a slice depends on the length of the array only. *)
Lemma js_slice_length {A : Type} (l : list A) a b :
  length (js_slice l a b)
  = Z.to_nat (clamp_index (Z.of_nat (length l)) b - clamp_index (Z.of_nat (length l)) a).
Proof.
  unfold js_slice. rewrite length_take, length_drop.
  pose proof (clamp_index_range (Z.of_nat (length l)) a ltac:(lia)).
  pose proof (clamp_index_range (Z.of_nat (length l)) b ltac:(lia)).
  lia.
Qed.

Lemma js_slice_prefix {A : Type} (l : list A) n :
  0 <= n -> js_slice l 0 n = take (Z.to_nat n) l.
Proof.
  intros Hn. unfold js_slice, clamp_index. rewrite Z.ltb_irrefl.
  destruct (Z.ltb_spec n 0); [lia |].
  rewrite (Z.min_l 0) by lia. rewrite Z.sub_0_r.
  change (Z.to_nat 0) with 0%nat. rewrite drop_0.
  destruct (Z.le_ge_cases n (Z.of_nat (length l))).
  - rewrite Z.min_l by assumption. reflexivity.
  - rewrite Z.min_r by lia. rewrite Nat2Z.id, !take_ge by lia. reflexivity.
Qed.

Lemma rect_all_false h w (m : matrix) :
  rectangular h w m -> (forall y x, cell m y x = false) ->
  m = replicate h (replicate w false).
Proof.
  intros Hrect Hnone. rewrite (rectangular_tabulate _ _ _ Hrect), replicate_tabulate.
  apply tabulate_ext. intros; apply Hnone.
Qed.

Lemma rect_row_length h w (m : matrix) y :
  rectangular h w m -> (y < h)%nat -> row_length m y = w.
Proof.
  intros [Hlen Hrows] Hy. unfold row_length.
  destruct (lookup_lt_is_Some_2 m y) as [row Hrow]; [lia |]. rewrite Hrow.
  rewrite Forall_forall in Hrows. apply Hrows. eapply list_elem_of_lookup_2, Hrow.
Qed.

(** A blank glyph comes back blank, whatever its character. *)
Lemma roundtrip_blank (g : GeneratedChar) (w : nat) :
  rectangular (length (bitmap g)) w (bitmap g) ->
  (forall y x, cell (bitmap g) y x = false) ->
  bitmap (fixed_form (Z.of_nat w) (fst (dynamic_form (Z.of_nat w) 0 g))) = bitmap g.
Proof.
  intros Hrect Hnone.
  etransitivity; [|symmetry; exact (rect_all_false _ _ _ Hrect Hnone)].
  set (h := length (bitmap g)).
  unfold dynamic_form. destruct (jsstring_eqb (char g) SPACE).
  - set (sw := Z.to_nat (Z.max 1 (Z.of_nat w / 2))).
    unfold fixed_form. cbn [fst with_glyph bytes bitmap].
    rewrite length_replicate.
    destruct (Z.eqb_spec (Z.of_nat sw) (Z.of_nat w)) as [E|E].
    + cbn [bitmap with_glyph]. fold h. do 2 f_equal. lia.
    + destruct (Z.ltb_spec (Z.of_nat w) (Z.of_nat sw)); cbn [bitmap with_glyph]; fold h;
        rewrite fmap_replicate; f_equal.
      * rewrite js_slice_prefix by lia. rewrite take_replicate. f_equal. lia.
      * rewrite <- replicate_add. f_equal. lia.
  - pose proof (scan_columns_spec (bitmap g) (Z.of_nat (first_row_length (bitmap g)))) as Hscan.
    fold h in Hscan |- *.
    destruct (scan_columns _ _ _ _) as [minX maxX].
    destruct Hscan as (_ & [(-> & _ & _) | [(y & x & Hc & _) _]]);
      [|rewrite Hnone in Hc; discriminate].
    simpl (-1 =? -1). cbv iota.
    unfold fixed_form. cbn [fst with_glyph bytes bitmap length].
    destruct (Z.eqb_spec (Z.of_nat 0) (Z.of_nat w)) as [E|E].
    + cbn [bitmap with_glyph]. assert (w = 0%nat) as -> by lia. reflexivity.
    + destruct (Z.ltb_spec (Z.of_nat w) (Z.of_nat 0)); [lia |].
      cbn [bitmap with_glyph]. rewrite fmap_replicate. simpl. do 2 f_equal. lia.
Qed.

(** A glyph that starts in column 0 is trimmed on the right only, and the
    padding restores what was trimmed. *)
Lemma roundtrip_left_aligned (g : GeneratedChar) (w : nat) y0 :
  rectangular (length (bitmap g)) w (bitmap g) ->
  length (bytes g) = w ->
  char g <> SPACE -> cell (bitmap g) y0 0%nat = true ->
  bitmap (fixed_form (Z.of_nat w) (fst (dynamic_form (Z.of_nat w) 0 g))) = bitmap g.
Proof.
  intros Hrect Hbytes Hchar Hpix.
  unfold dynamic_form. rewrite (jsstring_eqb_neq _ _ Hchar).
  pose proof (scan_columns_spec (bitmap g) (Z.of_nat (first_row_length (bitmap g)))) as Hscan.
  destruct (scan_columns _ _ _ _) as [minX maxX].
  destruct Hscan as (Hall & Hwit).
  pose proof (Hall _ _ Hpix) as H0.
  destruct Hwit as [(_ & _ & Hnone) | [(y & mx & Hc & ->) Hmin]];
    [rewrite Hnone in Hpix; discriminate |].
  assert (Hmx : (mx < w)%nat).
  { destruct (cell_true_inv _ _ _ Hc) as [Hy Hx].
    rewrite (rect_row_length _ _ _ _ Hrect Hy) in Hx. assumption. }
  assert (minX = 0) as ->.
  { destruct Hmin as [->|(y' & x' & _ & ->)]; lia. }
  destruct (Z.eqb_spec (Z.of_nat mx) (-1)); [lia |].
  cbn [fst]. unfold fixed_form. cbn [with_glyph bytes bitmap].
  rewrite js_slice_prefix by lia.
  replace (Z.to_nat (Z.of_nat mx + 1)) with (S mx) by lia.
  rewrite length_take, Hbytes.
  replace (S mx `min` w)%nat with (S mx) by lia.
  assert (Hrows : forall i row, bitmap g !! i = Some row ->
            take (S mx) row ++ replicate (w - S mx) false = row).
  { intros i row Hrow.
    assert (Hlen : length row = w).
    { destruct Hrect as [_ Hr]. rewrite Forall_forall in Hr.
      apply Hr. eapply list_elem_of_lookup_2, Hrow. }
    apply list_eq. intros x.
    destruct (decide (x < S mx)%nat) as [Hx|Hx].
    - rewrite lookup_app_l by (rewrite length_take; lia).
      apply lookup_take_lt. assumption.
    - rewrite lookup_app_r by (rewrite length_take; lia).
      rewrite length_take.
      replace (S mx `min` length row)%nat with (S mx) by lia.
      destruct (decide (x < w)%nat) as [Hxw|Hxw].
      + rewrite lookup_replicate_2 by lia.
        destruct (lookup_lt_is_Some_2 row x) as [b Hb]; [lia |].
        rewrite Hb. f_equal. destruct b; [|reflexivity].
        assert (Hcx : cell (bitmap g) i x = true) by (unfold cell; rewrite Hrow, Hb; reflexivity).
        specialize (Hall _ _ Hcx). lia.
      + rewrite (lookup_ge_None_2 row) by lia.
        apply lookup_ge_None. rewrite length_replicate. lia. }
  destruct (Z.eqb_spec (Z.of_nat (S mx)) (Z.of_nat w)) as [E|E].
  - cbn [bitmap with_glyph]. apply list_eq. intros i. rewrite list_lookup_fmap.
    destruct (bitmap g !! i) as [row|] eqn:Hrow; [|reflexivity].
    simpl. f_equal. rewrite js_slice_prefix by lia.
    specialize (Hrows i row Hrow).
    replace (w - S mx)%nat with 0%nat in Hrows by lia.
    simpl in Hrows. rewrite app_nil_r in Hrows.
    replace (Z.to_nat (Z.of_nat mx + 1)) with (S mx) by lia. assumption.
  - destruct (Z.ltb_spec (Z.of_nat w) (Z.of_nat (S mx))); [lia |].
    cbn [bitmap with_glyph]. apply list_eq. intros i. rewrite !list_lookup_fmap.
    destruct (bitmap g !! i) as [row|] eqn:Hrow; [|reflexivity].
    simpl. f_equal. rewrite js_slice_prefix by lia.
    replace (Z.to_nat (Z.of_nat mx + 1)) with (S mx) by lia.
    replace (Z.to_nat (Z.of_nat w - Z.of_nat (S mx))) with (w - S mx)%nat by lia.
    apply (Hrows i). assumption.
Qed.

(** *** The converters and their closed forms *)

Lemma dynamic_of_form originalWidth maxWidth charData r :
  dynamic_of originalWidth maxWidth charData = Ok r ->
  r = dynamic_form originalWidth maxWidth charData.
Proof.
  unfold dynamic_of, dynamic_form.
  destruct (jsstring_eqb (char charData) SPACE).
  - destruct (new_array_fill (Z.max 1 (originalWidth / 2)) 0) as [zeros|e] eqn:Hz.
    + apply new_array_fill_inv in Hz as [Hw ->].
      rewrite (array_map_ok _ (replicate (Z.to_nat (Z.max 1 (originalWidth / 2))) false))
        by (intros; apply new_array_fill_ok; assumption).
      cbn [mbind result_bind]. intros H. injection H as <-. reflexivity.
    + destruct (array_map _ _); cbn [mbind result_bind]; discriminate.
  - destruct (scan_columns _ _ _ _) as [minX maxX].
    destruct (maxX =? -1); intros H; injection H as <-; reflexivity.
Qed.

Lemma dynamic_of_ok originalWidth maxWidth charData :
  (char charData = SPACE -> Z.max 1 (originalWidth / 2) < 2 ^ 32) ->
  dynamic_of originalWidth maxWidth charData
  = Ok (dynamic_form originalWidth maxWidth charData).
Proof.
  intros Hw. unfold dynamic_of, dynamic_form.
  destruct (jsstring_eqb (char charData) SPACE) eqn:Hsp.
  - apply jsstring_eqb_eq in Hsp. specialize (Hw Hsp).
    rewrite (array_map_ok _ (replicate (Z.to_nat (Z.max 1 (originalWidth / 2))) false))
      by (intros; apply new_array_fill_ok; lia).
    cbn [mbind result_bind]. rewrite new_array_fill_ok by lia. reflexivity.
  - destruct (scan_columns _ _ _ _) as [minX maxX].
    destruct (maxX =? -1); reflexivity.
Qed.

Lemma dynamic_form_fst originalWidth maxWidth charData :
  fst (dynamic_form originalWidth maxWidth charData)
  = fst (dynamic_form originalWidth 0 charData).
Proof.
  unfold dynamic_form. destruct (jsstring_eqb (char charData) SPACE); [reflexivity |].
  destruct (scan_columns _ _ _ _) as [minX maxX].
  destruct (maxX =? -1); reflexivity.
Qed.

(** The glyphs of a conversion to dynamic width that returned. *)
Lemma convertToDynamic_form fontData originalWidth newData maxWidth :
  convertToDynamic fontData originalWidth = Ok (newData, maxWidth) ->
  newData = (fun charData => fst (dynamic_form originalWidth 0 charData)) <$> fontData.
Proof.
  intros Hrun. apply convertToDynamic_inv in Hrun.
  induction Hrun as [|c g l gs (m & m' & Hc) _ IH]; [reflexivity |].
  rewrite fmap_cons. f_equal; [|exact IH].
  apply dynamic_of_form in Hc.
  rewrite <- (dynamic_form_fst originalWidth m c), <- Hc. reflexivity.
Qed.

(** The conversion to dynamic width returns when the space can be built. *)
Lemma convertToDynamic_returns fontData originalWidth :
  Z.max 1 (originalWidth / 2) < 2 ^ 32 ->
  exists maxWidth,
    convertToDynamic fontData originalWidth
    = Ok ((fun charData => fst (dynamic_form originalWidth 0 charData)) <$> fontData,
          maxWidth).
Proof.
  intros Hw.
  destruct (convertToDynamic_ok fontData originalWidth) as (newData & maxWidth & Hrun).
  - intros c _ m. eexists. apply dynamic_of_ok. intros _. assumption.
  - exists maxWidth. rewrite Hrun. f_equal. f_equal.
    eapply convertToDynamic_form. eassumption.
Qed.

Lemma fixed_of_form newWidth charData g :
  fixed_of newWidth charData = Ok g -> g = fixed_form newWidth charData.
Proof.
  unfold fixed_of, fixed_form.
  destruct (_ =? _); [intros H; injection H as <-; reflexivity |].
  destruct (_ <? _); [intros H; injection H as <-; reflexivity |].
  destruct (new_array_fill _ false) as [pad|e] eqn:Hpad; [|discriminate].
  apply new_array_fill_inv in Hpad as [Hw ->]. cbn [mbind result_bind].
  rewrite new_array_fill_ok by assumption. cbn [mbind result_bind].
  intros H. injection H as <-. reflexivity.
Qed.

Lemma fixed_of_ok newWidth charData :
  newWidth - Z.of_nat (length (bytes charData)) < 2 ^ 32 ->
  fixed_of newWidth charData = Ok (fixed_form newWidth charData).
Proof.
  intros Hw. unfold fixed_of, fixed_form.
  destruct (Z.eqb_spec (Z.of_nat (length (bytes charData))) newWidth); [reflexivity |].
  destruct (Z.ltb_spec newWidth (Z.of_nat (length (bytes charData)))); [reflexivity |].
  rewrite !new_array_fill_ok by lia. reflexivity.
Qed.

Lemma array_map_inv {A B : Type} (f : A -> result B) (l : list A) bs :
  array_map f l = Ok bs -> Forall2 (fun a b => f a = Ok b) l bs.
Proof.
  revert bs. induction l as [|a l IH]; intros bs Hrun; cbn [array_map] in Hrun.
  - injection Hrun as <-. constructor.
  - destruct (f a) as [b|e] eqn:Hb; [|discriminate]. cbn [mbind result_bind] in Hrun.
    destruct (array_map f l) as [rest|e]; [|discriminate].
    injection Hrun as <-. constructor; [assumption | apply IH; reflexivity].
Qed.

(** The glyphs of a conversion to fixed width that returned. *)
Lemma convertToFixed_form fontData newWidth newData :
  convertToFixed fontData newWidth = Ok newData ->
  newData = fixed_form newWidth <$> fontData.
Proof.
  intros Hrun. apply array_map_inv in Hrun.
  induction Hrun as [|c g l gs Hc _ IH]; [reflexivity |].
  rewrite fmap_cons. f_equal; [apply fixed_of_form; assumption | exact IH].
Qed.

(** The conversion to a fixed width below 2^32 returns. *)
Lemma convertToFixed_returns fontData newWidth :
  newWidth < 2 ^ 32 ->
  convertToFixed fontData newWidth = Ok (fixed_form newWidth <$> fontData).
Proof.
  intros Hw. apply array_map_fmap. intros c. apply fixed_of_ok. lia.
Qed.

(** C3, amended.  Converting glyph records of width [w] (the length of their
    rows and byte arrays, below 2^32) to dynamic width and back to fixed
    width [w] returns, and gives back the bitmap of every glyph that has no
    set pixel, and of every glyph other than the space that has a set pixel
    in column 0. *)
Theorem fixed_dynamic_fixed_roundtrip (fontData : list GeneratedChar) (w : nat)
    (i : nat) (g : GeneratedChar) :
  Z.of_nat w < 2 ^ 32 ->
  fontData !! i = Some g ->
  rectangular (length (bitmap g)) w (bitmap g) ->
  length (bytes g) = w ->
  left_aligned g ->
  exists newData maxWidth fixedData g',
    convertToDynamic fontData (Z.of_nat w) = Ok (newData, maxWidth)
    /\ convertToFixed newData (Z.of_nat w) = Ok fixedData
    /\ fixedData !! i = Some g'
    /\ bitmap g' = bitmap g.
Proof.
  intros Hw Hi Hrect Hbytes Hleft.
  destruct (convertToDynamic_returns fontData (Z.of_nat w)) as [maxWidth Hdyn];
    [pose proof (Z.div_le_upper_bound (Z.of_nat w) 2 (Z.of_nat w)); lia |].
  eexists _, maxWidth, _, _.
  split; [exact Hdyn |].
  split; [apply convertToFixed_returns; assumption |].
  rewrite !list_lookup_fmap, Hi. split; [reflexivity |].
  destruct Hleft as [Hnone | (Hchar & y0 & Hpix)].
  - apply roundtrip_blank; assumption.
  - eapply roundtrip_left_aligned; eassumption.
Qed.

Lemma fixed_dynamic_fixed_roundtrip_witness :
  exists newData maxWidth fixedData g',
    convertToDynamic [glyph_L] (Z.of_nat 3) = Ok (newData, maxWidth)
    /\ convertToFixed newData (Z.of_nat 3) = Ok fixedData
    /\ fixedData !! 0%nat = Some g'
    /\ bitmap g' = bitmap glyph_L.
Proof.
  apply (fixed_dynamic_fixed_roundtrip [glyph_L] 3 0 glyph_L).
  - reflexivity.
  - reflexivity.
  - split; [reflexivity | repeat constructor].
  - reflexivity.
  - right. split; [discriminate | exists 0%nat; reflexivity].
Defined.

(** C3 as stated fails: a glyph with an empty leading column comes back
    shifted to the left. *)
Lemma fixed_dynamic_fixed_shifts :
  rectangular 1 2 (bitmap glyph_indented)
  /\ length (bytes glyph_indented) = 2%nat
  /\ exists newData maxWidth fixedData,
       convertToDynamic [glyph_indented] 2 = Ok (newData, maxWidth)
       /\ convertToFixed newData 2 = Ok fixedData
       /\ bitmap <$> fixedData = [[[true; false]]]
       /\ bitmap <$> fixedData <> [bitmap glyph_indented].
Proof.
  split; [split; [reflexivity | repeat constructor] |].
  split; [reflexivity |].
  eexists _, _, _. split; [reflexivity |]. split; [reflexivity |].
  split; [reflexivity | discriminate].
Qed.

(** ** The invariants of glyph records *)

Lemma fits_height_zero h : fits_height h 0.
Proof. intros k _. apply Z.testbit_0_l. Qed.

Lemma Forall_js_slice {A : Type} (P : A -> Prop) (l : list A) a b :
  Forall P l -> Forall P (js_slice l a b).
Proof. intros H. unfold js_slice. apply Forall_take, Forall_drop, H. Qed.

Lemma rectangular_fmap h w w' (f : list bool -> list bool) (m : matrix) :
  rectangular h w m ->
  (forall row, length row = w -> length (f row) = w') ->
  rectangular h w' (f <$> m).
Proof.
  intros [Hlen Hrows] Hf. split; [rewrite length_fmap; assumption |].
  apply Forall_fmap. eapply Forall_impl; [exact Hrows |]. intros row Hrow. simpl. auto.
Qed.

Lemma rectangular_replicate h w (row : list bool) :
  length row = w -> rectangular h w (replicate h row).
Proof.
  intros Hrow. split; [apply length_replicate | apply Forall_replicate; assumption].
Qed.

Lemma glyph_wf_ok h g : 1 <= h -> glyph_wf h g -> glyph_ok h g.
Proof.
  intros Hh [Hrect Hfits]. split; [|assumption].
  symmetry. eapply first_row_length_rect; [eassumption | lia].
Qed.

(** A glyph whose bytes are the encoding of its bitmap. *)
Lemma encoded_glyph_wf h w ch a cp (m : matrix) :
  1 <= h <= 8 -> rectangular (Z.to_nat h) w m ->
  glyph_wf h {| char := ch; ascii := a; codePoint := cp; bitmap := m;
                bytes := bitmapToBytes m h |}.
Proof.
  intros Hh Hrect. unfold glyph_wf. cbn [bytes bitmap].
  rewrite bitmapToBytes_length, (first_row_length_rect _ _ _ Hrect) by lia.
  split; [assumption |].
  rewrite bitmapToBytes_fmap. apply Forall_fmap, Forall_forall. intros c _.
  apply encode_column_fits. lia.
Qed.

Lemma blank_glyph_wf ch h w : glyph_wf h (blank_glyph ch h w).
Proof.
  unfold glyph_wf, blank_glyph, blank_bitmap, zero_bytes. cbn [bytes bitmap].
  rewrite length_replicate. split.
  - apply rectangular_replicate, length_replicate.
  - apply Forall_replicate, fits_height_zero.
Qed.

Lemma array_map_err {A B : Type} (f : A -> result B) e (l : list A) :
  l <> [] -> (forall a, f a = Err e) -> array_map f l = Err e.
Proof. intros Hl Hf. destruct l as [|a l]; [congruence |]. simpl. rewrite Hf. reflexivity. Qed.

Lemma blank_char_inv options ch g :
  1 <= height options <= 8 -> blank_char options ch = Ok g ->
  exists w, g = blank_glyph ch (height options) w.
Proof.
  intros Hh Hrun. unfold blank_char in Hrun.
  set (tw := if dynamicWidth options then 0 else width options + charSpacing options) in *.
  rewrite (new_array_fill_ok (height options)) in Hrun by lia.
  cbn [mbind result_bind] in Hrun.
  destruct (new_array_fill tw 0) as [zeros|e] eqn:Hz.
  - apply new_array_fill_inv in Hz as [Htw ->].
    rewrite (array_map_ok _ (replicate (Z.to_nat tw) false)) in Hrun
      by (intros; apply new_array_fill_ok; assumption).
    cbn [mbind result_bind] in Hrun.
    injection Hrun as <-. exists tw. rewrite length_replicate. reflexivity.
  - destruct (array_map _ _); cbn [mbind result_bind] in Hrun; discriminate.
Qed.

Lemma final_bitmap_rect options ch h w (rendered m : matrix) :
  0 < width options -> h = Z.to_nat (height options) ->
  rectangular h w rendered ->
  final_bitmap options ch rendered = Ok m ->
  exists w', rectangular h w' m.
Proof.
  intros Hw -> Hrect Hrun. unfold final_bitmap in Hrun.
  destruct (dynamicWidth options).
  - destruct (jsstring_eqb ch SPACE).
    + apply array_from_fill_inv in Hrun as ->.
      eexists. apply rectangular_replicate. reflexivity.
    + destruct (scan_columns _ _ _ _) as [minX maxX].
      destruct (maxX =? -1).
      * unfold array_from in Hrun. destruct (2 ^ 32 <=? height options); [discriminate |].
        rewrite (array_from_aux_ok _ []) in Hrun by reflexivity.
        injection Hrun as <-. exists 0%nat. apply rectangular_replicate. reflexivity.
      * injection Hrun as <-. eexists.
        eapply rectangular_fmap; [eassumption |].
        intros row Hrow. rewrite js_slice_length, Hrow. reflexivity.
  - destruct (0 <? charSpacing options).
    + destruct (new_array_fill _ _) as [cols|e]; [|discriminate].
      cbn [mbind result_bind] in Hrun. injection Hrun as <-.
      eexists. eapply rectangular_fmap; [eassumption |].
      intros row Hrow. rewrite length_app, Hrow. reflexivity.
    + injection Hrun as <-. eexists. eassumption.
Qed.

Lemma generate_char_wf raster options ch g :
  0 < width options -> 1 <= height options <= 8 ->
  generate_char raster options ch = Ok g ->
  glyph_wf (height options) g.
Proof.
  intros Hw Hh Hrun. unfold generate_char in Hrun.
  destruct (trims_to_empty ch && negb (jsstring_eqb ch SPACE)).
  - destruct (blank_char_inv _ _ _ Hh Hrun) as [w ->]. apply blank_glyph_wf.
  - destruct (pixels raster options ch) as [set_pixels|e]; [|discriminate].
    cbn [mbind result_bind] in Hrun.
    destruct (final_bitmap _ _ _) as [m|e] eqn:Hm; simpl in Hrun; [|discriminate].
    injection Hrun as <-.
    destruct (final_bitmap_rect _ _ _ _ _ _ Hw eq_refl (tabulate_rectangular _ _ _) Hm)
      as [w' Hrect].
    eapply encoded_glyph_wf; eassumption.
Qed.

Lemma generateChars_wf raster options characters glyphs :
  1 <= height options <= 8 ->
  generateChars raster options characters = Ok glyphs ->
  Forall (glyph_wf (height options)) glyphs.
Proof.
  intros Hh Hrun.
  destruct (Z.le_gt_cases (width options) 0) as [Hw|Hw].
  - destruct (dynamicWidth options) eqn:Hd;
      [|destruct (Z.lt_ge_cases (charSpacing options) (2 ^ 32)) as [Hs|Hs]].
    + rewrite generateChars_degenerate in Hrun by (lia || auto).
      injection Hrun as <-.
      apply Forall_fmap, Forall_forall. intros ch _. apply blank_glyph_wf.
    + rewrite generateChars_degenerate in Hrun by (lia || auto).
      injection Hrun as <-.
      apply Forall_fmap, Forall_forall. intros ch _. apply blank_glyph_wf.
    + rewrite generateChars_huge_spacing in Hrun by assumption. discriminate.
  - pose proof (generateChars_collect_inv _ _ _ _ Hw Hrun) as Hall.
    clear Hrun. induction Hall as [|ch g chs gs Hg _ IH]; constructor; [|assumption].
    eapply generate_char_wf; [lia | eassumption | eassumption].
Qed.

(** The state of a loop that ran to completion satisfies what every
    successful iteration preserves. *)
Lemma for_from_ok_inv {St : Type} (P : nat -> St -> Prop) body n : forall i (s s' : St),
  for_from i n body s = Ok s' ->
  P i s ->
  (forall j t t', (i <= j < i + n)%nat -> P j t -> body j t = Ok t' ->
     P (S j) t') ->
  P (i + n)%nat s'.
Proof.
  induction n as [|n IH]; intros i s s' Hrun Hs Hstep; simpl in Hrun.
  - injection Hrun as <-. rewrite Nat.add_0_r. assumption.
  - destruct (body i s) as [t|e] eqn:Hb; simpl in Hrun; [|discriminate].
    replace (i + S n)%nat with (S i + n)%nat by lia.
    apply (IH (S i) t s' Hrun).
    + apply (Hstep i s t); [lia | assumption | assumption].
    + intros j u u' Hj. apply Hstep. lia.
Qed.

Lemma bytesToBitmap_inv bytes width height m :
  1 <= height <= 8 -> bytesToBitmap bytes width height = Ok m ->
  0 <= width < 2 ^ 32 /\ rectangular (Z.to_nat height) (Z.to_nat width) m.
Proof.
  intros Hh Hrun.
  destruct (decide (0 <= width < 2 ^ 32)) as [Hw|Hw].
  - rewrite bytesToBitmap_tabulate in Hrun by lia. injection Hrun as <-.
    split; [assumption | apply tabulate_rectangular].
  - rewrite bytesToBitmap_bad_width in Hrun by lia. discriminate.
Qed.

Lemma slice_exact_length {A : Type} (l : list A) a n :
  0 <= a -> 0 <= n -> a + n <= Z.of_nat (length l) ->
  length (js_slice l a (a + n)) = Z.to_nat n.
Proof.
  intros Ha Hn Hle. rewrite js_slice_length. unfold clamp_index.
  destruct (Z.ltb_spec (a + n) 0), (Z.ltb_spec a 0); lia.
Qed.

Lemma fixed_step_wf uniqueChars dataBytes charWidth charHeight i acc acc' :
  1 <= charHeight <= 8 -> 0 < charWidth ->
  Z.of_nat (length dataBytes) = Z.of_nat (length uniqueChars) * charWidth ->
  Forall (fits_height charHeight) dataBytes ->
  Forall (glyph_wf charHeight) acc ->
  fixed_step uniqueChars dataBytes charWidth charHeight i acc = Ok acc' ->
  Forall (glyph_wf charHeight) acc'.
Proof.
  intros Hh Hw Hlen Hfits Hacc Hrun. unfold fixed_step in Hrun.
  destruct (uniqueChars !! i) as [ch|] eqn:Hch; [|discriminate].
  apply lookup_lt_Some in Hch.
  destruct (bytesToBitmap _ _ _) as [m|e] eqn:Hm; simpl in Hrun; [|discriminate].
  injection Hrun as <-. apply Forall_app. split; [assumption |].
  constructor; [|constructor].
  destruct (bytesToBitmap_inv _ _ _ _ Hh Hm) as [_ Hrect].
  unfold glyph_wf. cbn [bytes bitmap].
  rewrite slice_exact_length by nia.
  split; [assumption | apply Forall_js_slice; assumption].
Qed.

Lemma dynamic_step_wf uniqueChars dataBytes widths offsets charHeight i st st' :
  1 <= charHeight <= 8 ->
  Forall (fits_height charHeight) dataBytes ->
  Forall (fun offset => 0 <= offset) offsets ->
  Forall (glyph_wf charHeight) (dyn_chars st) ->
  dynamic_step uniqueChars dataBytes widths offsets charHeight i st = Ok st' ->
  Forall (glyph_wf charHeight) (dyn_chars st').
Proof.
  intros Hh Hfits Hoff Hacc Hrun. unfold dynamic_step in Hrun.
  destruct (uniqueChars !! i) as [ch|]; [|discriminate].
  destruct (widths !! i) as [width|]; [|discriminate].
  destruct (offsets !! i) as [offset|] eqn:Ho; [|discriminate].
  destruct (Z.ltb_spec (Z.of_nat (length dataBytes)) (offset + width)); [discriminate |].
  destruct (bytesToBitmap _ _ _) as [m|e] eqn:Hm; simpl in Hrun; [|discriminate].
  injection Hrun as <-. cbn [dyn_chars]. apply Forall_app. split; [assumption |].
  constructor; [|constructor].
  destruct (bytesToBitmap_inv _ _ _ _ Hh Hm) as [Hwidth Hrect].
  assert (0 <= offset).
  { rewrite Forall_forall in Hoff. apply Hoff. eapply list_elem_of_lookup_2, Ho. }
  unfold glyph_wf. cbn [bytes bitmap].
  rewrite slice_exact_length by lia.
  split; [assumption | apply Forall_js_slice; assumption].
Qed.

Lemma parseImportedData_wf options parsed :
  parseImportedData options = Ok parsed ->
  Forall (fits_height (charHeight options)) (parseArrayString (rawData options)) ->
  (isDynamic options = true ->
   Forall (fun offset => 0 <= offset) (parseArrayString (rawOffsets options))) ->
  Forall (glyph_wf (charHeight options)) (fontData parsed).
Proof.
  intros Hrun Hfits Hoff. unfold parseImportedData in Hrun.
  destruct (Z.leb_spec (charHeight options) 0); [discriminate |].
  destruct (Z.ltb_spec 8 (charHeight options)); [discriminate |].
  simpl orb in Hrun. cbv iota in Hrun.
  destruct (isDynamic options).
  - destruct (_ && _); [discriminate |].
    destruct (_ && _); [discriminate |].
    destruct (for_loop _ _ _) as [st|e] eqn:Hloop; simpl in Hrun; [|discriminate].
    injection Hrun as <-. cbn [fontData].
    apply (for_from_ok_inv (fun _ st => Forall (glyph_wf (charHeight options)) (dyn_chars st))
             _ _ _ _ _ Hloop); [constructor |].
    intros j t t' _ Ht Hstep.
    eapply dynamic_step_wf; [lia | eassumption | apply Hoff; reflexivity | eassumption | eassumption].
  - destruct (Z.leb_spec (charWidth options) 0); [discriminate |].
    destruct (_ && _); [discriminate |].
    destruct (Nat.ltb_spec 0 (length (unique_chars (characterSet options)))) as [Hn|Hn].
    + destruct (Z.eqb_spec (Z.of_nat (length (parseArrayString (rawData options))))
                  (Z.of_nat (length (unique_chars (characterSet options))) * charWidth options))
        as [Hlen|]; [|discriminate].
      simpl in Hrun.
      destruct (for_loop _ _ _) as [acc|e] eqn:Hloop; simpl in Hrun; [|discriminate].
      injection Hrun as <-. cbn [fontData].
      apply (for_from_ok_inv (fun _ acc => Forall (glyph_wf (charHeight options)) acc)
               _ _ _ _ _ Hloop); [constructor |].
      intros j t t' _ Ht Hstep.
      eapply fixed_step_wf; [| | exact Hlen | | |]; try eassumption; lia.
    + rewrite andb_false_r in Hrun.
      replace (length (unique_chars (characterSet options))) with 0%nat in Hrun by lia.
      simpl in Hrun. injection Hrun as <-. constructor.
Qed.

Lemma fits_height_small h byte : 0 <= h -> 0 <= byte < 2 ^ h -> fits_height h byte.
Proof.
  intros Hh Hb k Hk. apply (Z.bounded_iff_bits_nonneg h byte); [lia | lia | lia | assumption].
Qed.

Lemma dynamic_of_wf h originalWidth maxWidth g :
  glyph_wf h g -> glyph_wf h (fst (dynamic_form originalWidth maxWidth g)).
Proof.
  intros [Hrect Hfits]. pose proof Hrect as [Hlen _]. unfold dynamic_form.
  destruct (jsstring_eqb (char g) SPACE).
  - unfold glyph_wf. cbn [fst with_glyph bytes bitmap]. rewrite length_replicate, Hlen.
    split; [apply rectangular_replicate, length_replicate |].
    apply Forall_replicate, fits_height_zero.
  - destruct (scan_columns _ _ _ _) as [minX maxX]. destruct (maxX =? -1).
    + unfold glyph_wf. cbn [fst with_glyph bytes bitmap length]. rewrite Hlen.
      split; [apply rectangular_replicate; reflexivity | constructor].
    + unfold glyph_wf. cbn [fst with_glyph bytes bitmap]. split.
      * eapply rectangular_fmap; [eassumption |].
        intros row Hrow. rewrite !js_slice_length, Hrow. reflexivity.
      * apply Forall_js_slice. assumption.
Qed.

Lemma fixed_of_wf h newWidth g : glyph_wf h g -> glyph_wf h (fixed_form newWidth g).
Proof.
  intros [Hrect Hfits]. unfold fixed_form.
  destruct (_ =? _); [split; assumption |].
  destruct (_ <? _); unfold glyph_wf; cbn [with_glyph bytes bitmap]; split.
  - eapply rectangular_fmap; [eassumption |].
    intros row Hrow. rewrite !js_slice_length, Hrow. reflexivity.
  - apply Forall_js_slice. assumption.
  - eapply rectangular_fmap; [eassumption |].
    intros row Hrow. rewrite !length_app, !length_replicate, Hrow. reflexivity.
  - apply Forall_app. split; [assumption | apply Forall_replicate, fits_height_zero].
Qed.

Lemma realign_wf h dir g : 1 <= h <= 8 -> glyph_wf h g -> glyph_wf h (realign h dir g).
Proof.
  intros Hh [[Hlen Hrows] _]. unfold realign.
  apply (encoded_glyph_wf h (length (bytes g))); [assumption |].
  split; [rewrite alignBitmap_length; assumption | apply alignBitmap_columns; assumption].
Qed.

(** C2, amended.  For heights 1 to 8, every glyph generateChars produces has
    as many bytes as its bitmap has columns and no bit at a position >= height.
    The glyphs parseImportedData produces carry the imported data bytes as
    they are: they have the two properties when the data bytes have no bit at
    a position >= height and, in dynamic mode, no offset is negative.
    convertToDynamic, convertToFixed and the realignment preserve the two
    properties. *)
Theorem glyph_invariants :
  (forall (raster : rasterizer) (options : FontGeneratorOptions)
          (characters : list jsstring) (glyphs : list GeneratedChar),
     1 <= height options <= 8 ->
     generateChars raster options characters = Ok glyphs ->
     Forall (glyph_wf (height options)) glyphs)
  /\ (forall (options : ImportOptions) (parsed : ParsedFontData),
        parseImportedData options = Ok parsed ->
        Forall (fits_height (charHeight options)) (parseArrayString (rawData options)) ->
        (isDynamic options = true ->
         Forall (fun offset => 0 <= offset) (parseArrayString (rawOffsets options))) ->
        Forall (glyph_wf (charHeight options)) (fontData parsed))
  /\ (forall h (fontData : list GeneratedChar) (originalWidth : Z)
             (newData : list GeneratedChar) (maxWidth : Z),
        Forall (glyph_wf h) fontData ->
        convertToDynamic fontData originalWidth = Ok (newData, maxWidth) ->
        Forall (glyph_wf h) newData)
  /\ (forall h (fontData : list GeneratedChar) (newWidth : Z)
             (newData : list GeneratedChar),
        Forall (glyph_wf h) fontData ->
        convertToFixed fontData newWidth = Ok newData ->
        Forall (glyph_wf h) newData)
  /\ (forall h dir (g : GeneratedChar),
        1 <= h <= 8 -> glyph_wf h g -> glyph_wf h (realign h dir g))
  /\ (forall h (g : GeneratedChar), 1 <= h -> glyph_wf h g -> glyph_ok h g).
Proof.
  split; [exact generateChars_wf |].
  split; [exact parseImportedData_wf |].
  split; [|split; [|split; [exact realign_wf | exact glyph_wf_ok]]].
  - intros h fontData originalWidth newData maxWidth Hall Hrun.
    rewrite (convertToDynamic_form _ _ _ _ Hrun).
    apply Forall_fmap. eapply Forall_impl; [exact Hall |].
    intros g Hg. apply dynamic_of_wf. assumption.
  - intros h fontData newWidth newData Hall Hrun.
    rewrite (convertToFixed_form _ _ _ Hrun).
    apply Forall_fmap. eapply Forall_impl; [exact Hall |].
    intros g Hg. apply fixed_of_wf. assumption.
Qed.

Lemma glyph_invariants_witness :
  (exists glyphs,
     generateChars solid (options_3x2 3 1 true) [lit "A"; SPACE; NEWLINE] = Ok glyphs
     /\ Forall (glyph_ok 2) glyphs)
  /\ (exists parsed,
        parseImportedData import_fixed_AB = Ok parsed
        /\ Forall (glyph_ok 8) (fontData parsed)
        /\ (exists newData maxWidth,
              convertToDynamic (fontData parsed) 2 = Ok (newData, maxWidth)
              /\ Forall (glyph_ok 8) newData)
        /\ Forall (glyph_ok 8) (realign 8 Top <$> fontData parsed)).
Proof.
  destruct glyph_invariants as (Hgen & Himp & Hdyn & _ & Halign & Hok).
  assert (Hoks : forall h l, 1 <= h -> Forall (glyph_wf h) l -> Forall (glyph_ok h) l).
  { intros h l Hh Hl. eapply Forall_impl; [exact Hl |]. intros g. apply Hok. assumption. }
  split.
  - eexists. split; [vm_compute; reflexivity |].
    apply Hoks; [lia |].
    apply (Hgen solid (options_3x2 3 1 true) [lit "A"; SPACE; NEWLINE]);
      [simpl; lia | vm_compute; reflexivity].
  - destruct (parseImportedData import_fixed_AB) as [parsed|e] eqn:Hrun;
      [|vm_compute in Hrun; discriminate].
    assert (Hwf : Forall (glyph_wf 8) (fontData parsed)).
    { apply (Himp import_fixed_AB parsed Hrun); [|discriminate].
      assert (Hdata : parseArrayString (rawData import_fixed_AB) = [128; 64; 1; 2])
        by (vm_compute; reflexivity).
      rewrite Hdata. repeat constructor; apply fits_height_small; simpl; lia. }
    exists parsed. split; [reflexivity |].
    split; [apply Hoks; [lia | assumption] |].
    split.
    { destruct (convertToDynamic_returns (fontData parsed) 2) as [maxWidth Hconv];
        [reflexivity |].
      eexists _, maxWidth. split; [exact Hconv |].
      apply Hoks; [lia |]. eapply Hdyn; eassumption. }
    apply Hoks; [lia |]. apply Forall_fmap. eapply Forall_impl; [exact Hwf |].
    intros g Hg. apply Halign; [lia | assumption].
Defined.

(** C2 as stated fails on import: the data bytes are stored as they are, and
    a byte of a one-row font may have bits above row 0. *)
Lemma import_keeps_high_bits :
  exists parsed,
    parseImportedData import_high_bits = Ok parsed
    /\ (bytes <$> fontData parsed) = [[255]]
    /\ ~ Forall (glyph_ok (charHeight import_high_bits)) (fontData parsed).
Proof.
  eexists. split; [vm_compute; reflexivity |]. split; [reflexivity |].
  intros H. inversion H as [|g l [_ Hfits] _]; subst.
  inversion Hfits as [|b l' Hb _]; subst.
  specialize (Hb 7 ltac:(simpl; lia)). discriminate.
Qed.

(** ** Undo and redo *)

Lemma history_set_index {T : Type} (value : T) (h : UseHistory.t T) :
  (UseHistory.index h < length (UseHistory.history h))%nat ->
  UseHistory.history (UseHistory.set value h)
  = take (S (UseHistory.index h)) (UseHistory.history h) ++ [value]
  /\ UseHistory.index (UseHistory.set value h) = S (UseHistory.index h).
Proof.
  intros Hi. unfold UseHistory.set. cbn [UseHistory.history UseHistory.index].
  rewrite js_slice_prefix by lia.
  replace (Z.to_nat (Z.of_nat (UseHistory.index h) + 1)) with (S (UseHistory.index h)) by lia.
  split; [reflexivity |].
  rewrite length_app, length_take, Nat.min_l by lia. cbn [length]. lia.
Qed.


(** X2.  After [set value] on a history whose index is in range, the current state
    is [value], redo is disabled and undo is enabled; undoing gives back the
    state before the set, and redoing after that undo restores the history as
    the set left it. *)
Theorem history_set_undo_redo {T : Type} (value : T) (h : UseHistory.t T) :
  (UseHistory.index h < length (UseHistory.history h))%nat ->
  UseHistory.state (UseHistory.set value h) = Some value
  /\ UseHistory.canRedo (UseHistory.set value h) = false
  /\ UseHistory.canUndo (UseHistory.set value h) = true
  /\ UseHistory.state (UseHistory.undo (UseHistory.set value h)) = UseHistory.state h
  /\ UseHistory.redo (UseHistory.undo (UseHistory.set value h)) = UseHistory.set value h.
Proof.
  intros Hi. destruct (history_set_index value h Hi) as [Hhist Hidx].
  assert (Hlen : length (UseHistory.history (UseHistory.set value h))
                 = S (S (UseHistory.index h))).
  { rewrite Hhist, length_app, length_take. cbn [length]. lia. }
  split; [|split; [|split; [|split]]].
  - unfold UseHistory.state. rewrite Hhist, Hidx.
    rewrite lookup_app_r by (rewrite length_take; lia).
    rewrite length_take. replace (S (UseHistory.index h) - _)%nat with 0%nat by lia.
    reflexivity.
  - unfold UseHistory.canRedo. rewrite Hlen, Hidx.
    destruct (Z.ltb_spec (Z.of_nat (S (UseHistory.index h)))
                (Z.of_nat (S (S (UseHistory.index h))) - 1)); [lia | reflexivity].
  - unfold UseHistory.canUndo. rewrite Hidx. reflexivity.
  - unfold UseHistory.undo, UseHistory.state. rewrite Hidx.
    change (0 <? S (UseHistory.index h))%nat with true.
    cbn [UseHistory.history UseHistory.index].
    rewrite Hhist, Nat.sub_1_r, Nat.pred_succ.
    rewrite lookup_app_l by (rewrite length_take; lia).
    apply lookup_take_lt. lia.
  - unfold UseHistory.undo. rewrite Hidx.
    change (0 <? S (UseHistory.index h))%nat with true. cbv iota.
    unfold UseHistory.redo. cbn [UseHistory.history UseHistory.index].
    rewrite Hlen, Nat.sub_1_r, Nat.pred_succ.
    destruct (Z.ltb_spec (Z.of_nat (UseHistory.index h))
                (Z.of_nat (S (S (UseHistory.index h))) - 1)); [|lia].
    destruct (UseHistory.set value h) as [hist idx] eqn:E.
    cbn [UseHistory.history UseHistory.index] in *.
    subst idx. f_equal. lia.
Qed.

Lemma history_set_undo_redo_witness :
  let h := UseHistory.run [UseHistory.CallSet 2%nat; UseHistory.CallSet 3%nat; UseHistory.CallUndo]
             (UseHistory.init 1%nat) in
  UseHistory.state (UseHistory.set 7%nat h) = Some 7%nat
  /\ UseHistory.canRedo (UseHistory.set 7%nat h) = false
  /\ UseHistory.canUndo (UseHistory.set 7%nat h) = true
  /\ UseHistory.state (UseHistory.undo (UseHistory.set 7%nat h)) = UseHistory.state h
  /\ UseHistory.redo (UseHistory.undo (UseHistory.set 7%nat h)) = UseHistory.set 7%nat h.
Proof.
  apply (history_set_undo_redo 7%nat
           (UseHistory.run [UseHistory.CallSet 2%nat; UseHistory.CallSet 3%nat; UseHistory.CallUndo]
              (UseHistory.init 1%nat))).
  simpl. lia.
Defined.

(** X3.  On a history whose index is in range, undo and redo are inverse of each
    other whenever the first of the two is enabled, each is the identity when
    it is disabled, and neither changes the list of recorded states. *)
Theorem history_undo_redo_inverse {T : Type} (h : UseHistory.t T) :
  (UseHistory.index h < length (UseHistory.history h))%nat ->
  (UseHistory.canUndo h = true -> UseHistory.redo (UseHistory.undo h) = h)
  /\ (UseHistory.canRedo h = true -> UseHistory.undo (UseHistory.redo h) = h)
  /\ (UseHistory.canUndo h = false -> UseHistory.undo h = h)
  /\ (UseHistory.canRedo h = false -> UseHistory.redo h = h)
  /\ UseHistory.history (UseHistory.undo h) = UseHistory.history h
  /\ UseHistory.history (UseHistory.redo h) = UseHistory.history h.
Proof.
  destruct h as [hist idx].
  unfold UseHistory.canUndo, UseHistory.canRedo, UseHistory.undo, UseHistory.redo.
  cbn [UseHistory.history UseHistory.index]. intros Hi.
  split; [|split; [|split; [|split; [|split]]]].
  - intros Hu. rewrite Hu. cbn [UseHistory.history UseHistory.index].
    apply Nat.ltb_lt in Hu.
    destruct (Z.ltb_spec (Z.of_nat (idx - 1)) (Z.of_nat (length hist) - 1)); [|lia].
    f_equal. lia.
  - intros Hr. rewrite Hr. cbn [UseHistory.history UseHistory.index].
    destruct (Nat.ltb_spec 0 (idx + 1)); [|lia]. f_equal. lia.
  - intros Hu. rewrite Hu. reflexivity.
  - intros Hr. rewrite Hr. reflexivity.
  - destruct (0 <? idx)%nat; reflexivity.
  - destruct (_ <? _); reflexivity.
Qed.

Lemma history_undo_redo_inverse_witness :
  let h := UseHistory.run [UseHistory.CallSet 2%nat; UseHistory.CallSet 3%nat; UseHistory.CallUndo]
             (UseHistory.init 1%nat) in
  UseHistory.redo (UseHistory.undo h) = h /\ UseHistory.undo (UseHistory.redo h) = h.
Proof.
  pose proof (history_undo_redo_inverse
                (UseHistory.run [UseHistory.CallSet 2%nat; UseHistory.CallSet 3%nat;
                                 UseHistory.CallUndo] (UseHistory.init 1%nat)))
    as H.
  destruct H as (Hu & Hr & _); [simpl; lia |].
  split; [apply Hu; reflexivity | apply Hr; reflexivity].
Defined.

(** ** The glyph editor *)

Lemma rect_lookup h w (m : matrix) y :
  rectangular h w m -> (y < h)%nat -> exists row, m !! y = Some row /\ length row = w.
Proof.
  intros [Hlen Hrows] Hy.
  destruct (lookup_lt_is_Some_2 m y) as [row Hrow]; [lia |].
  exists row. split; [assumption |].
  rewrite Forall_forall in Hrows. apply Hrows. eapply list_elem_of_lookup_2, Hrow.
Qed.

Lemma cell_row (m : matrix) y row x :
  m !! y = Some row -> cell m y x = match row !! x with Some b => b | None => false end.
Proof. intros H. unfold cell. rewrite H. reflexivity. Qed.

Lemma cell_out_row (m : matrix) y x : (length m <= y)%nat -> cell m y x = false.
Proof. intros H. unfold cell. rewrite lookup_ge_None_2 by assumption. reflexivity. Qed.

(** Two matrices of the same shape with the same pixels are equal. *)
Lemma rect_ext h w (m m' : matrix) :
  rectangular h w m -> rectangular h w m' ->
  (forall y x, (y < h)%nat -> (x < w)%nat -> cell m y x = cell m' y x) ->
  m = m'.
Proof.
  intros Hm Hm' Hcells.
  rewrite (rectangular_tabulate _ _ _ Hm), (rectangular_tabulate _ _ _ Hm').
  apply tabulate_ext. intros; apply Hcells; assumption.
Qed.

Lemma pop_length {A : Type} (l : list A) : length (pop l) = (length l - 1)%nat.
Proof. unfold pop. rewrite length_take. lia. Qed.

Lemma handleShift_rect dir h w (m : matrix) :
  rectangular h w m -> rectangular h w (handleShift dir m).
Proof.
  intros Hrect. pose proof Hrect as [Hlen Hrows]. unfold handleShift.
  destruct (Nat.eqb_spec (length m) 0) as [E|Hh]; [assumption |].
  assert (Hw : first_row_length m = w)
    by (eapply first_row_length_rect; [eassumption | lia]).
  rewrite Hw.
  destruct (Nat.eqb_spec w 0) as [->|Hw0]; destruct dir; simpl andb; cbv iota;
    try assumption.
  - split; [rewrite length_app, length_drop; simpl; lia |].
    apply Forall_app. split; [apply Forall_drop; assumption | repeat constructor].
  - split; [simpl; rewrite pop_length; lia |].
    constructor; [reflexivity | apply Forall_take; assumption].
  - split; [rewrite length_app, length_drop; simpl; lia |].
    apply Forall_app. split; [apply Forall_drop; assumption |].
    repeat constructor. apply length_replicate.
  - split; [simpl; rewrite pop_length; lia |].
    constructor; [apply length_replicate | apply Forall_take; assumption].
  - eapply rectangular_fmap; [eassumption |].
    intros row Hrow. rewrite length_app, length_drop. simpl. lia.
  - eapply rectangular_fmap; [eassumption |].
    intros row Hrow. rewrite pop_length. simpl. lia.
Qed.

Lemma handleShift_cell dir h w (m : matrix) y x :
  rectangular h w m -> (y < h)%nat -> (x < w)%nat ->
  cell (handleShift dir m) y x
  = match dir with
    | ShiftUp => cell m (S y) x
    | ShiftDown => match y with O => false | S y' => cell m y' x end
    | ShiftLeft => cell m y (S x)
    | ShiftRight => match x with O => false | S x' => cell m y x' end
    end.
Proof.
  intros Hrect Hy Hx. pose proof Hrect as [Hlen Hrows]. unfold handleShift.
  destruct (Nat.eqb_spec (length m) 0) as [E|Hh]; [lia |].
  assert (Hw : first_row_length m = w)
    by (eapply first_row_length_rect; [eassumption | lia]).
  rewrite Hw. destruct (Nat.eqb_spec w 0) as [->|Hw0]; [lia |]. simpl andb. cbv iota.
  destruct dir.
  - unfold cell at 1.
    destruct (decide (S y < h)%nat) as [Hy'|Hy'].
    + rewrite lookup_app_l by (rewrite length_drop; lia).
      rewrite lookup_drop. reflexivity.
    + rewrite lookup_app_r by (rewrite length_drop; lia).
      rewrite length_drop. replace (y - (length m - 1))%nat with 0%nat by lia.
      simpl. rewrite lookup_replicate_2 by assumption.
      symmetry. apply cell_out_row. lia.
  - destruct y as [|y'].
    + unfold cell. simpl. rewrite lookup_replicate_2 by assumption. reflexivity.
    + unfold cell. simpl. unfold pop. rewrite lookup_take_lt by lia. reflexivity.
  - destruct (rect_lookup _ _ _ y Hrect Hy) as (row & Hrow & Hrlen).
    rewrite (cell_row _ _ _ _ Hrow).
    unfold cell. rewrite list_lookup_fmap, Hrow. simpl.
    destruct (decide (S x < w)%nat) as [Hx'|Hx'].
    + rewrite lookup_app_l by (rewrite length_drop; lia).
      rewrite lookup_drop. reflexivity.
    + rewrite lookup_app_r by (rewrite length_drop; lia).
      rewrite length_drop. replace (x - (length row - 1))%nat with 0%nat by lia.
      simpl. rewrite (lookup_ge_None_2 row) by lia. reflexivity.
  - destruct (rect_lookup _ _ _ y Hrect Hy) as (row & Hrow & Hrlen).
    unfold cell. rewrite list_lookup_fmap, Hrow. simpl.
    unfold pop. simpl. rewrite Nat.sub_0_r.
    rewrite lookup_take_lt by lia.
    destruct x as [|x']; reflexivity.
Qed.

(** X4.  handleShift keeps the shape of a rectangular bitmap and moves every pixel
    by one cell in the given direction: the row or column that enters is
    blank, the one that leaves is lost. *)
Theorem handleShift_moves_pixels (dir : shift_direction) (h w : nat) (m : matrix) :
  rectangular h w m ->
  rectangular h w (handleShift dir m)
  /\ forall y x, (y < h)%nat -> (x < w)%nat ->
       cell (handleShift dir m) y x
       = match dir with
         | ShiftUp => cell m (S y) x
         | ShiftDown => match y with O => false | S y' => cell m y' x end
         | ShiftLeft => cell m y (S x)
         | ShiftRight => match x with O => false | S x' => cell m y x' end
         end.
Proof.
  intros Hrect. split; [apply handleShift_rect; assumption |].
  intros y x Hy Hx. apply handleShift_cell with (h := h) (w := w); assumption.
Qed.

Lemma handleShift_moves_pixels_witness :
  rectangular 4 3 (handleShift ShiftLeft glyph_T)
  /\ forall y x, (y < 4)%nat -> (x < 3)%nat ->
       cell (handleShift ShiftLeft glyph_T) y x = cell glyph_T y (S x).
Proof.
  apply (handleShift_moves_pixels ShiftLeft 4 3 glyph_T).
  split; [reflexivity | repeat constructor].
Defined.

(** X5.  Shifting back restores a rectangular bitmap when nothing was lost: left
    then right when column 0 is blank, right then left when the last column is
    blank, up then down when row 0 is blank, down then up when the last row is
    blank. *)
Theorem handleShift_round_trips (h w : nat) (m : matrix) :
  rectangular h w m ->
  ((forall y, cell m y 0%nat = false) ->
   handleShift ShiftRight (handleShift ShiftLeft m) = m)
  /\ ((forall y, cell m y (w - 1)%nat = false) ->
      handleShift ShiftLeft (handleShift ShiftRight m) = m)
  /\ ((forall x, cell m 0%nat x = false) ->
      handleShift ShiftDown (handleShift ShiftUp m) = m)
  /\ ((forall x, cell m (h - 1)%nat x = false) ->
      handleShift ShiftUp (handleShift ShiftDown m) = m).
Proof.
  intros Hrect.
  assert (Hs : forall d, rectangular h w (handleShift d m))
    by (intros; apply handleShift_rect; assumption).
  assert (Hss : forall d d', rectangular h w (handleShift d' (handleShift d m)))
    by (intros; apply handleShift_rect, Hs).
  split; [|split; [|split]]; intros Hblank;
    apply (rect_ext h w); try apply Hss; try assumption; intros y x Hy Hx.
  - rewrite (handleShift_cell ShiftRight h w) by (try apply Hs; assumption).
    destruct x as [|x']; [symmetry; apply Hblank |].
    rewrite (handleShift_cell ShiftLeft h w) by (try assumption; lia). reflexivity.
  - rewrite (handleShift_cell ShiftLeft h w) by (try apply Hs; assumption).
    destruct (decide (S x < w)%nat) as [Hx'|Hx'].
    + rewrite (handleShift_cell ShiftRight h w) by assumption. reflexivity.
    + replace x with (w - 1)%nat by lia. rewrite Hblank.
      destruct (rect_lookup _ _ _ y (Hs ShiftRight) Hy) as (row & Hrow & Hrlen).
      rewrite (cell_row _ _ _ _ Hrow), (lookup_ge_None_2 row) by lia. reflexivity.
  - rewrite (handleShift_cell ShiftDown h w) by (try apply Hs; assumption).
    destruct y as [|y']; [symmetry; apply Hblank |].
    rewrite (handleShift_cell ShiftUp h w) by (try assumption; lia). reflexivity.
  - rewrite (handleShift_cell ShiftUp h w) by (try apply Hs; assumption).
    destruct (decide (S y < h)%nat) as [Hy'|Hy'].
    + rewrite (handleShift_cell ShiftDown h w) by assumption. reflexivity.
    + replace y with (h - 1)%nat by lia. rewrite Hblank.
      apply cell_out_row. destruct (Hs ShiftDown) as [-> _]. lia.
Qed.

Lemma handleShift_round_trips_witness :
  handleShift ShiftRight (handleShift ShiftLeft [[false; true; true]; [false; false; true]])
  = [[false; true; true]; [false; false; true]]
  /\ handleShift ShiftUp (handleShift ShiftDown glyph_T) = glyph_T.
Proof.
  split.
  - apply (proj1 (handleShift_round_trips 2 3 [[false; true; true]; [false; false; true]]
                    ltac:(split; [reflexivity | repeat constructor]))).
    intros [|[|y]]; reflexivity.
  - apply (proj2 (proj2 (proj2 (handleShift_round_trips 4 3 glyph_T
                    ltac:(split; [reflexivity | repeat constructor]))))).
    intros [|[|[|x]]]; reflexivity.
Defined.

(** X6.  handlePixelToggle is an involution; it keeps the length of every row,
    changes no other cell, negates the addressed pixel when it exists and
    changes nothing when it does not. *)
Theorem handlePixelToggle_spec (x y : nat) (m : matrix) :
  handlePixelToggle x y (handlePixelToggle x y m) = m
  /\ (length <$> handlePixelToggle x y m) = (length <$> m)
  /\ (forall y' x', (y', x') <> (y, x) ->
        cell (handlePixelToggle x y m) y' x' = cell m y' x')
  /\ (forall row, m !! y = Some row -> (x < length row)%nat ->
        cell (handlePixelToggle x y m) y x = negb (cell m y x))
  /\ ((forall row, m !! y = Some row -> (length row <= x)%nat) ->
        handlePixelToggle x y m = m).
Proof.
  unfold handlePixelToggle.
  destruct (m !! y) as [row|] eqn:Hrow.
  - destruct (row !! x) as [b|] eqn:Hb.
    + assert (Hy : (y < length m)%nat) by (eapply lookup_lt_Some, Hrow).
      assert (Hx : (x < length row)%nat) by (eapply lookup_lt_Some, Hb).
      split; [|split; [|split; [|split]]].
      * rewrite list_lookup_insert_eq by assumption.
        rewrite list_lookup_insert_eq by assumption.
        rewrite list_insert_insert_eq, list_insert_insert_eq, negb_involutive.
        rewrite (list_insert_id row) by assumption. apply list_insert_id. assumption.
      * rewrite list_fmap_insert, length_insert. apply list_insert_id.
        rewrite list_lookup_fmap, Hrow. reflexivity.
      * intros y' x' Hne. unfold cell.
        destruct (decide (y' = y)) as [->|Hy'].
        -- rewrite list_lookup_insert_eq by assumption. rewrite Hrow.
           rewrite list_lookup_insert_ne by congruence. reflexivity.
        -- rewrite list_lookup_insert_ne by congruence. reflexivity.
      * intros row' Hrow' _. injection Hrow' as <-. unfold cell.
        rewrite list_lookup_insert_eq by assumption. rewrite Hrow, Hb.
        rewrite list_lookup_insert_eq by assumption. reflexivity.
      * intros Hout. specialize (Hout row eq_refl). lia.
    + rewrite Hrow, Hb. split; [reflexivity |]. split; [reflexivity |].
      split; [reflexivity |]. split; [|reflexivity].
      intros row' Hrow' Hx. injection Hrow' as <-.
      apply lookup_ge_None in Hb. lia.
  - rewrite Hrow. split; [reflexivity |]. split; [reflexivity |].
    split; [reflexivity |]. split; [|reflexivity]. intros row' Hrow'. discriminate.
Qed.

Lemma handlePixelToggle_spec_witness :
  cell (handlePixelToggle 1 2 glyph_T) 2 1 = negb (cell glyph_T 2 1)
  /\ handlePixelToggle 5 2 glyph_T = glyph_T.
Proof.
  destruct (handlePixelToggle_spec 1 2 glyph_T) as (_ & _ & _ & Hflip & _).
  destruct (handlePixelToggle_spec 5 2 glyph_T) as (_ & _ & _ & _ & Hout).
  split.
  - apply (Hflip [false; true; false]); [reflexivity | simpl; lia].
  - apply Hout. intros row Hrow. injection Hrow as <-. simpl. lia.
Defined.

Lemma width_form_rect delta h w (m : matrix) :
  rectangular h w m -> (0 < h)%nat ->
  rectangular h (Z.to_nat (Z.max 0 (Z.of_nat w + delta))) (width_form delta m).
Proof.
  intros Hrect Hh. unfold width_form.
  rewrite (first_row_length_rect _ _ _ Hrect Hh).
  destruct (Z.eqb_spec (Z.max 0 (Z.of_nat w + delta)) (Z.of_nat w)) as [E|E].
  - rewrite E, Nat2Z.id. assumption.
  - eapply rectangular_fmap; [eassumption |].
    intros row Hrow. destruct (Z.ltb_spec 0 delta).
    + rewrite length_app, length_replicate, Hrow. lia.
    + rewrite js_slice_prefix by lia. rewrite length_take, Hrow. lia.
Qed.

(** The bitmap with its width changed, cell by cell. *)
Lemma width_form_spec (delta : Z) (h w : nat) (m : matrix) :
  rectangular h w m -> (0 < h)%nat ->
  rectangular h (Z.to_nat (Z.max 0 (Z.of_nat w + delta))) (width_form delta m)
  /\ (forall y x, (x < w)%nat -> (Z.of_nat x < Z.of_nat w + delta) ->
        cell (width_form delta m) y x = cell m y x)
  /\ (forall y x, (w <= x)%nat -> cell (width_form delta m) y x = false)
  /\ (0 < delta -> width_form (- delta) (width_form delta m) = m).
Proof.
  intros Hrect Hh.
  split; [apply width_form_rect; assumption |].
  assert (Hw : first_row_length m = w) by (eapply first_row_length_rect; eassumption).
  assert (Hcells : forall y x,
    cell (width_form delta m) y x
    = if (Z.of_nat x <? Z.of_nat w + delta) then cell m y x else false).
  { intros y x. unfold width_form. rewrite Hw.
    destruct (Z.eqb_spec (Z.max 0 (Z.of_nat w + delta)) (Z.of_nat w)) as [E|E].
    - destruct (Z.ltb_spec (Z.of_nat x) (Z.of_nat w + delta)); [reflexivity |].
      destruct (decide (y < h)%nat) as [Hy|Hy].
      + destruct (rect_lookup _ _ _ y Hrect Hy) as (row & Hrow & Hrlen).
        rewrite (cell_row _ _ _ _ Hrow), (lookup_ge_None_2 row) by lia. reflexivity.
      + apply cell_out_row. destruct Hrect as [-> _]. lia.
    - destruct (decide (y < h)%nat) as [Hy|Hy].
      + destruct (rect_lookup _ _ _ y Hrect Hy) as (row & Hrow & Hrlen).
        rewrite (cell_row _ _ _ _ Hrow).
        unfold cell. rewrite list_lookup_fmap, Hrow. simpl.
        destruct (Z.ltb_spec 0 delta).
        * destruct (decide (x < w)%nat) as [Hx|Hx].
          -- rewrite lookup_app_l by lia.
             destruct (Z.ltb_spec (Z.of_nat x) (Z.of_nat w + delta)); [reflexivity | lia].
          -- rewrite lookup_app_r by lia. rewrite (lookup_ge_None_2 row) by lia.
             destruct (replicate (Z.to_nat delta) false !! (x - length row)%nat) as [b|] eqn:Hb;
               [apply lookup_replicate in Hb as [-> _] |];
               destruct (Z.of_nat x <? Z.of_nat w + delta); reflexivity.
        * rewrite js_slice_prefix by lia.
          destruct (Z.ltb_spec (Z.of_nat x) (Z.of_nat w + delta)).
          -- rewrite lookup_take_lt by lia. reflexivity.
          -- rewrite lookup_take_ge by lia. reflexivity.
      + rewrite !cell_out_row;
          [destruct (Z.of_nat x <? Z.of_nat w + delta); reflexivity
          | destruct Hrect as [-> _]; lia
          | rewrite length_fmap; destruct Hrect as [-> _]; lia]. }
  split; [|split].
  - intros y x Hx Hkeep. rewrite Hcells.
    destruct (Z.ltb_spec (Z.of_nat x) (Z.of_nat w + delta)); [reflexivity | lia].
  - intros y x Hx. rewrite Hcells.
    destruct (Z.ltb_spec (Z.of_nat x) (Z.of_nat w + delta)); [|reflexivity].
    destruct (decide (y < h)%nat) as [Hy|Hy].
    + destruct (rect_lookup _ _ _ y Hrect Hy) as (row & Hrow & Hrlen).
      rewrite (cell_row _ _ _ _ Hrow), (lookup_ge_None_2 row) by lia. reflexivity.
    + apply cell_out_row. destruct Hrect as [-> _]. lia.
  - intros Hd.
    pose proof (width_form_rect delta h w m Hrect Hh) as Hgrown.
    replace (Z.max 0 (Z.of_nat w + delta)) with (Z.of_nat w + delta) in Hgrown by lia.
    pose proof (width_form_rect (- delta) _ _ _ Hgrown Hh) as Hback.
    replace (Z.to_nat (Z.max 0 (Z.of_nat (Z.to_nat (Z.of_nat w + delta)) + - delta)))
      with w in Hback by lia.
    apply (rect_ext h w); [assumption | assumption |].
    intros y x Hy Hx.
    destruct (rect_lookup _ _ _ y Hgrown Hy) as (row' & Hrow' & Hrlen').
    destruct (rect_lookup _ _ _ y Hrect Hy) as (row & Hrow & Hrlen).
    unfold width_form at 1.
    rewrite (first_row_length_rect _ _ _ Hgrown Hh).
    destruct (Z.eqb_spec (Z.max 0 (Z.of_nat (Z.to_nat (Z.of_nat w + delta)) + - delta))
                (Z.of_nat (Z.to_nat (Z.of_nat w + delta)))); [lia |].
    destruct (Z.ltb_spec 0 (- delta)); [lia |].
    unfold cell at 1. rewrite list_lookup_fmap, Hrow'. simpl.
    rewrite js_slice_prefix by lia. rewrite lookup_take_lt by lia.
    transitivity (cell (width_form delta m) y x);
      [rewrite (cell_row _ _ _ _ Hrow'); reflexivity |].
    rewrite Hcells. destruct (Z.ltb_spec (Z.of_nat x) (Z.of_nat w + delta)); [reflexivity | lia].
Qed.


Lemma handleWidthChange_form delta (m : matrix) :
  delta < 2 ^ 32 -> handleWidthChange delta m = Ok (width_form delta m).
Proof.
  intros Hd. unfold handleWidthChange, width_form.
  destruct (_ =? _); [reflexivity |].
  apply array_map_fmap. intros row.
  destruct (Z.ltb_spec 0 delta); [|reflexivity].
  rewrite new_array_fill_ok by lia. reflexivity.
Qed.

(** X7.  On a rectangular bitmap with at least one row and for a delta below 2^32,
    handleWidthChange returns a bitmap of the same height and of width
    max(0, w + delta); the columns kept are unchanged, the columns added are
    blank, and adding delta > 0 columns then removing them gives the bitmap
    back. *)
Theorem handleWidthChange_spec (delta : Z) (h w : nat) (m : matrix) :
  rectangular h w m -> (0 < h)%nat -> delta < 2 ^ 32 ->
  exists m',
    handleWidthChange delta m = Ok m'
    /\ rectangular h (Z.to_nat (Z.max 0 (Z.of_nat w + delta))) m'
    /\ (forall y x, (x < w)%nat -> (Z.of_nat x < Z.of_nat w + delta) ->
          cell m' y x = cell m y x)
    /\ (forall y x, (w <= x)%nat -> cell m' y x = false)
    /\ (0 < delta -> handleWidthChange (- delta) m' = Ok m).
Proof.
  intros Hrect Hh Hd. exists (width_form delta m).
  split; [apply handleWidthChange_form; assumption |].
  destruct (width_form_spec delta h w m Hrect Hh) as (Hr & Hkeep & Hnew & Hback).
  split; [assumption |]. split; [assumption |]. split; [assumption |].
  intros Hpos. rewrite handleWidthChange_form by lia. f_equal. apply Hback. assumption.
Qed.

Lemma handleWidthChange_spec_witness :
  exists m',
    handleWidthChange 2 glyph_T = Ok m'
    /\ rectangular 4 (Z.to_nat (Z.max 0 (Z.of_nat 3 + 2))) m'
    /\ handleWidthChange (- 2) m' = Ok glyph_T.
Proof.
  destruct (handleWidthChange_spec 2 4 3 glyph_T) as (m' & Hrun & Hrect & _ & _ & Hback);
    [split; [reflexivity | repeat constructor] | lia | reflexivity |].
  exists m'. split; [exact Hrun |]. split; [exact Hrect | apply Hback; lia].
Defined.

(** ** Editing the font *)

Lemma decode_of_encode (bitmap : matrix) (w : nat) (height : Z) :
  1 <= height <= 8 -> Z.of_nat w < 2 ^ 32 ->
  rectangular (Z.to_nat height) w bitmap ->
  bytesToBitmap (bitmapToBytes bitmap height) (Z.of_nat w) height = Ok bitmap.
Proof.
  intros Hh Hwidth Hrect.
  assert (Hw : first_row_length bitmap = w)
    by (eapply first_row_length_rect; [eassumption | lia]).
  rewrite bytesToBitmap_tabulate by lia. f_equal.
  rewrite Nat2Z.id. rewrite (rectangular_tabulate _ _ _ Hrect) at 2.
  apply tabulate_ext. intros r c Hr Hc. apply decoded_encoded; [lia | assumption | lia].
Qed.

(** X8.  handleCharUpdate (on the font) changes the glyph at [charIndex] only, and
    nothing when the index is out of range: that glyph keeps its character and
    takes the edited bitmap and the bytes encoded from it.  For a rectangular
    bitmap of the font height (1 to 8) the record has the glyph invariants and
    decoding its bytes gives the edited bitmap back. *)
Theorem handleCharUpdate_spec (height : Z) (fontData : list GeneratedChar)
    (charIndex : nat) (newBitmap : matrix) :
  length (handleCharUpdate height fontData charIndex newBitmap) = length fontData
  /\ (forall i, i <> charIndex ->
        handleCharUpdate height fontData charIndex newBitmap !! i = fontData !! i)
  /\ ((length fontData <= charIndex)%nat ->
        handleCharUpdate height fontData charIndex newBitmap = fontData)
  /\ (forall old, fontData !! charIndex = Some old ->
        exists g,
          handleCharUpdate height fontData charIndex newBitmap !! charIndex = Some g
          /\ char g = char old /\ bitmap g = newBitmap
          /\ bytes g = bitmapToBytes newBitmap height
          /\ forall w, 1 <= height <= 8 -> Z.of_nat w < 2 ^ 32 ->
               rectangular (Z.to_nat height) w newBitmap ->
               glyph_wf height g
               /\ bytesToBitmap (bytes g) (Z.of_nat w) height = Ok newBitmap).
Proof.
  unfold handleCharUpdate. split; [apply length_imap |]. split; [|split].
  - intros i Hi. rewrite list_lookup_imap.
    destruct (fontData !! i) as [g|]; [|reflexivity]. simpl.
    destruct (Nat.eqb_spec i charIndex); [contradiction | reflexivity].
  - intros Hout. apply list_eq. intros i. rewrite list_lookup_imap.
    destruct (fontData !! i) as [g|] eqn:Hg; [|reflexivity]. simpl.
    apply lookup_lt_Some in Hg.
    destruct (Nat.eqb_spec i charIndex); [lia | reflexivity].
  - intros old Hold. rewrite list_lookup_imap, Hold. simpl.
    rewrite Nat.eqb_refl. eexists. split; [reflexivity |].
    split; [reflexivity |]. split; [reflexivity |]. split; [reflexivity |].
    intros w Hh Hwidth Hrect. split.
    + eapply encoded_glyph_wf; eassumption.
    + cbn [bytes with_glyph]. apply decode_of_encode; assumption.
Qed.

Lemma handleCharUpdate_spec_witness :
  exists g,
    handleCharUpdate 2 [glyph_A; glyph_B] 1 [[true; true]; [false; true]] !! 1%nat = Some g
    /\ char g = char glyph_B
    /\ glyph_wf 2 g
    /\ bytesToBitmap (bytes g) (Z.of_nat 2) 2 = Ok [[true; true]; [false; true]].
Proof.
  destruct (handleCharUpdate_spec 2 [glyph_A; glyph_B] 1 [[true; true]; [false; true]])
    as (_ & _ & _ & H).
  destruct (H glyph_B eq_refl) as (g & Hg & Hc & _ & _ & Hw).
  exists g. split; [assumption |]. split; [assumption |].
  apply (Hw 2%nat); [lia | reflexivity |]. split; [reflexivity | repeat constructor].
Defined.

Lemma filter_from_past {A : Type} (l : list A) : forall j k,
  (k < j)%nat -> filter_from j (fun _ index => negb (index =? k)%nat) l = l.
Proof.
  induction l as [|a l IH]; intros j k Hlt; [reflexivity |].
  cbn [filter_from]. destruct (Nat.eqb_spec j k); [lia |].
  cbn [negb]. f_equal. apply IH. lia.
Qed.

Lemma filter_from_delete {A : Type} (l : list A) : forall k i,
  filter_from k (fun _ index => negb (index =? k + i)%nat) l = delete i l.
Proof.
  induction l as [|a l IH]; intros k i; [reflexivity |].
  cbn [filter_from]. destruct i as [|i].
  - rewrite Nat.add_0_r, Nat.eqb_refl. cbn [negb]. apply filter_from_past. lia.
  - destruct (Nat.eqb_spec k (k + S i)); [lia |]. cbn [negb].
    change (delete (S i) (a :: l)) with (a :: delete i l). f_equal.
    replace (k + S i)%nat with (S k + i)%nat by lia. apply IH.
Qed.

(** X9.  handleCharDelete removes the glyph at the index and no other: the result
    is the glyphs before it followed by those after it, one glyph shorter; an
    index out of range changes nothing. *)
Theorem handleCharDelete_spec (fontData : list GeneratedChar) (indexToDelete : nat) :
  handleCharDelete fontData indexToDelete
  = take indexToDelete fontData ++ drop (S indexToDelete) fontData
  /\ ((indexToDelete < length fontData)%nat ->
        S (length (handleCharDelete fontData indexToDelete)) = length fontData)
  /\ ((length fontData <= indexToDelete)%nat ->
        handleCharDelete fontData indexToDelete = fontData).
Proof.
  assert (E : handleCharDelete fontData indexToDelete = delete indexToDelete fontData)
    by apply (filter_from_delete fontData 0 indexToDelete).
  rewrite E. split; [apply delete_take_drop |]. split.
  - intros Hi. rewrite length_delete by (apply lookup_lt_is_Some_2; assumption). lia.
  - intros Hout. rewrite delete_take_drop, take_ge, drop_ge by lia. apply app_nil_r.
Qed.

Lemma handleCharDelete_spec_witness :
  S (length (handleCharDelete [glyph_A; glyph_B] 0)) = 2%nat
  /\ handleCharDelete [glyph_A; glyph_B] 5 = [glyph_A; glyph_B].
Proof.
  destruct (handleCharDelete_spec [glyph_A; glyph_B] 0) as (_ & Hin & _).
  destruct (handleCharDelete_spec [glyph_A; glyph_B] 5) as (_ & _ & Hout).
  split; [apply Hin; simpl; lia | apply Hout; simpl; lia].
Defined.

(** ** The dynamic-width export and its import *)

Lemma exportTables_fold (l : list GeneratedChar) : forall st : export_tables,
  fold_left
    (fun (st : export_tables) charData =>
       let charWidth := Z.of_nat (length (bytes charData)) in
       {| widths := widths st ++ [charWidth];
          offsets := offsets st ++ [currentOffset st];
          font_data := font_data st ++ bytes charData;
          currentOffset := currentOffset st + charWidth |})
    l st
  = {| widths := widths st ++ ((fun g => Z.of_nat (length (bytes g))) <$> l);
       offsets := offsets st ++ offsets_from (currentOffset st) l;
       font_data := font_data st ++ mjoin (bytes <$> l);
       currentOffset := currentOffset st + Z.of_nat (length (mjoin (bytes <$> l))) |}.
Proof.
  induction l as [|g l IH]; intros st.
  - simpl. rewrite !app_nil_r, Z.add_0_r. destruct st; reflexivity.
  - cbn [fold_left]. rewrite IH. cbn [widths offsets font_data currentOffset].
    rewrite !fmap_cons. cbn [offsets_from].
    change (mjoin (bytes g :: (bytes <$> l))) with (bytes g ++ mjoin (bytes <$> l)).
    rewrite <- !app_assoc. f_equal; try reflexivity. rewrite length_app. lia.
Qed.

Lemma exportTables_closed (fontData : list GeneratedChar) :
  exportTables fontData
  = {| widths := (fun g => Z.of_nat (length (bytes g))) <$> fontData;
       offsets := offsets_from 0 fontData;
       font_data := mjoin (bytes <$> fontData);
       currentOffset := Z.of_nat (length (mjoin (bytes <$> fontData))) |}.
Proof. unfold exportTables. rewrite exportTables_fold. reflexivity. Qed.

Lemma offsets_from_length start l : length (offsets_from start l) = length l.
Proof. revert start. induction l as [|g l IH]; intros start; simpl; [|rewrite IH]; reflexivity. Qed.

Lemma offsets_from_lookup l : forall start i g,
  l !! i = Some g ->
  offsets_from start l !! i
  = Some (start + Z.of_nat (length (mjoin (bytes <$> take i l)))).
Proof.
  induction l as [|a l IH]; intros start i g Hi; [discriminate |].
  destruct i as [|i]; cbn [offsets_from take lookup list_lookup].
  - rewrite fmap_nil. change (mjoin (@nil (list Z))) with (@nil Z).
    cbn [length]. f_equal. lia.
  - rewrite (IH _ _ g Hi), fmap_cons.
    change (mjoin (bytes a :: (bytes <$> take i l)))
      with (bytes a ++ mjoin (bytes <$> take i l)).
    rewrite length_app. f_equal. lia.
Qed.

Lemma js_slice_middle {A : Type} (pre mid post : list A) :
  js_slice (pre ++ mid ++ post) (Z.of_nat (length pre))
    (Z.of_nat (length pre) + Z.of_nat (length mid)) = mid.
Proof.
  unfold js_slice, clamp_index. rewrite !length_app.
  destruct (Z.ltb_spec (Z.of_nat (length pre)) 0); [lia |].
  destruct (Z.ltb_spec (Z.of_nat (length pre) + Z.of_nat (length mid)) 0); [lia |].
  rewrite !Z.min_l by lia.
  replace (Z.to_nat (Z.of_nat (length pre) + Z.of_nat (length mid) - Z.of_nat (length pre)))
    with (length mid) by lia.
  rewrite Nat2Z.id, drop_app_length, take_app_length. reflexivity.
Qed.

Lemma join_split (l : list GeneratedChar) i g :
  l !! i = Some g ->
  mjoin (bytes <$> l)
  = mjoin (bytes <$> take i l) ++ bytes g ++ mjoin (bytes <$> drop (S i) l).
Proof.
  intros Hi. rewrite <- (take_drop_middle l i g Hi) at 1.
  rewrite fmap_app, join_app. reflexivity.
Qed.

(** What the three tables hold, glyph by glyph. *)
Lemma exportTables_facts (fontData : list GeneratedChar) :
  let t := exportTables fontData in
  length (widths t) = length fontData
  /\ length (offsets t) = length fontData
  /\ font_data t = mjoin (bytes <$> fontData)
  /\ currentOffset t = Z.of_nat (length (font_data t))
  /\ forall i g, fontData !! i = Some g ->
       exists offset,
         offsets t !! i = Some offset
         /\ widths t !! i = Some (Z.of_nat (length (bytes g)))
         /\ offset = Z.of_nat (length (mjoin (bytes <$> take i fontData)))
         /\ offset + Z.of_nat (length (bytes g)) <= Z.of_nat (length (font_data t))
         /\ js_slice (font_data t) offset (offset + Z.of_nat (length (bytes g)))
            = bytes g.
Proof.
  cbv zeta. rewrite exportTables_closed. cbn [widths offsets font_data currentOffset].
  split; [apply length_fmap |]. split; [apply offsets_from_length |].
  split; [reflexivity |]. split; [reflexivity |].
  intros i g Hi. eexists. split; [apply (offsets_from_lookup _ 0 i g Hi) |].
  split; [rewrite list_lookup_fmap, Hi; reflexivity |].
  split; [lia |]. rewrite Z.add_0_l. split.
  - rewrite (join_split _ _ _ Hi), !length_app. lia.
  - rewrite (join_split _ _ _ Hi). apply js_slice_middle.
Qed.

(** X10.  The tables of the dynamic-width export: one width and one offset per
    glyph, the data array is the concatenation of the bytes of the glyphs,
    each offset is the number of bytes before its glyph, and the slice of the
    data from the offset over the width is the bytes of the glyph. *)
Theorem exportTables_spec (fontData : list GeneratedChar) :
  let t := exportTables fontData in
  length (widths t) = length fontData
  /\ length (offsets t) = length fontData
  /\ font_data t = mjoin (bytes <$> fontData)
  /\ currentOffset t = Z.of_nat (length (font_data t))
  /\ forall i g, fontData !! i = Some g ->
       exists offset,
         offsets t !! i = Some offset
         /\ widths t !! i = Some (Z.of_nat (length (bytes g)))
         /\ offset = Z.of_nat (length (mjoin (bytes <$> take i fontData)))
         /\ offset + Z.of_nat (length (bytes g)) <= Z.of_nat (length (font_data t))
         /\ js_slice (font_data t) offset (offset + Z.of_nat (length (bytes g)))
            = bytes g.
Proof. exact (exportTables_facts fontData). Qed.

Lemma reimported_bitmap h g :
  1 <= h <= 8 -> encoded_glyph h g -> bitmap (reimported h g) = bitmap g.
Proof.
  intros Hh [Hrect Henc]. cbn [reimported bitmap].
  etransitivity; [|symmetry; exact (rectangular_tabulate _ _ _ Hrect)].
  apply tabulate_ext. intros r c Hr Hc. rewrite Henc.
  apply decoded_encoded; [lia | assumption |].
  rewrite (first_row_length_rect _ _ _ Hrect) by lia. assumption.
Qed.

Lemma dynamic_loop_of_export h (fontData : list GeneratedChar) :
  1 <= h <= 8 ->
  Forall (fun g => Z.of_nat (length (bytes g)) < 2 ^ 32) fontData ->
  let t := exportTables fontData in
  exists st,
    for_loop (length fontData)
      (dynamic_step (char <$> fontData) (font_data t) (widths t) (offsets t) h)
      {| dyn_chars := []; dyn_maxWidth := 0 |} = Ok st
    /\ dyn_chars st = reimported h <$> fontData.
Proof.
  intros Hh Hsmall t. rewrite Forall_forall in Hsmall.
  destruct (exportTables_facts fontData) as (_ & _ & _ & _ & Hat). fold t in Hat.
  destruct (for_loop_inv
    (fun j st => dyn_chars st = reimported h <$> take j fontData)
    (dynamic_step (char <$> fontData) (font_data t) (widths t) (offsets t) h)
    (length fontData) {| dyn_chars := []; dyn_maxWidth := 0 |}) as (st & Hrun & Hst).
  - reflexivity.
  - intros j st Hj Hst.
    destruct (lookup_lt_is_Some_2 fontData j Hj) as [g Hg].
    destruct (Hat j g Hg) as (offset & Ho & Hw & Hoff & Hle & Hslice).
    unfold dynamic_step. rewrite list_lookup_fmap, Hg, Hw, Ho. simpl.
    destruct (Z.ltb_spec (Z.of_nat (length (font_data t)))
                (offset + Z.of_nat (length (bytes g)))); [lia |].
    specialize (Hsmall g (list_elem_of_lookup_2 _ _ _ Hg)). cbv beta in Hsmall.
    rewrite Hslice, bytesToBitmap_tabulate by lia. simpl.
    eexists. split; [reflexivity |]. cbn [dyn_chars].
    rewrite Hst, (take_S_r _ _ g Hg), fmap_app, Nat2Z.id. reflexivity.
  - exists st. split; [assumption |]. rewrite Hst, take_ge by lia. reflexivity.
Qed.

(** X11.  Export then import: importing in dynamic mode three texts that parse to
    the exported tables of a font, with the characters of the font as
    character set and a height from 1 to 8, returns the characters and the
    bytes of its glyphs, and the bitmaps of the glyphs whose bytes are the
    encoding of their bitmap. *)
Theorem import_of_export (options : ImportOptions) (glyphs : list GeneratedChar) :
  isDynamic options = true ->
  1 <= charHeight options <= 8 ->
  Forall (fun g => Z.of_nat (length (bytes g)) < 2 ^ 32) glyphs ->
  unique_chars (characterSet options) = char <$> glyphs ->
  parseArrayString (rawData options) = font_data (exportTables glyphs) ->
  parseArrayString (rawWidths options) = widths (exportTables glyphs) ->
  parseArrayString (rawOffsets options) = offsets (exportTables glyphs) ->
  exists parsed,
    parseImportedData options = Ok parsed
    /\ (char <$> fontData parsed) = (char <$> glyphs)
    /\ (bytes <$> fontData parsed) = (bytes <$> glyphs)
    /\ (Forall (encoded_glyph (charHeight options)) glyphs ->
        (bitmap <$> fontData parsed) = (bitmap <$> glyphs)).
Proof.
  intros Hdyn Hh Hsmall Hchars Hdata Hwidths Hoffsets.
  destruct (exportTables_facts glyphs) as (Hlw & Hlo & _).
  destruct (dynamic_loop_of_export (charHeight options) glyphs Hh Hsmall)
    as (st & Hrun & Hst).
  unfold parseImportedData. rewrite Hdyn, Hchars, Hdata, Hwidths, Hoffsets.
  destruct (Z.leb_spec (charHeight options) 0); [lia |].
  destruct (Z.ltb_spec 8 (charHeight options)); [lia |]. simpl orb. cbv iota.
  rewrite Hlw, Hlo, length_fmap, !Nat.eqb_refl. simpl negb.
  rewrite andb_false_r.
  assert (Hguard : (length glyphs =? 0)%nat && (0 <? length glyphs)%nat = false).
  { destruct (length glyphs); reflexivity. }
  rewrite Hguard, Hrun. simpl.
  eexists. split; [reflexivity |]. cbn [fontData]. rewrite Hst.
  rewrite <- !list_fmap_compose.
  split; [reflexivity |]. split; [reflexivity |].
  intros Henc. apply list_fmap_ext. intros i g Hg. simpl.
  apply reimported_bitmap; [assumption |].
  rewrite Forall_forall in Henc. apply Henc. eapply list_elem_of_lookup_2, Hg.
Qed.

Lemma import_of_export_witness :
  exists parsed,
    parseImportedData import_exported_AB = Ok parsed
    /\ (char <$> fontData parsed) = (char <$> [glyph_A; glyph_B])
    /\ (bytes <$> fontData parsed) = (bytes <$> [glyph_A; glyph_B])
    /\ (bitmap <$> fontData parsed) = (bitmap <$> [glyph_A; glyph_B]).
Proof.
  destruct (import_of_export import_exported_AB [glyph_A; glyph_B])
    as (parsed & Hrun & Hc & Hb & Hm);
    [reflexivity | simpl; lia | repeat constructor | reflexivity
    | vm_compute; reflexivity | vm_compute; reflexivity | vm_compute; reflexivity |].
  exists parsed. split; [assumption |]. split; [assumption |]. split; [assumption |].
  apply Hm. repeat constructor; repeat split; repeat constructor.
Defined.

(** ** Escaping for display *)

Lemma replace_unit_Forall (P : Z -> Prop) u by_ s :
  Forall P by_ -> (forall c, c ∈ s -> c <> u -> P c) ->
  Forall P (replace_unit u by_ s).
Proof.
  intros Hby Hs. unfold replace_unit. apply Forall_forall. intros c Hc.
  apply list_elem_of_join in Hc as (l & Hcl & Hl).
  apply list_elem_of_fmap in Hl as (d & Hl & Hd). subst l.
  destruct (Z.eqb_spec d u) as [Heq|Hne].
  - rewrite Forall_forall in Hby. apply Hby. assumption.
  - apply list_elem_of_singleton in Hcl as ->. apply Hs; assumption.
Qed.

Lemma replace_unit_id u by_ s : (forall c, c ∈ s -> c <> u) -> replace_unit u by_ s = s.
Proof.
  unfold replace_unit. induction s as [|c s IH]; intros Hs; [reflexivity |].
  rewrite fmap_cons. cbn [mjoin list_join].
  destruct (Z.eqb_spec c u) as [->|_]; [exfalso; apply (Hs u); [left | reflexivity] |].
  simpl. f_equal. apply IH. intros d Hd. apply Hs. right. assumption.
Qed.

(** X12.  The text escapeHtml returns holds none of the characters less-than,
    greater-than, double quote and single quote; a text without these four
    and without the ampersand is returned unchanged. *)
Theorem escapeHtml_no_markup (unsafe : jsstring) :
  Forall (fun u => u <> 60 /\ u <> 62 /\ u <> 34 /\ u <> 39) (escapeHtml unsafe)
  /\ ((forall u, u ∈ unsafe -> u <> 38 /\ u <> 60 /\ u <> 62 /\ u <> 34 /\ u <> 39) ->
      escapeHtml unsafe = unsafe).
Proof.
  split.
  - unfold escapeHtml.
    set (s1 := replace_unit 38 (lit "&amp;") unsafe).
    assert (H2 : Forall (fun u => u <> 60) (replace_unit 60 (lit "&lt;") s1)).
    { apply replace_unit_Forall; [repeat constructor; discriminate | auto]. }
    set (s2 := replace_unit 60 (lit "&lt;") s1) in *.
    assert (H3 : Forall (fun u => u <> 60 /\ u <> 62) (replace_unit 62 (lit "&gt;") s2)).
    { apply replace_unit_Forall; [repeat constructor; discriminate |].
      intros c Hc Hne. rewrite Forall_forall in H2. auto. }
    set (s3 := replace_unit 62 (lit "&gt;") s2) in *.
    assert (H4 : Forall (fun u => u <> 60 /\ u <> 62 /\ u <> 34)
                   (replace_unit 34 (lit "&quot;") s3)).
    { apply replace_unit_Forall; [repeat constructor; discriminate |].
      intros c Hc Hne. rewrite Forall_forall in H3. destruct (H3 c Hc). auto. }
    set (s4 := replace_unit 34 (lit "&quot;") s3) in *.
    apply replace_unit_Forall; [repeat constructor; discriminate |].
    intros c Hc Hne. rewrite Forall_forall in H4. destruct (H4 c Hc) as (? & ? & ?). auto.
  - intros Hplain. unfold escapeHtml.
    rewrite (replace_unit_id 38) by (intros c Hc; apply (Hplain c Hc)).
    rewrite (replace_unit_id 60) by (intros c Hc; apply (Hplain c Hc)).
    rewrite (replace_unit_id 62) by (intros c Hc; apply (Hplain c Hc)).
    rewrite (replace_unit_id 34) by (intros c Hc; apply (Hplain c Hc)).
    apply replace_unit_id. intros c Hc. apply (Hplain c Hc).
Qed.

Lemma escapeHtml_no_markup_witness :
  escapeHtml (lit "font_8x8 data") = lit "font_8x8 data".
Proof.
  apply (proj2 (escapeHtml_no_markup (lit "font_8x8 data"))).
  intros u Hu.
  assert (Hall : Forall (fun u => u <> 38 /\ u <> 60 /\ u <> 62 /\ u <> 34 /\ u <> 39)
                   (lit "font_8x8 data"))
    by (repeat constructor; discriminate).
  rewrite Forall_forall in Hall. apply Hall. assumption.
Defined.

(** ** From canvas pixels to a bitmap *)

Lemma imageDataToBitmap_tabulate (imageData : ImageData) (threshold : Z) :
  0 <= image_width imageData < 2 ^ 32 -> image_height imageData < 2 ^ 32 ->
  imageDataToBitmap imageData threshold
  = Ok (tabulate (Z.to_nat (image_height imageData)) (Z.to_nat (image_width imageData))
          (alpha_above (image_data imageData) (image_width imageData) threshold)).
Proof.
  intros Hw Hh. unfold imageDataToBitmap.
  set (w := Z.to_nat (image_width imageData)).
  set (h := Z.to_nat (image_height imageData)).
  set (above := alpha_above (image_data imageData) (image_width imageData) threshold).
  rewrite (array_from_ok _ (replicate w false))
    by (assumption || (intros; apply new_array_fill_ok; assumption)).
  simpl. fold h.
  destruct (for_loop_inv
    (fun j bm => bm = tabulate h w (fun y x => (y <? j)%nat && above y x))
    (fun y bitmap =>
       for_loop w
         (fun x bitmap => if above y x then set_cell y x true bitmap else Ok bitmap)
         bitmap)
    h (replicate h (replicate w false))) as (bm & Hrun & Hbm).
  - rewrite replicate_tabulate. apply tabulate_ext. intros; reflexivity.
  - intros j t Hj ->.
    destruct (for_loop_inv
      (fun k bm => bm = tabulate h w
         (fun y x => (y <? j)%nat && above y x
                     || (y =? j)%nat && (x <? k)%nat && above y x))
      (fun x bitmap => if above j x then set_cell j x true bitmap else Ok bitmap)
      w (tabulate h w (fun y x => (y <? j)%nat && above y x))) as (bm' & Hrun' & Hbm').
    + apply tabulate_ext. intros y x _ _. rewrite andb_false_r, orb_false_r. reflexivity.
    + intros k t Hk ->. destruct (above j k) eqn:Hjk.
      * rewrite set_cell_tabulate by assumption. eexists; split; [reflexivity |].
        apply tabulate_ext. intros y x _ _.
        destruct (Nat.eqb_spec y j) as [->|Hy]; destruct (Nat.eqb_spec x k) as [->|Hx];
          simpl; rewrite ?Hjk; index_cases;
          rewrite ?orb_false_r, ?orb_true_r; try reflexivity.
      * eexists; split; [reflexivity |].
        apply tabulate_ext. intros y x _ _.
        destruct (Nat.eqb_spec y j) as [->|Hy]; simpl; [|reflexivity].
        destruct (Nat.ltb_spec x k), (Nat.ltb_spec x (S k)); try lia; try reflexivity.
        assert (x = k) as -> by lia. rewrite Hjk. reflexivity.
    + rewrite Hrun'. eexists; split; [reflexivity |]. rewrite Hbm'.
      apply tabulate_ext. intros y x _ Hx.
      destruct (Nat.ltb_spec x w); [|lia]. rewrite andb_true_r.
      destruct (Nat.eqb_spec y j) as [->|Hy].
      * destruct (Nat.ltb_spec j j), (Nat.ltb_spec j (S j)); try lia. reflexivity.
      * destruct (Nat.ltb_spec y j), (Nat.ltb_spec y (S j)); try lia;
          rewrite ?orb_false_r; reflexivity.
  - rewrite Hrun, Hbm. f_equal. apply tabulate_ext. intros y x Hy _.
    destruct (Nat.ltb_spec y h); [reflexivity | lia].
Qed.

(** X13.  For image data of a width in [0, 2^32) and a height below 2^32,
    imageDataToBitmap returns a bitmap of exactly height rows and width
    columns whose pixel (x, y) is set exactly when the alpha sample of that
    pixel exists and exceeds the threshold; when no sample exceeds the
    threshold the bitmap is blank. *)
Theorem imageDataToBitmap_spec (imageData : ImageData) (threshold : Z) :
  0 <= image_width imageData < 2 ^ 32 -> image_height imageData < 2 ^ 32 ->
  exists m,
    imageDataToBitmap imageData threshold = Ok m
    /\ rectangular (Z.to_nat (image_height imageData))
         (Z.to_nat (image_width imageData)) m
    /\ (forall y x, (y < Z.to_nat (image_height imageData))%nat ->
          (x < Z.to_nat (image_width imageData))%nat ->
          cell m y x = true
          <-> exists alpha,
                image_data imageData
                  !! (4 * (y * Z.to_nat (image_width imageData) + x) + 3)%nat
                = Some alpha
                /\ threshold < alpha)
    /\ (Forall (fun alpha => alpha <= threshold) (image_data imageData) ->
        forall y x, cell m y x = false).
Proof.
  intros Hw Hh. eexists. split; [apply imageDataToBitmap_tabulate; assumption |].
  split; [apply tabulate_rectangular |].
  assert (Habove : forall y x,
    alpha_above (image_data imageData) (image_width imageData) threshold y x = true
    <-> exists alpha,
          image_data imageData
            !! (4 * (y * Z.to_nat (image_width imageData) + x) + 3)%nat = Some alpha
          /\ threshold < alpha).
  { intros y x. unfold alpha_above.
    destruct (Z.ltb_spec ((Z.of_nat y * image_width imageData + Z.of_nat x) * 4 + 3) 0);
      [nia |].
    replace (Z.to_nat ((Z.of_nat y * image_width imageData + Z.of_nat x) * 4 + 3))
      with (4 * (y * Z.to_nat (image_width imageData) + x) + 3)%nat by nia.
    destruct (image_data imageData !! _) as [alpha|].
    - rewrite Z.ltb_lt. split; [eauto |]. intros (a & Ha & Hlt). congruence.
    - split; [discriminate |]. intros (a & Ha & _). discriminate. }
  split.
  - intros y x Hy Hx. rewrite tabulate_cell by assumption. apply Habove.
  - intros Hlow y x.
    destruct (decide (y < Z.to_nat (image_height imageData))%nat) as [Hy|Hy];
      [destruct (decide (x < Z.to_nat (image_width imageData))%nat) as [Hx|Hx] |].
    + rewrite tabulate_cell by assumption.
      destruct (alpha_above _ _ _ y x) eqn:E; [|reflexivity].
      apply Habove in E as (alpha & Ha & Hlt).
      rewrite Forall_forall in Hlow.
      specialize (Hlow alpha (list_elem_of_lookup_2 _ _ _ Ha)). lia.
    + unfold cell. rewrite tabulate_lookup by assumption.
      rewrite (lookup_ge_None_2 _ x); [reflexivity |].
      rewrite length_fmap, length_seq. lia.
    + apply cell_out_row. rewrite tabulate_length. lia.
Qed.

Lemma imageDataToBitmap_spec_witness :
  exists m,
    imageDataToBitmap
      {| image_width := 2; image_height := 1;
         image_data := [255; 255; 255; 200; 255; 255; 255; 90] |} 128 = Ok m
    /\ rectangular 1 2 m.
Proof.
  destruct (imageDataToBitmap_spec
              {| image_width := 2; image_height := 1;
                 image_data := [255; 255; 255; 200; 255; 255; 255; 90] |} 128)
    as (m & Hrun & Hrect & _); [simpl; lia | reflexivity |].
  exists m. split; assumption.
Defined.

(** ** The importer: fixed widths *)

Lemma js_slice_range {A : Type} (l : list A) a b :
  0 <= a <= b -> js_slice l a b = take (Z.to_nat (b - a)) (drop (Z.to_nat a) l).
Proof.
  intros Hab. unfold js_slice, clamp_index.
  destruct (Z.ltb_spec a 0); [lia |]. destruct (Z.ltb_spec b 0); [lia |].
  destruct (Z.le_gt_cases a (Z.of_nat (length l))) as [Ha|Ha].
  - rewrite (Z.min_l a) by lia.
    destruct (Z.le_gt_cases b (Z.of_nat (length l))) as [Hb|Hb].
    + rewrite Z.min_l by lia. reflexivity.
    + rewrite Z.min_r by lia. rewrite !take_ge by (rewrite length_drop; lia). reflexivity.
  - rewrite (Z.min_r a) by lia. rewrite (Z.min_r b) by lia.
    rewrite !drop_ge by lia. rewrite !take_nil. reflexivity.
Qed.

Lemma imap_snoc {A B : Type} (f : nat -> A -> B) (l : list A) (x : A) :
  imap f (l ++ [x]) = imap f l ++ [f (length l) x].
Proof.
  rewrite imap_app. cbn [imap]. rewrite Nat.add_0_r. reflexivity.
Qed.

Lemma fixed_loop (uniqueChars : list jsstring) (dataBytes : list Z) w h :
  0 < w < 2 ^ 32 -> 1 <= h <= 8 ->
  for_loop (length uniqueChars) (fixed_step uniqueChars dataBytes w h) []
  = Ok (imap (fixed_glyph dataBytes w h) uniqueChars).
Proof.
  intros Hw Hh.
  destruct (for_loop_inv
    (fun j acc => acc = imap (fixed_glyph dataBytes w h) (take j uniqueChars))
    (fixed_step uniqueChars dataBytes w h) (length uniqueChars) [])
    as (acc & Hrun & Hacc).
  - reflexivity.
  - intros j t Hj ->. unfold fixed_step.
    destruct (lookup_lt_is_Some_2 uniqueChars j Hj) as [ch Hch]. rewrite Hch.
    rewrite bytesToBitmap_tabulate by lia. cbn [mbind result_bind].
    eexists. split; [reflexivity |].
    rewrite (take_S_r _ _ _ Hch), imap_snoc.
    rewrite length_take, Nat.min_l by lia.
    f_equal. f_equal. unfold fixed_glyph.
    rewrite js_slice_range by nia.
    replace (Z.to_nat (Z.of_nat j * w + w - Z.of_nat j * w)) with (Z.to_nat w) by lia.
    replace (Z.to_nat (Z.of_nat j * w)) with (j * Z.to_nat w)%nat by nia.
    reflexivity.
  - rewrite Hrun, Hacc, firstn_all. reflexivity.
Qed.

Lemma fixed_glyph_bytes_join (dataBytes : list Z) w h (cs : list jsstring) : forall k,
  mjoin (bytes <$> imap (fun i => fixed_glyph dataBytes w h (k + i)) cs)
  = take (length cs * Z.to_nat w) (drop (k * Z.to_nat w) dataBytes).
Proof.
  induction cs as [|c cs IH]; intros k.
  - reflexivity.
  - cbn [imap]. rewrite fmap_cons.
    change (mjoin (?x :: ?l)) with (x ++ mjoin l).
    rewrite (imap_ext _ (fun i => fixed_glyph dataBytes w h (S k + i)))
      by (intros i x _; simpl; f_equal; lia).
    rewrite IH. cbn [bytes fixed_glyph length]. rewrite Nat.add_0_r.
    replace (S (length cs) * Z.to_nat w)%nat
      with (Z.to_nat w + length cs * Z.to_nat w)%nat by lia.
    rewrite <- (take_take_drop (drop (k * Z.to_nat w) dataBytes) (Z.to_nat w)).
    rewrite drop_drop.
    replace (S k * Z.to_nat w)%nat with (k * Z.to_nat w + Z.to_nat w)%nat by lia.
    reflexivity.
Qed.

(** X14.  A fixed-width import with a height from 1 to 8, 0 < width < 2^32 and a
    data array of chars * width bytes returns one glyph per unique character,
    glyph i holding the i-th run of width bytes and its decoding, and the
    options it was given; the bytes of the glyphs, concatenated, are the data
    array. *)
Theorem fixed_import_spec (options : ImportOptions) :
  isDynamic options = false ->
  1 <= charHeight options <= 8 ->
  0 < charWidth options < 2 ^ 32 ->
  Z.of_nat (length (parseArrayString (rawData options)))
  = Z.of_nat (length (unique_chars (characterSet options))) * charWidth options ->
  let glyphs :=
    imap (fixed_glyph (parseArrayString (rawData options)) (charWidth options)
            (charHeight options))
      (unique_chars (characterSet options)) in
  parseImportedData options
  = Ok {| fontData := glyphs; fontOptions := fixed_options options |}
  /\ mjoin (bytes <$> glyphs) = parseArrayString (rawData options).
Proof.
  intros Hfixed Hh Hw Hlen glyphs. split.
  - unfold parseImportedData. rewrite Hfixed.
    destruct (Z.leb_spec (charHeight options) 0); [lia |].
    destruct (Z.ltb_spec 8 (charHeight options)); [lia |].
    destruct (Z.leb_spec (charWidth options) 0); [lia |].
    cbn [orb].
    set (data := parseArrayString (rawData options)) in *.
    set (chars := unique_chars (characterSet options)) in *.
    assert (Hempty : (length data =? 0)%nat && (0 <? length chars)%nat = false).
    { destruct (Nat.eqb_spec (length data) 0), (Nat.ltb_spec 0 (length chars));
        try reflexivity. nia. }
    rewrite Hempty. rewrite (proj2 (Z.eqb_eq _ _) Hlen). cbn [negb andb].
    rewrite fixed_loop by lia. reflexivity.
  - subst glyphs.
    rewrite (imap_ext _ (fun i => fixed_glyph (parseArrayString (rawData options))
                                    (charWidth options) (charHeight options) (0 + i)))
      by reflexivity.
    rewrite fixed_glyph_bytes_join. rewrite drop_0. apply take_ge. nia.
Qed.

Lemma fixed_import_spec_witness :
  parseImportedData import_fixed_AB
  = Ok {| fontData :=
            [ {| char := lit "A"; ascii := Some 65; codePoint := None;
                 bitmap := tabulate 8 2 (decoded [128; 64] 8); bytes := [128; 64] |};
              {| char := lit "B"; ascii := Some 66; codePoint := None;
                 bitmap := tabulate 8 2 (decoded [1; 2] 8); bytes := [1; 2] |} ];
          fontOptions := fixed_options import_fixed_AB |}.
Proof.
  apply (fixed_import_spec import_fixed_AB); [reflexivity | simpl; lia | simpl; lia |].
  reflexivity.
Defined.

(** X15.  The order of the checks of the import: a height outside 1..8 is reported
    first, in both modes; then, in fixed mode with a width below 2^32, a width
    that is not positive, a data array that is empty, and a data size other
    than chars * width, in this order; an empty character set is imported as
    the empty font.  The fixed import returns exactly when the width is
    positive and the character set is empty or the size is chars * width. *)
Theorem fixed_import_validation (options : ImportOptions) :
  let h := charHeight options in
  let w := charWidth options in
  let n := length (unique_chars (characterSet options)) in
  let data := parseArrayString (rawData options) in
  (h <= 0 \/ 8 < h -> parseImportedData options = Err (InvalidHeight h))
  /\ (isDynamic options = false -> 1 <= h <= 8 -> w < 2 ^ 32 ->
      (w <= 0 -> parseImportedData options = Err (InvalidWidth w))
      /\ (0 < w -> n <> 0%nat -> data = [] ->
          parseImportedData options = Err (DataEmpty n))
      /\ (0 < w -> n <> 0%nat -> data <> [] ->
          Z.of_nat (length data) <> Z.of_nat n * w ->
          parseImportedData options
          = Err (DataSizeMismatch (Z.of_nat n * w) n w (length data)))
      /\ (0 < w -> n = 0%nat ->
          parseImportedData options
          = Ok {| fontData := []; fontOptions := fixed_options options |})
      /\ (is_ok (parseImportedData options) = true
          <-> 0 < w /\ (n = 0%nat \/ Z.of_nat (length data) = Z.of_nat n * w))).
Proof.
  intros h w n data.
  assert (Hbad : h <= 0 \/ 8 < h -> parseImportedData options = Err (InvalidHeight h)).
  { intros Hh. unfold parseImportedData. fold h.
    destruct (Z.leb_spec h 0), (Z.ltb_spec 8 h); try reflexivity. lia. }
  split; [exact Hbad |].
  intros Hfixed Hh Hsmall.
  assert (Hstart : parseImportedData options
    = if w <=? 0 then Err (InvalidWidth w)
      else if (length data =? 0)%nat && (0 <? n)%nat then Err (DataEmpty n)
      else if negb (Z.of_nat (length data) =? Z.of_nat n * w) && (0 <? n)%nat
      then Err (DataSizeMismatch (Z.of_nat n * w) n w (length data))
      else Ok {| fontData := imap (fixed_glyph data w h) (unique_chars (characterSet options));
                 fontOptions := fixed_options options |}).
  { unfold parseImportedData. rewrite Hfixed. fold h w n data.
    destruct (Z.leb_spec h 0); [lia |]. destruct (Z.ltb_spec 8 h); [lia |].
    cbn [orb]. destruct (Z.leb_spec w 0); [reflexivity |].
    destruct ((length data =? 0)%nat && (0 <? n)%nat); [reflexivity |].
    destruct (negb (Z.of_nat (length data) =? Z.of_nat n * w) && (0 <? n)%nat);
      [reflexivity |].
    unfold n. rewrite fixed_loop by lia. reflexivity. }
  rewrite Hstart. clear Hstart Hbad.
  split; [|split; [|split; [|split; [|split]]]].
  - intros Hw. destruct (Z.leb_spec w 0); [reflexivity | lia].
  - intros Hw Hn Hdata. destruct (Z.leb_spec w 0); [lia |]. rewrite Hdata.
    destruct (Nat.ltb_spec 0 n); [reflexivity | lia].
  - intros Hw Hn Hdata Hlen. destruct (Z.leb_spec w 0); [lia |].
    destruct (Nat.eqb_spec (length data) 0) as [E|_];
      [destruct data; [congruence | discriminate] |].
    cbn [andb]. destruct (Z.eqb_spec (Z.of_nat (length data)) (Z.of_nat n * w)); [lia |].
    destruct (Nat.ltb_spec 0 n); [reflexivity | lia].
  - intros Hw Hn. destruct (Z.leb_spec w 0); [lia |].
    destruct (Nat.ltb_spec 0 n); [lia |]. rewrite !andb_false_r.
    destruct (unique_chars (characterSet options)) eqn:E; [reflexivity |].
    subst n. rewrite ?E in Hn. discriminate.
  - destruct (Z.leb_spec w 0); [discriminate |].
    destruct (Nat.ltb_spec 0 n).
    + rewrite !andb_true_r.
      destruct (Nat.eqb_spec (length data) 0); [discriminate |].
      destruct (Z.eqb_spec (Z.of_nat (length data)) (Z.of_nat n * w));
        [auto | discriminate].
    + intros _. split; [assumption | left; lia].
  - intros [Hw Hn]. destruct (Z.leb_spec w 0); [lia |].
    destruct (Nat.ltb_spec 0 n).
    + rewrite !andb_true_r. destruct Hn as [Hn|Hn]; [lia |].
      destruct (Nat.eqb_spec (length data) 0); [nia |].
      destruct (Z.eqb_spec (Z.of_nat (length data)) (Z.of_nat n * w)); [reflexivity | lia].
    + rewrite !andb_false_r. reflexivity.
Qed.

Lemma fixed_import_validation_witness :
  parseImportedData
    {| rawData := lit "{0x80, 0x40, 0x01}"; rawWidths := []; rawOffsets := [];
       characterSet := lit "AB"; charHeight := 8; charWidth := 2; isDynamic := false |}
  = Err (DataSizeMismatch 4 2 2 3).
Proof.
  apply (fixed_import_validation
           {| rawData := lit "{0x80, 0x40, 0x01}"; rawWidths := []; rawOffsets := [];
              characterSet := lit "AB"; charHeight := 8; charWidth := 2;
              isDynamic := false |});
    [reflexivity | simpl; lia | reflexivity | simpl; lia | discriminate | discriminate
    | discriminate].
Defined.

(** ** Character sets without repetition *)

Lemma existsb_eqb_elem (u : Z) (seen : list Z) :
  existsb (Z.eqb u) seen = true <-> u ∈ seen.
Proof.
  rewrite existsb_exists. split.
  - intros (x & Hin & Heq). apply Z.eqb_eq in Heq as ->.
    apply list_elem_of_In. assumption.
  - intros Hin. exists u. split; [apply list_elem_of_In; assumption | apply Z.eqb_refl].
Qed.

Lemma dedup_first_singletons seen s :
  dedup_first seen s = (fun u => [u]) <$> mjoin (dedup_first seen s).
Proof.
  revert seen. induction s as [|u rest IH]; intros seen; [reflexivity |].
  cbn [dedup_first]. destruct (existsb (Z.eqb u) seen); [apply IH |].
  change (mjoin ([u] :: ?l)) with (u :: mjoin l).
  rewrite fmap_cons. f_equal. apply IH.
Qed.

Lemma dedup_first_elems seen s :
  NoDup (mjoin (dedup_first seen s))
  /\ forall u, u ∈ mjoin (dedup_first seen s) <-> u ∈ s /\ u ∉ seen.
Proof.
  revert seen. induction s as [|u rest IH]; intros seen.
  - split; [constructor |]. intros u. cbn. rewrite elem_of_nil. tauto.
  - cbn [dedup_first]. destruct (existsb (Z.eqb u) seen) eqn:E.
    + apply existsb_eqb_elem in E. destruct (IH seen) as [Hnd Hel].
      split; [assumption |]. intros v. rewrite Hel, elem_of_cons.
      split; [tauto |]. intros [[->|Hv] Hs]; [contradiction | tauto].
    + assert (Hu : u ∉ seen).
      { intros Hin. apply existsb_eqb_elem in Hin. congruence. }
      change (mjoin ([u] :: ?l)) with (u :: mjoin l).
      destruct (IH (u :: seen)) as [Hnd Hel]. split.
      * constructor; [|assumption]. rewrite Hel, elem_of_cons. tauto.
      * intros v. rewrite !elem_of_cons, Hel, elem_of_cons.
        destruct (decide (v = u)) as [->|Hne]; tauto.
Qed.

Lemma dedup_first_ext seen seen' s :
  (forall u, u ∈ seen <-> u ∈ seen') -> dedup_first seen s = dedup_first seen' s.
Proof.
  revert seen seen'. induction s as [|u rest IH]; intros seen seen' Hsame; [reflexivity |].
  cbn [dedup_first].
  assert (E : existsb (Z.eqb u) seen = existsb (Z.eqb u) seen').
  { apply eq_true_iff_eq. rewrite !existsb_eqb_elem. apply Hsame. }
  rewrite E. destruct (existsb (Z.eqb u) seen').
  - apply IH, Hsame.
  - f_equal. apply IH. intros v. rewrite !elem_of_cons, Hsame. tauto.
Qed.

Lemma dedup_first_app seen a b :
  dedup_first seen (a ++ b) = dedup_first seen a ++ dedup_first (seen ++ a) b.
Proof.
  revert seen. induction a as [|u a IH]; intros seen.
  - rewrite app_nil_r. reflexivity.
  - cbn [app dedup_first]. destruct (existsb (Z.eqb u) seen) eqn:E.
    + rewrite IH. f_equal. apply dedup_first_ext. intros v.
      apply existsb_eqb_elem in E.
      rewrite !elem_of_app, elem_of_cons. split; [tauto |].
      intros [?|[->|?]]; tauto.
    + rewrite IH. cbn [app]. f_equal. f_equal. apply dedup_first_ext. intros v.
      rewrite ?elem_of_app, ?elem_of_cons, ?elem_of_app. tauto.
Qed.

Lemma dedup_first_fresh seen s :
  NoDup s -> (forall u, u ∈ s -> u ∉ seen) -> mjoin (dedup_first seen s) = s.
Proof.
  revert seen. induction s as [|u rest IH]; intros seen Hnd Hfresh; [reflexivity |].
  cbn [dedup_first]. apply NoDup_cons in Hnd as [Hu Hnd].
  destruct (existsb (Z.eqb u) seen) eqn:E.
  - apply existsb_eqb_elem in E. exfalso. apply (Hfresh u); [left | assumption].
  - change (mjoin ([u] :: ?l)) with (u :: mjoin l). f_equal. apply IH; [assumption |].
    intros v Hv. rewrite elem_of_cons. intros [->|Hin]; [contradiction |].
    apply (Hfresh v); [right |]; assumption.
Qed.

Lemma dedup_first_seen seen s :
  (forall u, u ∈ s -> u ∈ seen) -> dedup_first seen s = [].
Proof.
  induction s as [|u rest IH]; intros Hseen; [reflexivity |].
  cbn [dedup_first].
  rewrite (proj2 (existsb_eqb_elem u seen)) by (apply Hseen; left).
  apply IH. intros v Hv. apply Hseen. right. assumption.
Qed.

Lemma dedup_first_length seen s : (length (dedup_first seen s) <= length s)%nat.
Proof.
  revert seen. induction s as [|u rest IH]; intros seen; [reflexivity |].
  cbn [dedup_first]. destruct (existsb (Z.eqb u) seen); cbn [length].
  - specialize (IH seen). lia.
  - specialize (IH (u :: seen)). lia.
Qed.

Lemma append_unique_elems characterSet extra :
  NoDup (append_unique characterSet extra)
  /\ forall u, u ∈ append_unique characterSet extra <-> u ∈ characterSet \/ u ∈ extra.
Proof.
  unfold append_unique, unique_chars.
  destruct (dedup_first_elems [] (characterSet ++ extra)) as [Hnd Hel].
  split; [assumption |]. intros u. rewrite Hel, elem_of_app.
  pose proof (not_elem_of_nil u). tauto.
Qed.

Lemma append_unique_keeps characterSet extra :
  NoDup characterSet ->
  append_unique characterSet extra
  = characterSet ++ mjoin (dedup_first characterSet extra).
Proof.
  intros Hnd. unfold append_unique, unique_chars.
  rewrite dedup_first_app, join_app. cbn [app]. f_equal.
  apply dedup_first_fresh; [assumption |]. intros u _. apply not_elem_of_nil.
Qed.

Lemma append_unique_again characterSet extra :
  append_unique (append_unique characterSet extra) extra
  = append_unique characterSet extra.
Proof.
  destruct (append_unique_elems characterSet extra) as [Hnd Hel].
  rewrite (append_unique_keeps _ extra Hnd).
  rewrite dedup_first_seen; [apply app_nil_r |].
  intros u Hu. apply Hel. right. assumption.
Qed.

(** X16.  The unique characters of a character set have no repetition, are exactly
    the code units of the set, are at most as many as the set has units, are
    the units of the set in order when it has no repetition, and do not change
    when computed again from their concatenation. *)
Theorem unique_chars_spec (characterSet : jsstring) :
  NoDup (unique_chars characterSet)
  /\ (forall ch, ch ∈ unique_chars characterSet
                 <-> exists u, ch = [u] /\ u ∈ characterSet)
  /\ (length (unique_chars characterSet) <= length characterSet)%nat
  /\ (NoDup characterSet ->
      unique_chars characterSet = (fun u => [u]) <$> characterSet)
  /\ unique_chars (mjoin (unique_chars characterSet)) = unique_chars characterSet.
Proof.
  unfold unique_chars.
  destruct (dedup_first_elems [] characterSet) as [Hnd Hel].
  assert (Hflat := dedup_first_singletons [] characterSet).
  split; [|split; [|split; [|split]]].
  - rewrite Hflat. apply NoDup_fmap_2; [|assumption]. intros x y H. congruence.
  - intros ch. rewrite Hflat, list_elem_of_fmap. split.
    + intros (u & -> & Hu). exists u. split; [reflexivity |]. apply Hel in Hu. tauto.
    + intros (u & -> & Hu). exists u. split; [reflexivity |]. apply Hel.
      split; [assumption | apply not_elem_of_nil].
  - apply dedup_first_length.
  - intros Hs. rewrite Hflat. f_equal. apply dedup_first_fresh; [assumption |].
    intros u _. apply not_elem_of_nil.
  - etransitivity; [apply dedup_first_singletons |].
    rewrite (dedup_first_fresh [] (mjoin (dedup_first [] characterSet)));
      [symmetry; assumption | assumption |].
    intros u _. apply not_elem_of_nil.
Qed.

Lemma unique_chars_spec_witness :
  unique_chars (lit "AB") = [lit "A"; lit "B"].
Proof.
  destruct (unique_chars_spec (lit "AB")) as (_ & _ & _ & Hplain & _).
  apply Hplain.
  repeat constructor; rewrite ?elem_of_cons, ?elem_of_nil; intuition discriminate.
Defined.

(** ** Adding ranges of characters to the character set *)

Lemma elem_of_char_range lo hi u :
  0 <= lo -> hi <= 65535 -> u ∈ char_range lo hi <-> lo <= u <= hi.
Proof.
  intros Hlo Hhi. unfold char_range. rewrite list_elem_of_fmap. split.
  - intros (i & -> & Hi). apply elem_of_seqZ in Hi. unfold fromCharCode.
    rewrite Z.mod_small by lia. lia.
  - intros Hu. exists u. split.
    + unfold fromCharCode. rewrite Z.mod_small by lia. reflexivity.
    + apply elem_of_seqZ. lia.
Qed.

(** X17.  handleAddCustomRange changes the character set only when both codes parse
    as hexadecimal numbers with 0 <= start <= end <= 65535 and
    end - start <= 1000, and in that case always: the new set has no
    repetition, holds exactly the old characters and the codes from start to
    end, keeps the old set as a prefix when that had no repetition, and adding
    the same range again changes nothing. *)
Theorem handleAddCustomRange_spec (rangeStart rangeEnd characterSet : jsstring) :
  (forall characterSet',
     handleAddCustomRange rangeStart rangeEnd characterSet = inr characterSet' ->
     exists start end_,
       parseInt16 rangeStart = Some start /\ parseInt16 rangeEnd = Some end_
       /\ 0 <= start <= end_ /\ end_ <= 65535 /\ end_ - start <= 1000
       /\ NoDup characterSet'
       /\ (forall u, u ∈ characterSet' <-> u ∈ characterSet \/ start <= u <= end_)
       /\ (NoDup characterSet ->
           exists added, characterSet' = characterSet ++ added)
       /\ handleAddCustomRange rangeStart rangeEnd characterSet' = inr characterSet')
  /\ (forall start end_,
        parseInt16 rangeStart = Some start -> parseInt16 rangeEnd = Some end_ ->
        0 <= start <= end_ -> end_ <= 65535 -> end_ - start <= 1000 ->
        handleAddCustomRange rangeStart rangeEnd characterSet
        = inr (append_unique characterSet (char_range start end_))).
Proof.
  split.
  - intros cs' Hrun. unfold handleAddCustomRange in *.
    destruct (parseInt16 rangeStart) as [start|]; [|discriminate].
    destruct (parseInt16 rangeEnd) as [end_|]; [|discriminate].
    destruct (Z.ltb_spec end_ start); [discriminate |].
    destruct (Z.ltb_spec 1000 (end_ - start)); [discriminate |].
    destruct (Z.ltb_spec start 0); [discriminate |].
    destruct (Z.ltb_spec 65535 end_); [discriminate |].
    cbn [orb] in *. injection Hrun as <-.
    destruct (append_unique_elems characterSet (char_range start end_)) as [Hnd Hel].
    exists start, end_. repeat (split; [first [reflexivity | assumption | lia] |]).
    split; [|split].
    + intros u. rewrite Hel, elem_of_char_range by lia. reflexivity.
    + intros Hcs. eexists. apply append_unique_keeps. assumption.
    + f_equal. apply append_unique_again.
  - intros start end_ Hs He Hse Hend Hsize. unfold handleAddCustomRange.
    rewrite Hs, He.
    destruct (Z.ltb_spec end_ start); [lia |].
    destruct (Z.ltb_spec 1000 (end_ - start)); [lia |].
    destruct (Z.ltb_spec start 0); [lia |].
    destruct (Z.ltb_spec 65535 end_); [lia |]. reflexivity.
Qed.

Lemma handleAddCustomRange_spec_witness :
  handleAddCustomRange (lit "41") (lit "0x43") (lit "CA") = inr (lit "CAB").
Proof.
  apply (proj2 (handleAddCustomRange_spec (lit "41") (lit "0x43") (lit "CA")) 65 67);
    [reflexivity | reflexivity | lia | lia | lia].
Defined.

(** X18.  handleAppendLatin1 and handleAppendCyrillic are idempotent; the character
    set they return has no repetition and holds exactly the old characters and
    the block added (U+00A0..U+00FF; U+0410..U+044F, U+0401 and U+0451); a
    set without repetition is kept as a prefix. *)
Theorem handleAppend_idempotent (characterSet : jsstring) :
  handleAppendLatin1 (handleAppendLatin1 characterSet) = handleAppendLatin1 characterSet
  /\ handleAppendCyrillic (handleAppendCyrillic characterSet)
     = handleAppendCyrillic characterSet
  /\ NoDup (handleAppendLatin1 characterSet)
  /\ NoDup (handleAppendCyrillic characterSet)
  /\ (forall u, u ∈ handleAppendLatin1 characterSet
                <-> u ∈ characterSet \/ 160 <= u <= 255)
  /\ (forall u, u ∈ handleAppendCyrillic characterSet
                <-> u ∈ characterSet \/ 1040 <= u <= 1103 \/ u = 1025 \/ u = 1105)
  /\ (NoDup characterSet ->
      (exists added, handleAppendLatin1 characterSet = characterSet ++ added)
      /\ exists added, handleAppendCyrillic characterSet = characterSet ++ added).
Proof.
  unfold handleAppendLatin1, handleAppendCyrillic.
  assert (Hlatin : forall u, u ∈ char_range 160 255 <-> 160 <= u <= 255)
    by (intros u; apply elem_of_char_range; lia).
  assert (Hcyr : forall u,
    u ∈ char_range 1040 1071 ++ char_range 1072 1103
        ++ [fromCharCode 1025; fromCharCode 1105]
    <-> 1040 <= u <= 1103 \/ u = 1025 \/ u = 1105).
  { intros u. rewrite !elem_of_app.
    rewrite (elem_of_char_range 1040 1071), (elem_of_char_range 1072 1103) by lia.
    rewrite elem_of_cons, list_elem_of_singleton.
    change (fromCharCode 1025) with 1025. change (fromCharCode 1105) with 1105. lia. }
  generalize dependent (char_range 1040 1071 ++ char_range 1072 1103
                          ++ [fromCharCode 1025; fromCharCode 1105]).
  generalize dependent (char_range 160 255).
  intros latin Hlatin cyrillic Hcyr.
  split; [apply append_unique_again |]. split; [apply append_unique_again |].
  split; [apply append_unique_elems |]. split; [apply append_unique_elems |].
  split; [|split].
  - intros u. rewrite (proj2 (append_unique_elems _ _)), Hlatin. reflexivity.
  - intros u. rewrite (proj2 (append_unique_elems _ _)), Hcyr. reflexivity.
  - intros Hnd. split; eexists; apply append_unique_keeps; assumption.
Qed.

Lemma handleAppend_idempotent_witness :
  exists added, handleAppendLatin1 (lit "AB") = lit "AB" ++ added.
Proof.
  assert (Hnd : NoDup (lit "AB")).
  { change (lit "AB") with [65; 66]. apply NoDup_cons. split.
    - rewrite list_elem_of_singleton. discriminate.
    - apply NoDup_singleton. }
  destruct (handleAppend_idempotent (lit "AB")) as (_ & _ & _ & _ & _ & _ & Hkeeps).
  exact (proj1 (Hkeeps Hnd)).
Defined.

(** ** FormatConverter: the bounding box of a glyph *)

(** The column scan finds the leftmost and the rightmost set column when it
    visits every set pixel and starts from a column to the right of all of
    them. *)
Lemma scan_columns_box (m : matrix) h bound (minX0 : Z) :
  (forall y x, cell m y x = true -> (y < h)%nat /\ (x < bound y)%nat) ->
  (forall y x, cell m y x = true -> Z.of_nat x < minX0) ->
  (scan_columns m h bound minX0 = (minX0, -1) /\ forall y x, cell m y x = false)
  \/ exists lo hi : nat,
       scan_columns m h bound minX0 = (Z.of_nat lo, Z.of_nat hi)
       /\ (lo <= hi)%nat
       /\ (exists y, cell m y lo = true) /\ (exists y, cell m y hi = true)
       /\ forall y x, cell m y x = true -> (lo <= x <= hi)%nat.
Proof.
  intros Hvis Hleft.
  pose proof (scan_columns_inv m h bound minX0) as Hinv.
  destruct (scan_columns m h bound minX0) as [minX maxX].
  destruct Hinv as (Hbound & Hwit).
  assert (Hall : forall y x, cell m y x = true -> minX <= Z.of_nat x <= maxX).
  { intros y x Hc. apply (Hbound y x); [|assumption].
    apply elem_of_scan_positions, Hvis, Hc. }
  destruct Hwit as [[-> ->] | [(y & x & _ & Hc & ->) Hmin]].
  - left. split; [reflexivity |]. intros y x.
    destruct (cell m y x) eqn:Hc; [|reflexivity]. specialize (Hall y x Hc). lia.
  - right. destruct Hmin as [->|(y' & x' & _ & Hc' & ->)].
    + specialize (Hall y x Hc). specialize (Hleft y x Hc). lia.
    + exists x', x. split; [reflexivity |].
      split; [specialize (Hall y x Hc); lia |].
      split; [eauto |]. split; [eauto |].
      intros y0 x0 H0. specialize (Hall y0 x0 H0). lia.
Qed.

Lemma cell_lt_width h w (m : matrix) y x :
  rectangular h w m -> cell m y x = true -> (y < h)%nat /\ (x < w)%nat.
Proof.
  intros Hrect Hc. destruct (cell_true_inv _ _ _ Hc) as [Hy Hx].
  pose proof (proj1 Hrect) as Hlen. rewrite Hlen in Hy.
  rewrite (rect_row_length _ _ _ _ Hrect Hy) in Hx. auto.
Qed.

Lemma cell_crop (m : matrix) lo n y x :
  cell ((fun row => take n (drop lo row)) <$> m) y x
  = (x <? n)%nat && cell m y (lo + x).
Proof.
  unfold cell. rewrite list_lookup_fmap.
  destruct (m !! y) as [row|]; simpl; [|symmetry; apply andb_false_r].
  destruct (Nat.ltb_spec x n).
  - rewrite lookup_take_lt by assumption. rewrite lookup_drop. reflexivity.
  - rewrite lookup_take_ge by assumption. reflexivity.
Qed.

Lemma rectangular_crop h w (m : matrix) lo n :
  rectangular h w m -> (lo + n <= w)%nat ->
  rectangular h n ((fun row => take n (drop lo row)) <$> m).
Proof.
  intros Hrect Hle. eapply rectangular_fmap; [eassumption |].
  intros row Hrow. rewrite length_take, length_drop. lia.
Qed.

(** The two outcomes of convertToDynamic on a glyph other than the space. *)
Lemma dynamic_form_box originalWidth maxWidth (g : GeneratedChar) w :
  char g <> SPACE ->
  rectangular (length (bitmap g)) w (bitmap g) ->
  ((forall y x, cell (bitmap g) y x = false)
   /\ dynamic_form originalWidth maxWidth g
      = (with_glyph g (replicate (length (bitmap g)) []) [], maxWidth))
  \/ exists lo hi : nat,
       (lo <= hi < w)%nat
       /\ (exists y, cell (bitmap g) y lo = true)
       /\ (exists y, cell (bitmap g) y hi = true)
       /\ (forall y x, cell (bitmap g) y x = true -> (lo <= x <= hi)%nat)
       /\ dynamic_form originalWidth maxWidth g
          = (with_glyph g
               ((fun row => take (S hi - lo) (drop lo row)) <$> bitmap g)
               (take (S hi - lo) (drop lo (bytes g))),
             Z.max maxWidth (Z.of_nat (S hi - lo))).
Proof.
  intros Hchar Hrect. unfold dynamic_form. rewrite (jsstring_eqb_neq _ _ Hchar).
  destruct (scan_columns_box (bitmap g) (length (bitmap g)) (row_length (bitmap g))
              (Z.of_nat (first_row_length (bitmap g))))
    as [[-> Hnone] | (lo & hi & -> & Hle & [y1 H1] & [y2 H2] & Hall)].
  - intros y x Hc. apply cell_true_inv, Hc.
  - intros y x Hc. destruct (cell_lt_width _ _ _ _ _ Hrect Hc) as [Hy Hx].
    rewrite (first_row_length_rect _ _ _ Hrect) by lia. lia.
  - left. split; [assumption | reflexivity].
  - right. exists lo, hi.
    destruct (cell_lt_width _ _ _ _ _ Hrect H2) as [_ Hhi].
    split; [lia |]. split; [eauto |]. split; [eauto |]. split; [assumption |].
    destruct (Z.eqb_spec (Z.of_nat hi) (-1)); [lia |].
    rewrite js_slice_range by lia.
    replace (Z.to_nat (Z.of_nat hi + 1 - Z.of_nat lo)) with (S hi - lo)%nat by lia.
    rewrite Nat2Z.id. f_equal.
    + f_equal. apply list_fmap_ext. intros i row _.
      rewrite js_slice_range by lia.
      replace (Z.to_nat (Z.of_nat hi + 1 - Z.of_nat lo)) with (S hi - lo)%nat by lia.
      rewrite Nat2Z.id. reflexivity.
    + destruct (Z.ltb_spec maxWidth (Z.of_nat hi - Z.of_nat lo + 1)); lia.
Qed.

(** The glyphs and the running maximum of a conversion, in closed form. *)
Lemma convertToDynamic_closed fontData originalWidth :
  Z.max 1 (originalWidth / 2) < 2 ^ 32 ->
  convertToDynamic fontData originalWidth
  = Ok ((fun charData => fst (dynamic_form originalWidth 0 charData)) <$> fontData,
        fold_left
          (fun maxWidth charData => snd (dynamic_form originalWidth maxWidth charData))
          fontData 0).
Proof.
  intros Hw. unfold convertToDynamic.
  assert (G : forall l acc,
    for_each l
      (fun charData (st : list GeneratedChar * Z) =>
         '(g, maxWidth) ← dynamic_of originalWidth (snd st) charData;
         Ok (fst st ++ [g], maxWidth)) acc
    = Ok (fst acc ++ ((fun charData => fst (dynamic_form originalWidth 0 charData)) <$> l),
          fold_left
            (fun maxWidth charData => snd (dynamic_form originalWidth maxWidth charData))
            l (snd acc))).
  { induction l as [|c l IH]; intros acc.
    - cbn [for_each fold_left]. rewrite fmap_nil, app_nil_r. destruct acc; reflexivity.
    - cbn [for_each fold_left]. rewrite dynamic_of_ok by (intros _; assumption).
      destruct (dynamic_form originalWidth (snd acc) c) as [g' mw] eqn:E.
      cbn [mbind result_bind].
      rewrite IH, fmap_cons. cbn [fst snd]. rewrite <- app_assoc. cbn [app].
      f_equal. f_equal. f_equal. f_equal.
      rewrite <- (dynamic_form_fst originalWidth (snd acc) c), E. reflexivity. }
  rewrite G. reflexivity.
Qed.

(** X19.  convertToDynamic cuts a glyph other than the space to the bounding box of
    its pixels (the width of the space being below 2^32, the conversion
    returns): a blank glyph gets rows of no columns and no bytes; otherwise
    the columns from the leftmost to the rightmost set pixel are kept, bitmap
    and bytes alike, the first and the last column of the result hold a set
    pixel, and the maximum width returned is at least the width of the
    result. *)
Theorem convertToDynamic_bounding_box (fontData : list GeneratedChar)
    (originalWidth : Z) (i : nat) (g : GeneratedChar) (w : nat) :
  Z.max 1 (originalWidth / 2) < 2 ^ 32 ->
  fontData !! i = Some g ->
  char g <> SPACE ->
  rectangular (length (bitmap g)) w (bitmap g) ->
  exists newData maxWidth g',
    convertToDynamic fontData originalWidth = Ok (newData, maxWidth)
    /\ newData !! i = Some g'
    /\ char g' = char g
    /\ (((forall y x, cell (bitmap g) y x = false)
         /\ bitmap g' = replicate (length (bitmap g)) [] /\ bytes g' = [])
        \/ exists lo hi : nat,
             (lo <= hi < w)%nat
             /\ (forall y x, cell (bitmap g) y x = true -> (lo <= x <= hi)%nat)
             /\ rectangular (length (bitmap g)) (S hi - lo) (bitmap g')
             /\ (forall y x, cell (bitmap g') y x
                             = (x <=? hi - lo)%nat && cell (bitmap g) y (lo + x))
             /\ (exists y, cell (bitmap g') y 0%nat = true)
             /\ (exists y, cell (bitmap g') y (hi - lo)%nat = true)
             /\ bytes g' = take (S hi - lo) (drop lo (bytes g))
             /\ Z.of_nat (S hi - lo) <= maxWidth).
Proof.
  intros Hw Hi Hchar Hrect.
  eexists _, _, _. split; [apply convertToDynamic_closed; assumption |].
  rewrite list_lookup_fmap, Hi. split; [reflexivity |].
  destruct (dynamic_form_box originalWidth 0 g w Hchar Hrect)
    as [[Hnone E] | (lo & hi & Hle & [y1 H1] & [y2 H2] & Hall & E)]; rewrite E.
  - split; [reflexivity |]. left. auto.
  - split; [reflexivity |]. right. exists lo, hi. cbn [fst with_glyph bitmap bytes].
    assert (Hcell : forall y x,
      cell ((fun row => take (S hi - lo) (drop lo row)) <$> bitmap g) y x
      = (x <=? hi - lo)%nat && cell (bitmap g) y (lo + x)).
    { intros y x. rewrite cell_crop. f_equal.
      destruct (Nat.ltb_spec x (S hi - lo)), (Nat.leb_spec x (hi - lo)); lia || reflexivity. }
    split; [assumption |]. split; [assumption |].
    split; [apply (rectangular_crop _ w); [assumption | lia] |].
    split; [exact Hcell |].
    split; [exists y1; rewrite Hcell, Nat.add_0_r, H1; reflexivity |].
    split; [exists y2; rewrite Hcell; replace (lo + (hi - lo))%nat with hi by lia;
            rewrite H2, Nat.leb_refl; reflexivity |].
    split; [reflexivity |].
    (* the running maximum is at least the width of every glyph before and at i *)
    assert (Hmono : forall l m,
      m <= fold_left (fun maxWidth charData =>
                        snd (dynamic_form originalWidth maxWidth charData)) l m).
    { induction l as [|c l IH]; intros m; [cbn; lia |]. cbn [fold_left].
      etransitivity; [|apply IH].
      unfold dynamic_form. destruct (jsstring_eqb (char c) SPACE); cbn [snd].
      - destruct (Z.ltb_spec m (Z.max 1 (originalWidth / 2))); lia.
      - destruct (scan_columns _ _ _ _) as [minX maxX].
        destruct (maxX =? -1); cbn [snd]; [lia |].
        destruct (Z.ltb_spec m (maxX - minX + 1)); lia. }
    rewrite <- (take_drop_middle fontData i g Hi), fold_left_app. cbn [fold_left].
    etransitivity; [|apply Hmono].
    destruct (dynamic_form_box originalWidth
                (fold_left (fun maxWidth charData =>
                              snd (dynamic_form originalWidth maxWidth charData))
                   (take i fontData) 0) g w Hchar Hrect)
      as [[Hnone _] | (lo' & hi' & _ & [y3 H3] & [y4 H4] & Hall' & E')];
      [rewrite Hnone in H1; discriminate |].
    rewrite E'. cbn [snd].
    assert (lo' = lo) as -> by (pose proof (Hall _ _ H3); pose proof (Hall' _ _ H1); lia).
    assert (hi' = hi) as -> by (pose proof (Hall _ _ H4); pose proof (Hall' _ _ H2); lia).
    lia.
Qed.

Lemma convertToDynamic_bounding_box_witness :
  exists newData maxWidth g',
    convertToDynamic [glyph_indented] 2 = Ok (newData, maxWidth)
    /\ newData !! 0%nat = Some g'
    /\ char g' = char glyph_indented.
Proof.
  destruct (convertToDynamic_bounding_box [glyph_indented] 2 0 glyph_indented 2)
    as (newData & maxWidth & g' & Hrun & Hg' & Hchar & _).
  - reflexivity.
  - reflexivity.
  - discriminate.
  - split; [reflexivity | repeat constructor].
  - exists newData, maxWidth, g'. repeat split; assumption.
Defined.

(** Converting a converted glyph changes nothing. *)
Lemma dynamic_form_again originalWidth (g : GeneratedChar) w :
  rectangular (length (bitmap g)) w (bitmap g) ->
  forall maxWidth maxWidth',
    dynamic_form originalWidth maxWidth' (fst (dynamic_form originalWidth maxWidth g))
    = (fst (dynamic_form originalWidth maxWidth g),
       snd (dynamic_form originalWidth maxWidth' g)).
Proof.
  intros Hrect maxWidth maxWidth'.
  destruct (jsstring_eqb (char g) SPACE) eqn:Hsp.
  - unfold dynamic_form at 2 3. rewrite Hsp. cbn [fst snd].
    unfold dynamic_form. cbn [char with_glyph bitmap]. rewrite Hsp.
    rewrite length_replicate. reflexivity.
  - assert (Hchar : char g <> SPACE).
    { intros E. rewrite E in Hsp. discriminate. }
    destruct (dynamic_form_box originalWidth maxWidth g w Hchar Hrect)
      as [[Hnone E] | (lo & hi & Hle & [y1 H1] & [y2 H2] & Hall & E)].
    + rewrite E. cbn [fst].
      destruct (dynamic_form_box originalWidth maxWidth' g w Hchar Hrect)
        as [[_ E'] | (lo & hi & _ & [y1 H1] & _)]; [|rewrite Hnone in H1; discriminate].
      rewrite E'. cbn [snd].
      destruct (dynamic_form_box originalWidth maxWidth'
                  (with_glyph g (replicate (length (bitmap g)) []) []) 0)
        as [[_ E2] | (lo & hi & _ & [y1 H1] & _)].
      * assumption.
      * cbn [bitmap with_glyph]. rewrite length_replicate.
        apply rectangular_replicate. reflexivity.
      * rewrite E2. cbn [bitmap with_glyph]. rewrite length_replicate. reflexivity.
      * exfalso. cbn [bitmap with_glyph] in H1. unfold cell in H1.
        destruct (replicate _ _ !! y1) as [row|] eqn:Hrow; [|discriminate].
        apply lookup_replicate in Hrow as [-> _]. discriminate.
    + rewrite E. cbn [fst].
      destruct (dynamic_form_box originalWidth maxWidth' g w Hchar Hrect)
        as [[Hnone _] | (lo' & hi' & _ & [y3 H3] & [y4 H4] & Hall' & E')];
        [rewrite Hnone in H1; discriminate |].
      assert (lo' = lo) as ->.
      { pose proof (Hall _ _ H3). pose proof (Hall' _ _ H1). lia. }
      assert (hi' = hi) as ->.
      { pose proof (Hall _ _ H4). pose proof (Hall' _ _ H2). lia. }
      rewrite E'. cbn [snd]. clear E E' H3 H4 Hall' y3 y4.
      set (n := (S hi - lo)%nat).
      set (m' := (fun row => take n (drop lo row)) <$> bitmap g).
      set (g' := with_glyph g m' (take n (drop lo (bytes g)))).
      assert (Hrect' : rectangular (length (bitmap g')) n (bitmap g')).
      { cbn [bitmap g' with_glyph]. unfold m'. rewrite length_fmap.
        apply (rectangular_crop _ w); [assumption | lia]. }
      destruct (dynamic_form_box originalWidth maxWidth' g' n Hchar Hrect')
        as [[Hnone _] | (lo' & hi' & Hle' & [y3 H3] & [y4 H4] & Hall' & E')].
      * exfalso. specialize (Hnone y1 0%nat). cbn [bitmap g' with_glyph] in Hnone.
        unfold m' in Hnone. rewrite cell_crop, Nat.add_0_r, H1 in Hnone.
        destruct (Nat.ltb_spec 0 n); [discriminate | lia].
      * assert (H0 : cell (bitmap g') y1 0%nat = true).
        { cbn [bitmap g' with_glyph]. unfold m'. rewrite cell_crop, Nat.add_0_r, H1.
          destruct (Nat.ltb_spec 0 n); [reflexivity | lia]. }
        assert (Hn : cell (bitmap g') y2 (hi - lo)%nat = true).
        { cbn [bitmap g' with_glyph]. unfold m'. rewrite cell_crop.
          replace (lo + (hi - lo))%nat with hi by lia. rewrite H2.
          destruct (Nat.ltb_spec (hi - lo) n); [reflexivity | lia]. }
        assert (lo' = 0%nat) as -> by (pose proof (Hall' _ _ H0); lia).
        assert (hi' = (hi - lo)%nat) as -> by (pose proof (Hall' _ _ Hn); lia).
        rewrite E'. replace (S (hi - lo) - 0)%nat with n by lia.
        f_equal. unfold g', with_glyph. cbn [char ascii codePoint bitmap bytes].
        f_equal.
        -- unfold m'. rewrite <- list_fmap_compose. apply list_fmap_ext.
           intros i row _. simpl. rewrite drop_0, take_take. f_equal. lia.
        -- rewrite drop_0, take_take. f_equal. lia.
Qed.

(** X20.  convertToDynamic is idempotent on glyphs with rectangular bitmaps:
    converting the converted glyphs with the same original width returns the
    same glyphs and the same maximum width. *)
Theorem convertToDynamic_idempotent (fontData : list GeneratedChar)
    (originalWidth : Z) :
  Z.max 1 (originalWidth / 2) < 2 ^ 32 ->
  Forall (fun g => exists w, rectangular (length (bitmap g)) w (bitmap g)) fontData ->
  exists newData maxWidth,
    convertToDynamic fontData originalWidth = Ok (newData, maxWidth)
    /\ convertToDynamic newData originalWidth = Ok (newData, maxWidth).
Proof.
  intros Hw Hall. eexists _, _.
  split; [apply convertToDynamic_closed; assumption |].
  rewrite convertToDynamic_closed by assumption.
  set (G := fun charData => fst (dynamic_form originalWidth 0 charData)).
  f_equal. f_equal.
  - rewrite <- list_fmap_compose. apply Forall_fmap_ext_1.
    eapply Forall_impl; [exact Hall |]. intros g [w Hrect]. unfold compose, G.
    rewrite (dynamic_form_again originalWidth g w Hrect 0 0). reflexivity.
  - generalize 0 as mw. induction Hall as [|g l [w Hrect] _ IH]; intros mw.
    + reflexivity.
    + rewrite fmap_cons. cbn [fold_left]. rewrite <- IH. f_equal. unfold G.
      rewrite (dynamic_form_again originalWidth g w Hrect 0 mw). reflexivity.
Qed.

Lemma convertToDynamic_idempotent_witness :
  exists newData maxWidth,
    convertToDynamic [glyph_indented; glyph_L] 3 = Ok (newData, maxWidth)
    /\ convertToDynamic newData 3 = Ok (newData, maxWidth).
Proof.
  apply (convertToDynamic_idempotent [glyph_indented; glyph_L] 3); [reflexivity |].
  repeat constructor.
  - exists 2%nat. split; [reflexivity | repeat constructor].
  - exists 3%nat. split; [reflexivity | repeat constructor].
Defined.

(** ** FormatConverter: the laws of the conversion to fixed width *)

Lemma with_glyph_same g : with_glyph g (bitmap g) (bytes g) = g.
Proof. destruct g; reflexivity. Qed.

Lemma fixed_form_width w g :
  0 <= w -> Z.of_nat (length (bytes (fixed_form w g))) = w.
Proof.
  intros Hw. unfold fixed_form.
  destruct (Z.eqb_spec (Z.of_nat (length (bytes g))) w); [assumption |].
  destruct (Z.ltb_spec w (Z.of_nat (length (bytes g)))); cbn [with_glyph bytes].
  - rewrite js_slice_prefix by assumption. rewrite length_take. lia.
  - rewrite length_app, length_replicate. lia.
Qed.

Lemma fixed_form_rows w g :
  0 <= w ->
  Forall (fun row => length row = length (bytes g)) (bitmap g) ->
  Forall (fun row => length row = Z.to_nat w) (bitmap (fixed_form w g)).
Proof.
  intros Hw Hrows. unfold fixed_form.
  destruct (Z.eqb_spec (Z.of_nat (length (bytes g))) w) as [E|E].
  - eapply Forall_impl; [exact Hrows |]. simpl. intros row ->. lia.
  - destruct (Z.ltb_spec w (Z.of_nat (length (bytes g)))); cbn [with_glyph bitmap];
      apply Forall_fmap; (eapply Forall_impl; [exact Hrows |]); simpl; intros row Hrow.
    + rewrite js_slice_prefix by assumption. rewrite length_take. lia.
    + rewrite length_app, length_replicate. lia.
Qed.

Lemma fixed_form_same w g :
  Z.of_nat (length (bytes g)) = w -> fixed_form w g = g.
Proof.
  intros E. unfold fixed_form. rewrite (proj2 (Z.eqb_eq _ _) E). reflexivity.
Qed.

Lemma take_padded {A : Type} (l : list A) (x : A) (n k : nat) :
  (n <= length l + k)%nat ->
  take n (l ++ replicate k x) = take n l ++ replicate (n - length l) x.
Proof.
  intros Hn. destruct (Nat.le_gt_cases n (length l)).
  - rewrite take_app_le by assumption.
    replace (n - length l)%nat with 0%nat by lia. simpl. symmetry. apply app_nil_r.
  - rewrite take_app_ge by lia. rewrite (take_ge l) by lia. rewrite take_replicate.
    do 2 f_equal. lia.
Qed.

Lemma take_resized {A : Type} (l : list A) (x : A) (n m : nat) :
  (n <= m)%nat ->
  take n (take m l ++ replicate (m - length l) x) ++ replicate (n - m) x
  = take n l ++ replicate (n - length l) x.
Proof.
  intros Hn. replace (n - m)%nat with 0%nat by lia. simpl. rewrite app_nil_r.
  rewrite take_padded by (rewrite length_take; lia).
  rewrite take_take, length_take. f_equal; f_equal; lia.
Qed.

(** The record of the conversion to width [w] in one form: every row and the
    byte array cut to [w] elements and padded up to [w]. *)
Lemma fixed_form_shape w g :
  0 <= w ->
  Forall (fun row => length row = length (bytes g)) (bitmap g) ->
  fixed_form w g
  = with_glyph g
      ((fun row => take (Z.to_nat w) row
                   ++ replicate (Z.to_nat w - length (bytes g)) false) <$> bitmap g)
      (take (Z.to_nat w) (bytes g) ++ replicate (Z.to_nat w - length (bytes g)) 0).
Proof.
  intros Hw Hrows. unfold fixed_form.
  destruct (Z.eqb_spec (Z.of_nat (length (bytes g))) w) as [E|E].
  { transitivity (with_glyph g (bitmap g) (bytes g)); [symmetry; apply with_glyph_same |].
    replace (Z.to_nat w - length (bytes g))%nat with 0%nat by lia.
    f_equal.
    - rewrite <- (list_fmap_id (bitmap g)) at 1. apply Forall_fmap_ext.
      eapply Forall_impl; [exact Hrows |]. simpl. intros row Hrow.
      rewrite take_ge by lia. symmetry. apply app_nil_r.
    - rewrite take_ge by lia. symmetry. apply app_nil_r. }
  destruct (Z.ltb_spec w (Z.of_nat (length (bytes g)))).
  - replace (Z.to_nat w - length (bytes g))%nat with 0%nat by lia. f_equal.
    + apply Forall_fmap_ext, Forall_forall. intros row _. simpl.
      rewrite js_slice_prefix by lia. symmetry. apply app_nil_r.
    + rewrite js_slice_prefix by lia. symmetry. apply app_nil_r.
  - replace (Z.to_nat (w - Z.of_nat (length (bytes g))))
      with (Z.to_nat w - length (bytes g))%nat by lia.
    f_equal.
    + apply Forall_fmap_ext. eapply Forall_impl; [exact Hrows |]. simpl. intros row Hrow.
      rewrite take_ge by lia. reflexivity.
    + rewrite take_ge by lia. reflexivity.
Qed.

(** Narrowing the result of a conversion is the narrower conversion. *)
Lemma fixed_form_narrow w1 w2 g :
  0 <= w2 <= w1 ->
  Forall (fun row => length row = length (bytes g)) (bitmap g) ->
  fixed_form w2 (fixed_form w1 g) = fixed_form w2 g.
Proof.
  intros Hw Hrows.
  assert (Hlen : length (bytes (fixed_form w1 g)) = Z.to_nat w1).
  { pose proof (fixed_form_width w1 g ltac:(lia)). lia. }
  rewrite (fixed_form_shape w2 (fixed_form w1 g)); [|lia|].
  2:{ rewrite Hlen. apply fixed_form_rows; [lia | exact Hrows]. }
  rewrite Hlen. rewrite (fixed_form_shape w1 g), (fixed_form_shape w2 g) by (lia || exact Hrows).
  cbn [with_glyph bitmap bytes char ascii codePoint]. unfold with_glyph. f_equal.
  - rewrite <- list_fmap_compose. apply Forall_fmap_ext.
    eapply Forall_impl; [exact Hrows |]. simpl. intros row Hrow.
    rewrite <- Hrow. apply take_resized. lia.
  - apply take_resized. lia.
Qed.

(** X21.  For a width from 0 to below 2^32 convertToFixed returns as many glyphs
    as it was given, each with that number of bytes; when the rows of every
    glyph given are as long as its byte array, every row of the result has
    that width too, and converting the result to a narrower width is the same
    as converting the original glyphs to it; converting the result to the
    same width again changes nothing. *)
Theorem convertToFixed_laws (fontData : list GeneratedChar) (newWidth : Z) :
  0 <= newWidth < 2 ^ 32 ->
  exists newData,
    convertToFixed fontData newWidth = Ok newData
    /\ length newData = length fontData
    /\ Forall (fun g => Z.of_nat (length (bytes g)) = newWidth) newData
    /\ (Forall (fun g => Forall (fun row => length row = length (bytes g)) (bitmap g))
          fontData ->
        Forall (fun g => Forall (fun row => Z.of_nat (length row) = newWidth) (bitmap g))
          newData
        /\ forall narrower, 0 <= narrower <= newWidth ->
             convertToFixed newData narrower = convertToFixed fontData narrower)
    /\ convertToFixed newData newWidth = Ok newData.
Proof.
  intros Hw. exists (fixed_form newWidth <$> fontData).
  split; [apply convertToFixed_returns; lia |].
  split; [apply length_fmap |].
  split.
  { apply Forall_fmap, Forall_forall. intros g _. simpl. apply fixed_form_width. lia. }
  split.
  { intros Hrows. split.
    - apply Forall_fmap. eapply Forall_impl; [exact Hrows |]. simpl. intros g Hg.
      eapply Forall_impl; [apply (fixed_form_rows newWidth g); [lia | exact Hg] |].
      simpl. intros row ->. lia.
    - intros narrower Hn. rewrite !convertToFixed_returns by lia. f_equal.
      rewrite <- list_fmap_compose. apply Forall_fmap_ext.
      eapply Forall_impl; [exact Hrows |]. simpl. intros g Hg.
      apply fixed_form_narrow; [lia | exact Hg]. }
  rewrite convertToFixed_returns by lia. f_equal.
  transitivity (id <$> (fixed_form newWidth <$> fontData)); [|apply list_fmap_id].
  apply Forall_fmap_ext, Forall_fmap, Forall_forall. intros g _. simpl.
  apply fixed_form_same, fixed_form_width. lia.
Qed.

Lemma convertToFixed_laws_witness :
  exists newData,
    convertToFixed [glyph_indented; glyph_L] 5 = Ok newData
    /\ convertToFixed newData 5 = Ok newData.
Proof.
  destruct (convertToFixed_laws [glyph_indented; glyph_L] 5)
    as (newData & Hrun & _ & _ & _ & Hidem).
  - split; [lia | reflexivity].
  - exists newData. split; assumption.
Defined.

(** ** FormatConverter: aligning twice *)

Lemma row_has_pixel_replicate w : row_has_pixel (replicate w false) = false.
Proof. induction w as [|w IH]; [reflexivity | exact IH]. Qed.

Lemma row_blank (row : list bool) :
  row_has_pixel row = false -> row = replicate (length row) false.
Proof.
  induction row as [|pixel row IH]; [reflexivity |].
  unfold row_has_pixel. simpl. destruct pixel; [discriminate |].
  intros H. f_equal. apply IH, H.
Qed.

Lemma blank_rows w (k : matrix) :
  Forall (fun row => length row = w) k ->
  (forall r, has_pixel_at k r = false) ->
  k = replicate (length k) (replicate w false).
Proof.
  induction 1 as [|row k Hrow _ IH]; intros Hnone; [reflexivity |].
  simpl. f_equal.
  - rewrite <- Hrow. apply row_blank. exact (Hnone 0%nat).
  - apply IH. intros r. exact (Hnone (S r)).
Qed.

Lemma has_pixel_at_top (m : matrix) f w r :
  has_pixel_at (drop f m ++ replicate f (replicate w false)) r
  = (r <? length m - f)%nat && has_pixel_at m (f + r).
Proof.
  unfold has_pixel_at. destruct (Nat.ltb_spec r (length m - f)).
  - rewrite lookup_app_l by (rewrite length_drop; assumption).
    rewrite lookup_drop. reflexivity.
  - rewrite lookup_app_r by (rewrite length_drop; assumption).
    destruct (replicate f (replicate w false) !! _) as [row|] eqn:E; [|reflexivity].
    apply lookup_replicate in E as [-> _]. apply row_has_pixel_replicate.
Qed.

Lemma has_pixel_at_bottom (m : matrix) l w r :
  (l < length m)%nat ->
  has_pixel_at (replicate (length m - 1 - l) (replicate w false) ++ take (S l) m) r
  = (length m - 1 - l <=? r)%nat && (r <? length m)%nat
    && has_pixel_at m (r - (length m - 1 - l)).
Proof.
  intros Hl. unfold has_pixel_at. destruct (Nat.leb_spec (length m - 1 - l) r).
  - rewrite lookup_app_r by (rewrite length_replicate; assumption).
    rewrite length_replicate. destruct (Nat.ltb_spec r (length m)).
    + rewrite lookup_take_lt by lia. reflexivity.
    + rewrite lookup_take_ge by lia. reflexivity.
  - rewrite lookup_app_l by (rewrite length_replicate; assumption).
    destruct (replicate _ (replicate w false) !! r) as [row|] eqn:E; [|reflexivity].
    apply lookup_replicate in E as [-> _]. apply row_has_pixel_replicate.
Qed.

Lemma has_pixel_at_take (m : matrix) n r :
  has_pixel_at (take n m) r = (r <? n)%nat && has_pixel_at m r.
Proof.
  unfold has_pixel_at. destruct (Nat.ltb_spec r n).
  - rewrite lookup_take_lt by assumption. reflexivity.
  - rewrite lookup_take_ge by assumption. reflexivity.
Qed.

Lemma has_pixel_at_drop (m : matrix) n r :
  has_pixel_at (drop n m) r = has_pixel_at m (n + r).
Proof. unfold has_pixel_at. rewrite lookup_drop. reflexivity. Qed.

(** The rows above the first set row and below the last one are blank. *)
Lemma take_first_set_row w (m : matrix) f :
  Forall (fun row => length row = w) m -> first_set_row m f ->
  take f m = replicate f (replicate w false).
Proof.
  intros Hrows [Hf Hbefore]. pose proof (has_pixel_at_lt _ _ Hf) as Hlt.
  rewrite (blank_rows w (take f m)).
  - rewrite length_take. f_equal. lia.
  - apply Forall_take, Hrows.
  - intros r. rewrite has_pixel_at_take. destruct (Nat.ltb_spec r f); [|reflexivity].
    simpl. apply Hbefore. assumption.
Qed.

Lemma drop_last_set_row w (m : matrix) l :
  Forall (fun row => length row = w) m -> last_set_row m l ->
  drop (S l) m = replicate (length m - 1 - l) (replicate w false).
Proof.
  intros Hrows [Hl Hafter]. pose proof (has_pixel_at_lt _ _ Hl) as Hlt.
  rewrite (blank_rows w (drop (S l) m)).
  - rewrite length_drop. f_equal. lia.
  - apply Forall_drop, Hrows.
  - intros r. rewrite has_pixel_at_drop. apply Hafter. lia.
Qed.

Lemma first_row_length_uniform w (m : matrix) :
  Forall (fun row => length row = w) m -> (0 < length m)%nat -> first_row_length m = w.
Proof.
  intros Hrows Hlen. apply (first_row_length_rect (length m)); [split; [reflexivity | exact Hrows] | exact Hlen].
Qed.

Lemma alignBitmap_twice (bitmap : matrix) (w : nat) (first second : direction) :
  Forall (fun row => length row = w) bitmap ->
  alignBitmap (alignBitmap bitmap first) second = alignBitmap bitmap second.
Proof.
  intros Hrows.
  destruct (scan_rows_spec bitmap) as [[_ Hnone] | (f & l & _ & Hfl & Hf & Hl)].
  { rewrite (alignBitmap_blank bitmap first Hnone). reflexivity. }
  assert (Hw : first_row_length bitmap = w)
    by (apply first_row_length_uniform; [exact Hrows | lia]).
  assert (Hw' : first_row_length (alignBitmap bitmap first) = w).
  { apply first_row_length_uniform.
    - apply alignBitmap_columns, Hrows.
    - rewrite alignBitmap_length. lia. }
  pose proof (alignBitmap_length bitmap first) as Hlen.
  pose proof (take_first_set_row w bitmap f Hrows Hf) as Habove.
  pose proof (drop_last_set_row w bitmap l Hrows Hl) as Hbelow.
  assert (Hmid : take (S l) bitmap
                 = replicate f (replicate w false) ++ take (S l - f) (drop f bitmap)).
  { rewrite <- Habove. rewrite <- (take_drop f (take (S l) bitmap)).
    rewrite take_take, skipn_firstn_comm. do 2 f_equal. lia. }
  assert (Htail : drop f bitmap
                  = take (S l - f) (drop f bitmap)
                    ++ replicate (length bitmap - 1 - l) (replicate w false)).
  { rewrite <- Hbelow. rewrite <- (take_drop (S l - f) (drop f bitmap)) at 1.
    rewrite drop_drop. do 2 f_equal. lia. }
  destruct Hf as [Hf Hbefore], Hl as [Hl Hafter].
  destruct first.
  - (* the rows were moved to the top *)
    assert (Htop : alignBitmap bitmap Top
                   = drop f bitmap ++ replicate f (replicate w false))
      by (rewrite <- Hw; apply alignBitmap_top; split; assumption).
    destruct second.
    + rewrite (alignBitmap_top (alignBitmap bitmap Top) 0).
      * simpl. apply app_nil_r.
      * split; [|intros r Hr; lia].
        rewrite Htop, has_pixel_at_top, Nat.add_0_r, Hf.
        destruct (Nat.ltb_spec 0 (length bitmap - f)); [reflexivity | lia].
    + rewrite (alignBitmap_bottom (alignBitmap bitmap Top) (l - f)).
      * rewrite Hw', Hlen. rewrite (alignBitmap_bottom bitmap l) by (split; assumption).
        rewrite Hw, Hmid, Htop. rewrite take_app_le by (rewrite length_drop; lia).
        rewrite app_assoc, <- replicate_add. f_equal; f_equal; lia.
      * rewrite Htop. split.
        -- rewrite has_pixel_at_top. replace (f + (l - f))%nat with l by lia. rewrite Hl.
           destruct (Nat.ltb_spec (l - f) (length bitmap - f)); [reflexivity | lia].
        -- intros r Hr. rewrite has_pixel_at_top.
           rewrite (Hafter (f + r)%nat) by lia. apply andb_false_r.
  - (* the rows were moved to the bottom *)
    assert (Hbottom : alignBitmap bitmap Bottom
                      = replicate (length bitmap - 1 - l) (replicate w false)
                        ++ take (S l) bitmap)
      by (rewrite <- Hw; apply alignBitmap_bottom; split; assumption).
    destruct second.
    + rewrite (alignBitmap_top (alignBitmap bitmap Bottom) (length bitmap - 1 - l + f)).
      * rewrite Hw'. rewrite (alignBitmap_top bitmap f) by (split; assumption).
        rewrite Hw, Hbottom. rewrite drop_app_ge by (rewrite length_replicate; lia).
        rewrite length_replicate.
        replace (length bitmap - 1 - l + f - (length bitmap - 1 - l))%nat with f by lia.
        rewrite skipn_firstn_comm. rewrite Htail at 2.
        rewrite <- app_assoc, <- replicate_add. reflexivity.
      * rewrite Hbottom. split.
        -- rewrite has_pixel_at_bottom by lia.
           replace (length bitmap - 1 - l + f - (length bitmap - 1 - l))%nat with f by lia.
           rewrite Hf.
           destruct (Nat.leb_spec (length bitmap - 1 - l) (length bitmap - 1 - l + f)); [|lia].
           destruct (Nat.ltb_spec (length bitmap - 1 - l + f) (length bitmap)); [reflexivity | lia].
        -- intros r Hr. rewrite has_pixel_at_bottom by lia.
           destruct (Nat.leb_spec (length bitmap - 1 - l) r); [|reflexivity].
           rewrite (Hbefore (r - (length bitmap - 1 - l))%nat) by lia. apply andb_false_r.
    + rewrite (alignBitmap_bottom (alignBitmap bitmap Bottom) (length bitmap - 1)).
      * rewrite Hlen. replace (length bitmap - 1 - (length bitmap - 1))%nat with 0%nat by lia.
        simpl. apply take_ge. rewrite Hlen. lia.
      * rewrite Hbottom. split.
        -- rewrite has_pixel_at_bottom by lia.
           replace (length bitmap - 1 - (length bitmap - 1 - l))%nat with l by lia.
           rewrite Hl.
           destruct (Nat.leb_spec (length bitmap - 1 - l) (length bitmap - 1)); [|lia].
           destruct (Nat.ltb_spec (length bitmap - 1) (length bitmap)); [reflexivity | lia].
        -- intros r Hr. rewrite has_pixel_at_bottom by lia.
           destruct (Nat.ltb_spec r (length bitmap)); [lia |].
           rewrite andb_false_r. reflexivity.
Qed.

(** X22.  On a bitmap whose rows have one length, aligning after an alignment gives
    what the second alignment alone gives: top and bottom alignment are each
    idempotent and each undoes the other.  The same holds for the realignment
    step of handleFinalImport, which encodes the bytes again. *)
Theorem alignBitmap_last_wins (charData : GeneratedChar) (height : Z) (w : nat)
    (first second : direction) :
  Forall (fun row => length row = w) (bitmap charData) ->
  alignBitmap (alignBitmap (bitmap charData) first) second
  = alignBitmap (bitmap charData) second
  /\ realign height second (realign height first charData)
     = realign height second charData.
Proof.
  intros Hrows.
  pose proof (alignBitmap_twice (bitmap charData) w first second Hrows) as Htwice.
  split; [exact Htwice |].
  unfold realign. cbn [with_glyph bitmap bytes char ascii codePoint].
  rewrite Htwice. reflexivity.
Qed.

Lemma alignBitmap_last_wins_witness :
  alignBitmap (alignBitmap (bitmap glyph_L) Top) Bottom = alignBitmap (bitmap glyph_L) Bottom
  /\ realign 2 Bottom (realign 2 Top glyph_L) = realign 2 Bottom glyph_L.
Proof.
  apply (alignBitmap_last_wins glyph_L 2 3 Top Bottom). repeat constructor.
Defined.

(** ** The last step of the import dialog *)

(** On a well-formed glyph the running maximum of convertToDynamic grows to
    the width of the converted glyph. *)
Lemma dynamic_form_snd h originalWidth maxWidth (g : GeneratedChar) :
  glyph_wf h g -> 0 <= maxWidth ->
  snd (dynamic_form originalWidth maxWidth g)
  = Z.max maxWidth
      (Z.of_nat (length (bytes (fst (dynamic_form originalWidth 0 g))))).
Proof.
  intros [[Hlen Hrows] _] Hm.
  destruct (decide (char g = SPACE)) as [Hsp|Hsp].
  - unfold dynamic_form. rewrite Hsp. change (jsstring_eqb SPACE SPACE) with true.
    cbn [fst snd with_glyph bytes]. rewrite length_replicate.
    destruct (Z.ltb_spec maxWidth (Z.max 1 (originalWidth / 2))); lia.
  - destruct (dynamic_form_box originalWidth maxWidth g (length (bytes g)) Hsp)
      as [[_ E] | (lo & hi & Hle & _ & _ & _ & E)];
      [split; [reflexivity | exact Hrows] | |];
      rewrite <- (dynamic_form_fst originalWidth maxWidth g), E;
      cbn [fst snd with_glyph bytes].
    + simpl. lia.
    + rewrite length_take, length_drop. lia.
Qed.

Lemma fold_dynamic_form_max h originalWidth (l : list GeneratedChar) : forall m0,
  Forall (glyph_wf h) l -> 0 <= m0 ->
  let width' := fun c =>
    Z.of_nat (length (bytes (fst (dynamic_form originalWidth 0 c)))) in
  let M := fold_left (fun m c => snd (dynamic_form originalWidth m c)) l m0 in
  m0 <= M
  /\ Forall (fun c => width' c <= M) l
  /\ (M = m0 \/ Exists (fun c => width' c = M) l).
Proof.
  induction l as [|c l IH]; intros m0 Hwf Hm0; cbn zeta.
  - cbn [fold_left]. split; [lia |]. split; [constructor | left; reflexivity].
  - inversion Hwf as [|? ? Hc Hl]; subst. cbn [fold_left].
    rewrite (dynamic_form_snd h originalWidth m0 c Hc Hm0).
    set (m1 := Z.max m0 _).
    destruct (IH m1 Hl ltac:(lia)) as (Hle & Hall & Hmax). cbn zeta in *.
    split; [lia |]. split; [constructor; [lia | exact Hall] |].
    destruct Hmax as [E|E]; [|right; apply Exists_cons_tl; exact E].
    destruct (Z.max_spec m0 (Z.of_nat (length (bytes (fst (dynamic_form originalWidth 0 c))))))
      as [[_ E']|[_ E']]; fold m1 in E'.
    + right. apply Exists_cons_hd. lia.
    + left. lia.
Qed.

Lemma realign_width h dir g :
  1 <= h -> glyph_wf h g -> length (bytes (realign h dir g)) = length (bytes g).
Proof.
  intros Hh [[Hlen Hrows] _]. unfold realign. cbn [with_glyph bytes].
  rewrite bitmapToBytes_length. apply first_row_length_uniform.
  - apply alignBitmap_columns, Hrows.
  - rewrite alignBitmap_length. lia.
Qed.

Lemma fixed_of_range_error newWidth charData e :
  fixed_of newWidth charData = Err e -> e = RangeError.
Proof.
  unfold fixed_of. destruct (_ =? _); [discriminate |].
  destruct (_ <? _); [discriminate |].
  destruct (new_array_fill _ false) as [pad|e'] eqn:Hpad.
  - apply new_array_fill_inv in Hpad as [Hw ->]. cbn [mbind result_bind].
    rewrite new_array_fill_ok by assumption. discriminate.
  - unfold new_array_fill in Hpad. destruct (_ || _); [|discriminate].
    injection Hpad as <-. cbn [mbind result_bind]. intros H. injection H as <-. reflexivity.
Qed.

Lemma array_map_first_error {A B : Type} (f : A -> result B) e0 (l : list A) :
  (forall a e, a ∈ l -> f a = Err e -> e = e0) ->
  (exists a, a ∈ l /\ f a = Err e0) ->
  array_map f l = Err e0.
Proof.
  induction l as [|a l IH]; intros Honly (b & Hb & Hfail).
  - inversion Hb.
  - cbn [array_map]. destruct (f a) as [v|e] eqn:Ha.
    + cbn [mbind result_bind]. rewrite IH; [reflexivity | |].
      * intros a' e' Ha'. apply Honly. right. exact Ha'.
      * apply elem_of_cons in Hb as [->|Hb]; [congruence | eauto].
    + cbn [mbind result_bind]. f_equal. eapply Honly; [left | exact Ha].
Qed.

(** X23.  handleFinalImport with the conversion chosen, on parsed data of height h
    from 1 to 8 whose glyphs have rectangular bitmaps as wide as their byte
    arrays and bytes below 2^h, whatever the vertical alignment chosen.  From
    dynamic to a fixed width from 0 to below 2^32: onImport is called, the
    options carry that width, fixed mode and spacing 1, and every glyph keeps
    the two invariants and has exactly that width.  From dynamic to a width
    that exceeds the width of some glyph by 2^32 or more: the RangeError is
    caught and setError called, nothing is imported.  From fixed to dynamic
    (the width of the space below 2^32): onImport is called with dynamic mode
    and spacing 0, every glyph keeps the two invariants, and the width in the
    options is the largest glyph width (0 when there is no glyph wider). *)
Theorem handleFinalImport_spec (parsedData : ParsedFontData)
    (verticalAlign : vertical_align) (newFixedWidth height h : Z) :
  1 <= h <= 8 ->
  io_height (fontOptions parsedData) = h ->
  Forall (glyph_wf h) (fontData parsedData) ->
  let outcome :=
    handleFinalImport (Some parsedData) ConvertFormat verticalAlign newFixedWidth height in
  (io_dynamicWidth (fontOptions parsedData) = true ->
   0 <= newFixedWidth < 2 ^ 32 ->
   exists finalData,
     outcome = OnImport finalData
     /\ imported (final_fontOptions finalData)
        = {| io_width := newFixedWidth; io_height := h;
             io_characterSet := io_characterSet (fontOptions parsedData);
             io_dynamicWidth := false; io_charSpacing := 1 |}
     /\ length (final_fontData finalData) = length (fontData parsedData)
     /\ Forall (fun g => glyph_wf h g /\ Z.of_nat (length (bytes g)) = newFixedWidth)
          (final_fontData finalData))
  /\ (io_dynamicWidth (fontOptions parsedData) = true ->
      (exists g, g ∈ fontData parsedData
                 /\ 2 ^ 32 <= newFixedWidth - Z.of_nat (length (bytes g))) ->
      outcome = SetError RangeError)
  /\ (io_dynamicWidth (fontOptions parsedData) = false ->
      Z.max 1 (io_width (fontOptions parsedData) / 2) < 2 ^ 32 ->
      exists finalData,
        outcome = OnImport finalData
        /\ io_dynamicWidth (imported (final_fontOptions finalData)) = true
        /\ io_charSpacing (imported (final_fontOptions finalData)) = 0
        /\ io_height (imported (final_fontOptions finalData)) = h
        /\ length (final_fontData finalData) = length (fontData parsedData)
        /\ Forall (fun g => glyph_wf h g
                            /\ Z.of_nat (length (bytes g))
                               <= io_width (imported (final_fontOptions finalData)))
             (final_fontData finalData)
        /\ (io_width (imported (final_fontOptions finalData)) = 0
            \/ Exists (fun g => Z.of_nat (length (bytes g))
                                = io_width (imported (final_fontOptions finalData)))
                 (final_fontData finalData))).
Proof.
  intros Hh Hheight Hwf outcome. subst outcome.
  unfold handleFinalImport, convert_format.
  assert (Halign : forall dir (l : list GeneratedChar) (P : Z -> Prop),
            Forall (fun g => glyph_wf h g /\ P (Z.of_nat (length (bytes g)))) l ->
            Forall (fun g => glyph_wf h g /\ P (Z.of_nat (length (bytes g))))
              (realign h dir <$> l)).
  { intros dir l P Hl. apply Forall_fmap. eapply Forall_impl; [exact Hl |].
    intros g [Hg HP]. unfold compose. cbv beta.
    split; [apply realign_wf; assumption |].
    rewrite (realign_width h dir g) by (lia || assumption). exact HP. }
  split; [|split].
  - intros -> Hw. rewrite convertToFixed_returns by lia. cbn [mbind result_bind].
    cbn [imported io_height]. rewrite Hheight.
    destruct (Z.eqb_spec h 0); [lia |].
    assert (Hfixed : Forall (fun g => glyph_wf h g
                                      /\ Z.of_nat (length (bytes g)) = newFixedWidth)
                       (fixed_form newFixedWidth <$> fontData parsedData)).
    { apply Forall_fmap. eapply Forall_impl; [exact Hwf |]. simpl. intros g Hg.
      split; [apply fixed_of_wf; exact Hg | apply fixed_form_width; lia]. }
    eexists. split; [reflexivity |]. cbn [final_fontOptions final_fontData imported].
    split; [reflexivity |].
    destruct verticalAlign as [|dir].
    + split; [apply length_fmap | exact Hfixed].
    + split; [rewrite !length_fmap; reflexivity |].
      apply (Halign dir _ (fun v => v = newFixedWidth)), Hfixed.
  - intros -> (g & Hg & Hwide).
    unfold convertToFixed. rewrite (array_map_first_error _ RangeError); [reflexivity | |].
    + intros a e _. apply fixed_of_range_error.
    + exists g. split; [exact Hg |]. unfold fixed_of.
      destruct (Z.eqb_spec (Z.of_nat (length (bytes g))) newFixedWidth); [lia |].
      destruct (Z.ltb_spec newFixedWidth (Z.of_nat (length (bytes g)))); [lia |].
      rewrite (new_array_fill_err _ false) by lia. reflexivity.
  - intros -> Hw. rewrite convertToDynamic_closed by assumption. cbn [mbind result_bind].
    cbn [imported io_height]. rewrite Hheight.
    destruct (Z.eqb_spec h 0); [lia |].
    destruct (fold_dynamic_form_max h (io_width (fontOptions parsedData))
                (fontData parsedData) 0 Hwf ltac:(lia)) as (_ & Hall & Hmax).
    cbn zeta in Hall, Hmax.
    set (M := fold_left _ _ _) in *.
    assert (Hdyn : Forall (fun g => glyph_wf h g /\ Z.of_nat (length (bytes g)) <= M)
                     ((fun charData =>
                         fst (dynamic_form (io_width (fontOptions parsedData)) 0 charData))
                        <$> fontData parsedData)).
    { apply Forall_fmap. apply Forall_and. split.
      - eapply Forall_impl; [exact Hwf |]. simpl. intros g Hg. apply dynamic_of_wf, Hg.
      - exact Hall. }
    eexists. split; [reflexivity |]. cbn [final_fontOptions final_fontData imported
                                          io_dynamicWidth io_charSpacing io_height io_width].
    split; [reflexivity |]. split; [reflexivity |]. split; [reflexivity |].
    destruct verticalAlign as [|dir].
    + split; [apply length_fmap |]. split; [exact Hdyn |].
      destruct Hmax as [E|E]; [left; exact E | right].
      apply Exists_fmap. exact E.
    + split; [rewrite !length_fmap; reflexivity |].
      split; [apply (Halign dir _ (fun v => v <= M)), Hdyn |].
      destruct Hmax as [E|E]; [left; exact E | right].
      apply Exists_exists in E as (c & Hc & E). apply Exists_exists.
      exists (realign h dir (fst (dynamic_form (io_width (fontOptions parsedData)) 0 c))).
      split.
      * apply list_elem_of_fmap. eexists. split; [reflexivity |].
        apply list_elem_of_fmap. exists c. split; [reflexivity | exact Hc].
      * rewrite realign_width; [exact E | lia |].
        apply dynamic_of_wf. eapply Forall_forall in Hwf; eassumption.
Qed.

Lemma handleFinalImport_spec_witness :
  exists finalData,
    handleFinalImport (Some parsed_AB) ConvertFormat (AlignRows Bottom) 3 8
    = OnImport finalData
    /\ Forall (fun g => glyph_wf 2 g /\ Z.of_nat (length (bytes g)) = 3)
         (final_fontData finalData).
Proof.
  destruct (handleFinalImport_spec parsed_AB (AlignRows Bottom) 3 8 2)
    as (Hfixed & _ & _).
  - lia.
  - reflexivity.
  - repeat constructor; apply fits_height_small; simpl; lia.
  - destruct Hfixed as (finalData & Hrun & _ & _ & Hall);
      [reflexivity | split; [lia | reflexivity] |].
    exists finalData. split; assumption.
Defined.
